(** * Anharmonic free energy: a shallow embedding of [free_energy_module_oo.py]

    The module post-processes simulation output with numpy.  Its numbers are
    IEEE-754 doubles; they are embedded here as the type [num]: a real number
    (arithmetic on finite values is exact, rounding is not modelled) or one of
    the three special values [+inf], [-inf] and [nan], which the code can
    produce through its unguarded divisions and logarithms and which follow
    the IEEE rules ([1/0 = inf], [0/0 = nan], [x/inf = 0], ...).  Signed
    zeros are identified, zero counting as [+0].

    The range of the doubles is not modelled either: a finite result never
    overflows to an infinity and never underflows to zero.  A statement
    about the value computed from finite inputs is therefore a statement in
    exact arithmetic; it holds of the doubles as long as no intermediate
    result leaves their range.  Where a result depends on that, the
    statement is given in terms of the intermediate value itself (for
    instance, [np.std u] being finite) rather than of the inputs.

    Python exceptions are embedded with the error monad [result]; numpy
    never raises on a floating-point division, it returns a special value.

    File access is outside the embedding: a function that reads a file takes
    the list of its lines (what [readlines()] returns) or the numeric columns
    read from it. *)

From Stdlib Require Import String Ascii Bool ZArith Reals Lra Lia List.
From Stdlib Require Import Permutation Sorted.
Import ListNotations.

(* ================================================================== *)
(** ** Numbers *)

Inductive num : Type :=
| Fin (r : R)
| PInf
| NInf
| NaN.

Definition Rsgn (r : R) : comparison :=
  if Rlt_dec r 0 then Lt else if Rlt_dec 0 r then Gt else Eq.

(** The infinity of the given sign; a zero factor gives [nan]. *)
Definition inf_signed (c : comparison) : num :=
  match c with Lt => NInf | Gt => PInf | Eq => NaN end.

Definition flip (c : comparison) : comparison := CompOpp c.

Definition nneg (a : num) : num :=
  match a with
  | Fin r => Fin (- r)
  | PInf => NInf
  | NInf => PInf
  | NaN => NaN
  end.

Definition nadd (a b : num) : num :=
  match a, b with
  | Fin x, Fin y => Fin (x + y)
  | NaN, _ | _, NaN => NaN
  | PInf, NInf | NInf, PInf => NaN
  | PInf, _ | _, PInf => PInf
  | NInf, _ | _, NInf => NInf
  end.

Definition nsub (a b : num) : num :=
  match a, b with
  | Fin x, Fin y => Fin (x - y)
  | NaN, _ | _, NaN => NaN
  | PInf, PInf | NInf, NInf => NaN
  | PInf, _ | _, NInf => PInf
  | NInf, _ | _, PInf => NInf
  end.

Definition nmul (a b : num) : num :=
  match a, b with
  | Fin x, Fin y => Fin (x * y)
  | NaN, _ | _, NaN => NaN
  | Fin x, PInf | PInf, Fin x => inf_signed (Rsgn x)
  | Fin x, NInf | NInf, Fin x => inf_signed (flip (Rsgn x))
  | PInf, PInf | NInf, NInf => PInf
  | PInf, NInf | NInf, PInf => NInf
  end.

(** Division never raises: a zero divisor gives an infinity of the sign of
    the dividend, and [0/0] gives [nan]. *)
Definition ndiv (a b : num) : num :=
  match a, b with
  | Fin x, Fin y =>
      if Req_dec_T y 0 then inf_signed (Rsgn x) else Fin (x / y)
  | NaN, _ | _, NaN => NaN
  | Fin _, PInf | Fin _, NInf => Fin 0
  | PInf, Fin y => if Rlt_dec y 0 then NInf else PInf
  | NInf, Fin y => if Rlt_dec y 0 then PInf else NInf
  | PInf, PInf | PInf, NInf | NInf, PInf | NInf, NInf => NaN
  end.

Definition nabs (a : num) : num :=
  match a with
  | Fin r => Fin (Rabs r)
  | PInf | NInf => PInf
  | NaN => NaN
  end.

(** [np.sign]: -1, 0 or 1, and [nan] for [nan]. *)
Definition nsign (a : num) : num :=
  match a with
  | Fin r => match Rsgn r with Lt => Fin (-1) | Eq => Fin 0 | Gt => Fin 1 end
  | PInf => Fin 1
  | NInf => Fin (-1)
  | NaN => NaN
  end.

(** [a > b]; every comparison with [nan] is false. *)
Definition ngtb (a b : num) : bool :=
  match a, b with
  | Fin x, Fin y => if Rlt_dec y x then true else false
  | NaN, _ | _, NaN => false
  | PInf, PInf | NInf, NInf => false
  | PInf, _ | _, NInf => true
  | NInf, _ | _, PInf => false
  end.

Definition nltb (a b : num) : bool := ngtb b a.

(** [np.sqrt]. *)
Definition nsqrt (a : num) : num :=
  match a with
  | Fin r => if Rlt_dec r 0 then NaN else Fin (sqrt r)
  | PInf => PInf
  | NInf | NaN => NaN
  end.

(** [a ** .5] on a scalar: C's [pow], which sends [-inf] to [+inf]. *)
Definition npow_half (a : num) : num :=
  match a with
  | NInf => PInf
  | _ => nsqrt a
  end.

(** [a ** -1]. *)
Definition npow_m1 (a : num) : num := ndiv (Fin 1) a.

(** [a ** 2]. *)
Definition nsqr (a : num) : num := nmul a a.

Definition nexp (a : num) : num :=
  match a with
  | Fin r => Fin (exp r)
  | PInf => PInf
  | NInf => Fin 0
  | NaN => NaN
  end.

Definition nlog (a : num) : num :=
  match a with
  | Fin r => match Rsgn r with Lt => NaN | Eq => NInf | Gt => Fin (ln r) end
  | PInf => PInf
  | NInf | NaN => NaN
  end.

(** A Python [int] used where a float is expected. *)
Definition of_Z (z : Z) : num := Fin (IZR z).

Definition is_fin (a : num) : Prop :=
  match a with Fin _ => True | _ => False end.

(* ================================================================== *)
(** ** Exceptions *)

Inductive exn : Type := IndexError | ValueError.

Inductive result (A : Type) : Type :=
| Ok (a : A)
| Raise (e : exn).

Arguments Ok {A} a.
Arguments Raise {A} e.

Definition bind {A B} (c : result A) (k : A -> result B) : result B :=
  match c with
  | Ok a => k a
  | Raise e => Raise e
  end.

Notation "x <- c ;; k" := (bind c (fun x => k))
  (at level 61, c at next level, right associativity).

(** [mapM]: the first exception, left to right, wins. *)
Fixpoint mapM {A B} (f : A -> result B) (l : list A) : result (list B) :=
  match l with
  | [] => Ok []
  | a :: l' => b <- f a ;; bs <- mapM f l' ;; Ok (b :: bs)
  end.

(* ================================================================== *)
(** ** Python sequences *)

Definition len {A} (l : list A) : Z := Z.of_nat (length l).

(** [l[i]]: negative indices count from the end; out of range raises. *)
Definition getitem {A} (l : list A) (i : Z) : result A :=
  let j := if (i <? 0)%Z then (i + len l)%Z else i in
  if (j <? 0)%Z then Raise IndexError
  else match nth_error l (Z.to_nat j) with
       | Some a => Ok a
       | None => Raise IndexError
       end.

(** [l[:n]], [l[n:]] and [l[:-1]] for [n >= 0]. *)
Definition upto {A} (n : nat) (l : list A) : list A := firstn n l.
Definition from {A} (n : nat) (l : list A) : list A := skipn n l.
Definition butlast {A} (l : list A) : list A := removelast l.

(* ================================================================== *)
(** ** numpy *)

Module np.

(** Elementwise binary operation on two arrays of the same length. *)
Fixpoint zip_with (f : num -> num -> num) (a b : list num) : list num :=
  match a, b with
  | x :: a', y :: b' => f x y :: zip_with f a' b'
  | _, _ => []
  end.

(** Elementwise binary operation on one-dimensional arrays, with numpy's
    broadcasting: equal lengths, or one operand of length 1; any other pair
    of shapes raises [ValueError]. *)
Definition broadcast (f : num -> num -> num) (a b : list num)
  : result (list num) :=
  if Nat.eqb (length a) (length b) then Ok (zip_with f a b)
  else match a, b with
       | [x], _ => Ok (map (f x) b)
       | _, [y] => Ok (map (fun x => f x y) a)
       | _, _ => Raise ValueError
       end.

(** [np.sum] of a float array; the empty sum is [0.0]. *)
Definition sum (a : list num) : num := fold_left nadd a (Fin 0).

(** [np.mean]: the sum over the length; [nan] for an empty array. *)
Definition mean (a : list num) : num := ndiv (sum a) (of_Z (len a)).

(** [np.diff]: [a[1:] - a[:-1]]. *)
Definition diff (a : list num) : list num :=
  zip_with nsub (from 1 a) (butlast a).

(** [np.trapz(y, x)]: [(diff(x) * (y[1:] + y[:-1]) / 2.0).sum()]. *)
Definition trapz (y x : list num) : result num :=
  let d := diff x in
  let s := zip_with nadd (from 1 y) (butlast y) in
  p <- broadcast nmul d s ;;
  Ok (sum (map (fun v => ndiv v (Fin 2)) p)).

(** [np.gradient(f)] with unit spacing and [edge_order = 1]: one-sided
    differences at the two ends, central differences inside; fewer than
    two elements raise [ValueError].  (numpy divides the end differences by
    the spacing [1.0], which changes no value.) *)
Definition gradient_at (f : list num) (i : nat) : num :=
  let n := length f in
  if Nat.eqb i 0 then nsub (nth 1 f NaN) (nth 0 f NaN)
  else if Nat.eqb i (n - 1) then nsub (nth (n - 1) f NaN) (nth (n - 2) f NaN)
  else ndiv (nsub (nth (i + 1) f NaN) (nth (i - 1) f NaN)) (Fin 2).

Definition gradient (f : list num) : result (list num) :=
  if Nat.ltb (length f) 2 then Raise ValueError
  else Ok (map (gradient_at f) (seq 0 (length f))).

(** [np.arange(start, stop, 1)] on integers. *)
Definition arange (start stop : Z) : list Z :=
  map (fun k => (start + Z.of_nat k)%Z) (seq 0 (Z.to_nat (stop - start))).

(** [a[t]] for an integer index array [t]. *)
Definition take (a : list num) (t : list Z) : result (list num) :=
  mapM (getitem a) t.

(** [np.std]: [sqrt(mean(abs(a - mean(a)) ** 2))]. *)
Definition std (a : list num) : num :=
  let m := mean a in
  nsqrt (mean (map (fun v => nsqr (nabs (nsub v m))) a)).

End np.

(* ================================================================== *)
(** ** [intgrt] *)

(** One iteration of the loop of [intgrt]: the values appended to [I] and
    to [err] at index [i]. *)
Definition intgrt_step (x y : list num) (i : nat) : result (num * num) :=
  t <- np.trapz (upto (i + 1) y) (upto (i + 1) x) ;;
  y_p <- np.gradient (upto (i + 1) y) ;;
  xl <- getitem x (-1) ;;
  x0 <- getitem x 0 ;;
  ypl <- getitem y_p (-1) ;;
  yp0 <- getitem y_p 0 ;;
  Ok (t, nmul (ndiv (nsqr (nsub xl x0)) (of_Z (12 * len x ^ 2)))
              (nsub ypl yp0)).

Fixpoint intgrt_loop (x y : list num) (rng : list nat)
         (I err : list num) : result (list num * list num) :=
  match rng with
  | [] => Ok (I, err)
  | i :: rng' =>
      r <- intgrt_step x y i ;;
      intgrt_loop x y rng' (I ++ [fst r]) (err ++ [snd r])
  end.

Definition intgrt (x y : list num) : result (list num * list num) :=
  intgrt_loop x y (seq 1 (length x - 1)) [Fin 0] [Fin 0].

(* ================================================================== *)
(** ** [_error_from_u] *)

(** [range(n)]. *)
Definition range (n : nat) : list Z := map Z.of_nat (seq 0 n).

(** The value appended to [c] at lag [i]:
    [np.sum(ug[t1] * ug[t2])] with [t1 = arange(0, len(ug)-i)] and
    [t2 = arange(i, len(ug))]. *)
Definition lag_sum (ug : list num) (i : Z) : result num :=
  let t1 := np.arange 0 (len ug - i) in
  let t2 := np.arange i (len ug) in
  a <- np.take ug t1 ;;
  b <- np.take ug t2 ;;
  p <- np.broadcast nmul a b ;;
  Ok (np.sum p).

(** The statements of [_error_from_u] up to [c_trs = np.sum(c > .1)]. *)
Definition decay_cutoff (u : list num) : result Z :=
  ug <- np.gradient u ;;
  c <- mapM (lag_sum ug) (range 1000) ;;
  c0 <- getitem c 0 ;;
  let c := map (fun v => ndiv v c0) c in
  let c := map (fun v => nmul v (nsign v)) c in
  Ok (Z.of_nat (length (filter (fun v => ngtb v (Fin 0.1)) c))).

Definition _error_from_u (u : list num) : result num :=
  c_trs <- decay_cutoff u ;;
  let N_independent := ndiv (of_Z (len u)) (of_Z c_trs) in
  Ok (ndiv (np.std u) (npow_half N_independent)).

(* ================================================================== *)
(** ** [lammps_log_to_U_latt] *)

(** [str.isspace] on an ASCII character: tab, line feed, vertical tab,
    form feed, carriage return, the four separators 28-31 and the space. *)
Definition isspace (c : ascii) : bool :=
  let n := nat_of_ascii c in
  ((9 <=? n) && (n <=? 13)) || ((28 <=? n) && (n <=? 32)).

(** [s.split()]: the maximal runs of characters that are not whitespace. *)
Fixpoint split_from (s word : string) : list string :=
  match s with
  | EmptyString =>
      match word with EmptyString => [] | _ => [word] end
  | String c s' =>
      if isspace c then
        match word with
        | EmptyString => split_from s' EmptyString
        | _ => word :: split_from s' EmptyString
        end
      else split_from s' (word ++ String c EmptyString)
  end.

Definition split (s : string) : list string := split_from s EmptyString.

(** [line[:9] == 'Loop time']. *)
Definition starts_loop_time (line : string) : bool :=
  String.eqb (substring 0 9 line) "Loop time".

(** [[i-1 for i in range(len(lines)) if lines[i][:9]=='Loop time']],
    with [i] the index of the head of [lines]. *)
Fixpoint steps_before_loop_time (lines : list string) (i : Z) : list Z :=
  match lines with
  | [] => []
  | line :: lines' =>
      if starts_loop_time line
      then (i - 1)%Z :: steps_before_loop_time lines' (i + 1)
      else steps_before_loop_time lines' (i + 1)
  end.

Section Parsing.

(** Python's [float(s)] on a string, which raises [ValueError] on a string
    that is no float literal. *)
Variable float : string -> result num.

Definition lammps_log_to_U_latt (lines : list string) : result num :=
  last_step <- getitem (steps_before_loop_time lines 0) 0 ;;
  line <- getitem lines last_step ;;
  field <- getitem (split line) 1 ;;
  float field.

End Parsing.

(** A fragment of [float]: an optional sign, digits, and an optional point
    followed by digits, at least one digit in all. *)
Definition digit (c : ascii) : option Z :=
  let n := nat_of_ascii c in
  if (48 <=? n) && (n <=? 57) then Some (Z.of_nat (n - 48)) else None.

(** Reads digits into the mantissa [m]; [scale] counts the digits read after
    the point, once [after_point] is set; [seen] records that a digit came. *)
Fixpoint decimal_from (s : string) (m : Z) (scale : nat)
         (after_point seen : bool) : option (Z * nat) :=
  match s with
  | EmptyString => if seen then Some (m, scale) else None
  | String c s' =>
      match digit c with
      | Some d =>
          decimal_from s' (10 * m + d)%Z
            (if after_point then S scale else scale) after_point true
      | None =>
          if Ascii.eqb c "."%char && negb after_point
          then decimal_from s' m scale true seen
          else None
      end
  end.

Definition decimal_value (negative : bool) (mk : Z * nat) : num :=
  let v := (IZR (fst mk) / IZR (10 ^ Z.of_nat (snd mk)))%R in
  Fin (if negative then (- v)%R else v).

(** [s.strip()]: [float] ignores whitespace around the literal. *)
Fixpoint lstrip (s : string) : string :=
  match s with
  | String c s' => if isspace c then lstrip s' else s
  | EmptyString => EmptyString
  end.

Fixpoint rstrip (s : string) : string :=
  match s with
  | String c s' =>
      match rstrip s' with
      | EmptyString => if isspace c then EmptyString else String c EmptyString
      | r => String c r
      end
  | EmptyString => EmptyString
  end.

Definition strip (s : string) : string := rstrip (lstrip s).

(** The sign, the mantissa and the number of digits after the point. *)
Definition read_decimal (s : string) : option (bool * (Z * nat)) :=
  let (negative, body) :=
    match strip s with
    | String "-"%char s' => (true, s')
    | String "+"%char s' => (false, s')
    | s' => (false, s')
    end in
  option_map (pair negative) (decimal_from body 0 0 false false).

Definition float_decimal (s : string) : result num :=
  match read_decimal s with
  | Some (negative, mk) => Ok (decimal_value negative mk)
  | None => Raise ValueError
  end.

(* ================================================================== *)
(** ** Physical constants *)

Definition hb_J : R := 1.0545718e-34.
Definition kb_J : R := 1.38064852 * / 10 ^ 23.
Definition kb_ev : R := 8.6173303 * / 10 ^ 5.
Definition ev2J : R := 1.60217662 * / 10 ^ 19.
Definition J2ev : R := 1 / ev2J.
Definition cm2hz : R := 0.02998 * 10 ^ 12.
Definition atomic2s : R := 2.418 * / 10 ^ 17.

(* ================================================================== *)
(** ** Harmonic free energy *)

(** [beta = 1/(T_*kb_J)]. *)
Definition beta_of (T_ : num) : num := ndiv (Fin 1) (nmul T_ (Fin kb_J)).

(** [hb_J*omega/2 + (beta**-1)*np.log(1-np.exp(-hb_J*omega*beta))],
    at one element of [omega]. *)
Definition quantum_mode (beta omega : num) : num :=
  nadd (ndiv (nmul (Fin hb_J) omega) (Fin 2))
       (nmul (npow_m1 beta)
             (nlog (nsub (Fin 1)
                         (nexp (nmul (nmul (Fin (- hb_J)) omega) beta))))).

(** [np.log(beta*hb_J*omega)/beta], at one element of [omega]. *)
Definition classical_mode (beta omega : num) : num :=
  ndiv (nlog (nmul (nmul beta (Fin hb_J)) omega)) beta.

(** [np.asanyarray(F)*J2ev/nmols + U_latt]. *)
Definition to_eV_per_mol (F : list num) (nmols U_latt : num) : list num :=
  map (fun v => nadd (ndiv (nmul v (Fin J2ev)) nmols) U_latt) F.

Section Evaluators.

Variable float : string -> result num.

Definition ipi_harmonic_free_energy (lines : list string)
           (T : list num) (nmols U_latt : num)
  : result (list num * list num) :=
  let lines := from 1 lines in
  values <- mapM float lines ;;
  let omega_kw := from 3 values in
  let omega_kw_abs := map nabs omega_kw in
  let omega := map npow_half omega_kw_abs in
  let freq := map (fun w => ndiv w (Fin (2 * PI))) omega in
  let freq := map (fun f => ndiv f (Fin atomic2s)) freq in
  let omega := map (fun f => nmul (nmul f (Fin 2)) (Fin PI)) freq in
  let Fq := map (fun T_ => np.sum (map (quantum_mode (beta_of T_)) omega)) T in
  let Fc := map (fun T_ => np.sum (map (classical_mode (beta_of T_)) omega)) T in
  Ok (to_eV_per_mol Fq nmols U_latt, to_eV_per_mol Fc nmols U_latt).

(** [np.array(rows, float)] for a table: rows of unequal length raise
    [ValueError], as does a field that is no float. *)
Definition table (rows : list (list string)) : result (list (list num)) :=
  match rows with
  | [] => Ok []
  | r :: _ =>
      if forallb (fun r' => Nat.eqb (length r') (length r)) rows
      then mapM (mapM float) rows
      else Raise ValueError
  end.

(** [data[:,k]], which needs a two-dimensional array with more than [k]
    columns. *)
Definition column (data : list (list num)) (k : Z) : result (list num) :=
  match data with
  | [] => Raise IndexError
  | _ => mapM (fun row => getitem row k) data
  end.

Definition phonopy_harmonic_free_energy (lines : list string)
           (T : list num) (nmols U_latt : num)
  : result (list num * list num) :=
  let lines := from 3 lines in
  data <- table (map split lines) ;;
  col0 <- column data 0 ;;
  let f := map (fun v => nmul v (Fin cm2hz)) col0 in
  let omega := map (fun f => nmul (nmul f (Fin 2)) (Fin PI)) f in
  dos <- column data 1 ;;
  let Fq := map (fun T_ =>
    np.sum (np.zip_with nmul dos (map (quantum_mode (beta_of T_)) omega))) T in
  let Fc := map (fun T_ =>
    np.sum (np.zip_with nmul dos (map (classical_mode (beta_of T_)) omega))) T in
  Ok (to_eV_per_mol Fq nmols U_latt, to_eV_per_mol Fc nmols U_latt).

End Evaluators.

(* ================================================================== *)
(** ** The coupling-parameter pipeline *)

(** The columns [data[cut:, 1]], [data[cut:, 7]] and [data[cut:, 8]] that
    [ipi_to_two_potentials] reads from one [simulation.out].  The reading
    itself (the search for the last [#] line, [np.array] and the slices,
    which raise [IndexError] on a file without header or without data row)
    is outside the embedding: the definitions below start from the columns
    once read, and say nothing about a file that cannot be read. *)
Record potentials : Type := {
  time : list num;
  pot_1 : list num;
  pot_2 : list num;
}.

Definition ipi_to_two_potentials (d : potentials)
  : result (list num * list num * list num * num * num) :=
  pot_1_er <- _error_from_u (pot_1 d) ;;
  pot_2_er <- _error_from_u (pot_2 d) ;;
  Ok (time d, pot_1 d, pot_2 d, pot_1_er, pot_2_er).

Definition is_nan (a : num) : bool :=
  match a with NaN => true | _ => false end.

(** The order numpy sorts doubles by: [a < b], with every [nan] after all
    the other values. *)
Definition sorts_before (a b : num) : bool :=
  nltb a b || (is_nan b && negb (is_nan a)).

Arguments sorts_before !a !b /.

(** [np.argsort]: the indices in the order of their values, ascending,
    [nan] last; indices of equal values keep their order. *)
Fixpoint insert_index (a : list num) (i : nat) (sorted : list nat) : list nat :=
  match sorted with
  | [] => [i]
  | j :: sorted' =>
      if sorts_before (nth i a NaN) (nth j a NaN) then i :: j :: sorted'
      else j :: insert_index a i sorted'
  end.

Definition sorted_indices (a : list num) : list nat :=
  fold_left (fun sorted i => insert_index a i sorted) (seq 0 (length a)) [].

Definition argsort (a : list num) : list Z := map Z.of_nat (sorted_indices a).

(** One iteration of the loop over the subfolders: the values appended to
    [ff_dft_du_err], [ff_dft_du] and [_lambda].  A subfolder is given by
    [float(subf)] and the columns of its [simulation.out]. *)
Definition ff_2_dft_step (nmols : num) (subf : num * potentials)
  : result (num * num * num) :=
  r <- ipi_to_two_potentials (snd subf) ;;
  let '(_, pot_1, pot_2, pot_1_er, pot_2_er) := r in
  d <- np.broadcast nsub pot_2 pot_1 ;;
  Ok (ndiv (nadd pot_1_er pot_2_er) (Fin 2),
      ndiv (np.mean d) nmols,
      fst subf).

Definition integrated_ff_2_dft (ff_dft_subf : list (num * potentials))
           (nmols : num) : result (list num * list num * list num) :=
  rows <- mapM (ff_2_dft_step nmols) ff_dft_subf ;;
  let ff_dft_du_err := map (fun r => fst (fst r)) rows in
  let ff_dft_du := map (fun r => snd (fst r)) rows in
  let _lambda := map snd rows in
  let idx := argsort _lambda in
  _lambda <- np.take _lambda idx ;;
  ff_dft_du <- np.take ff_dft_du idx ;;
  ff_dft_du_err <- np.take ff_dft_du_err idx ;;
  g <- np.gradient _lambda ;;
  let lambda_av := np.mean g in
  r1 <- intgrt _lambda (map (fun v => ndiv v lambda_av) ff_dft_du) ;;
  r2 <- intgrt _lambda (map (fun v => ndiv v lambda_av) ff_dft_du_err) ;;
  Ok (fst r1, fst r2, snd r1).

(** The three coupling attributes of [fe_sample], set by the last
    statements of [__init__]. *)
Record fe_sample : Type := {
  F_ff_dft : num;
  F_ff_dft_err_md : num;
  F_ff_dft_err_int : num;
}.

Definition fe_sample_init (ff_dft_subf : list (num * potentials))
           (ff_dft_nmols : num) : result fe_sample :=
  r <- integrated_ff_2_dft ff_dft_subf ff_dft_nmols ;;
  let '(F, err_md, err_int) := r in
  a <- getitem F (-1) ;;
  b <- getitem err_md (-1) ;;
  c <- getitem err_int (-1) ;;
  Ok {| F_ff_dft := a;
        F_ff_dft_err_md := nabs b;
        F_ff_dft_err_int := nabs c |}.

(* ================================================================== *)
(** ** The anharmonic pipeline *)

(** [harmonic_potential_energy(T, N)]: [J2ev*(3*N-3)*kb_J*T/2] on an array
    [T] and an integer [N]. *)
Definition harmonic_potential_energy (T : list num) (N : Z) : list num :=
  map (fun t =>
         ndiv (nmul (nmul (nmul (Fin J2ev) (of_Z (3 * N - 3))) (Fin kb_J)) t)
              (Fin 2))
      T.

(** [anharmonic_energy(U_md, U_harm, U_latt)]: [U_md - U_harm - U_latt] on
    two arrays and a scalar. *)
Definition anharmonic_energy (U_md U_harm : list num) (U_latt : num)
  : result (list num) :=
  d <- np.broadcast nsub U_md U_harm ;;
  Ok (map (fun v => nsub v U_latt) d).

(** [integrated_anharmonic_energy(T, U_anharm, U_err)]. *)
Definition integrated_anharmonic_energy (T U_anharm U_err : list num)
  : result (list num * list num * list num) :=
  T0 <- getitem T 0 ;;
  let x := map (fun t => nlog (ndiv t T0)) T in
  q <- np.broadcast ndiv U_anharm (map nexp x) ;;
  let y := map (fun v => ndiv (ndiv v T0) (Fin kb_ev)) q in
  q_err <- np.broadcast ndiv U_err (map nexp x) ;;
  let y_err := map (fun v => ndiv (ndiv v T0) (Fin kb_ev)) q_err in
  integral <- intgrt x y ;;
  int_err <- intgrt x y_err ;;
  Ok (fst integral, snd integral, fst int_err).

(** The attributes that [fe_sample.__init__] sets between the harmonic
    evaluators and the coupling pipeline. *)
Record anharmonic : Type := {
  u_harm : list num;
  u_anharm : list num;
  anharm_integral : list num;
  anharm_integral_err : list num;
  anharm_integral_md_err : list num;
  f_harm_part : list num;
  f_class_nucl : list num;
  F_anh_c : list num;
  F_anh_q : list num;
  F_err_int_ti : list num;
  F_err_md : list num;
  F_anh_err : list num;
}.

(** Those statements of [__init__], given the attributes set before them:
    [U_latt], [Tf], [u_md], [u_md_err], [F_harm_q_ipi], [F_harm_c_ipi], and
    the two constructor arguments [u_harm_natoms] and [u_harm_nmols]. *)
Definition fe_sample_anharmonic (U_latt : num) (Tf u_md u_md_err : list num)
           (F_harm_q_ipi F_harm_c_ipi : list num)
           (u_harm_natoms : Z) (u_harm_nmols : num) : result anharmonic :=
  let potential_energy := harmonic_potential_energy Tf u_harm_natoms in
  let u_harm_ := map (fun v => ndiv v u_harm_nmols) potential_energy in
  u_anharm_ <- anharmonic_energy u_md u_harm_ U_latt ;;
  r <- integrated_anharmonic_energy Tf u_anharm_ u_md_err ;;
  let '(integral, integral_err, integral_md_err) := r in
  Fc0 <- getitem F_harm_c_ipi 0 ;;
  Tf0 <- getitem Tf 0 ;;
  let f_harm_part_ :=
    map (fun t => ndiv (nmul (nsub Fc0 U_latt) t) Tf0) Tf in
  let f_class_nucl_ :=
    map (fun t =>
           ndiv (nmul (nmul (nmul (Fin kb_ev) t) (of_Z (3 * u_harm_natoms - 3)))
                      (nlog (ndiv t Tf0)))
                u_harm_nmols)
        Tf in
  a <- np.broadcast nsub (map (fun v => nadd U_latt v) f_harm_part_)
                    f_class_nucl_ ;;
  b <- np.broadcast nmul (map (fun v => nmul v (Fin kb_ev)) integral) Tf ;;
  F_anh_c_ <- np.broadcast nsub a b ;;
  s <- np.broadcast nadd F_anh_c_ F_harm_q_ipi ;;
  F_anh_q_ <- np.broadcast nsub s F_harm_c_ipi ;;
  e1 <- np.broadcast nmul Tf integral_err ;;
  let F_err_int_ti_ := map (fun v => nmul v (Fin kb_ev)) e1 in
  e2 <- np.broadcast nmul Tf integral_md_err ;;
  let F_err_md_ := map (fun v => nmul v (Fin kb_ev)) e2 in
  F_anh_err_ <- np.broadcast nadd (map nabs F_err_md_) (map nabs F_err_int_ti_) ;;
  Ok {| u_harm := u_harm_;
        u_anharm := u_anharm_;
        anharm_integral := integral;
        anharm_integral_err := integral_err;
        anharm_integral_md_err := integral_md_err;
        f_harm_part := f_harm_part_;
        f_class_nucl := f_class_nucl_;
        F_anh_c := F_anh_c_;
        F_anh_q := F_anh_q_;
        F_err_int_ti := F_err_int_ti_;
        F_err_md := F_err_md_;
        F_anh_err := F_anh_err_ |}.

(* ================================================================== *)
(** ** [ipi_md_potential] *)

(** One subfolder of the MD runs: the integer its name reads as, and the
    columns [data_matrix[:,3]] and [data_matrix[:,5]] of its
    [simulation.out], after the header and the excluded steps.  The
    reading itself (the header lines and their [split('-->')[1]],
    [np.array] and the slice [[bexclude:,:]], which raise [IndexError] on a
    malformed header or a file without data row) is outside the embedding:
    the definitions below start from the columns once read, and say
    nothing about a file that cannot be read. *)
Record md_run : Type := {
  label : Z;
  temperature : list num;
  potential : list num;
}.

(** One iteration of the loop over the sorted subfolders: the values
    appended to [T], [U] and [err]. *)
Definition md_step (r : md_run) : result (num * num * num) :=
  let T_ := np.mean (temperature r) in
  let U_ := np.mean (potential r) in
  e <- _error_from_u (potential r) ;;
  Ok (T_, U_, e).

Definition ipi_md_potential (runs : list md_run) (nmols : num)
  : result (list num * list num * list num * list num) :=
  let sub := map (fun r => of_Z (label r)) runs in
  let idx := argsort sub in
  subfolders <- mapM (getitem runs) idx ;;
  rows <- mapM md_step subfolders ;;
  Ok (map (fun r => fst (fst r)) rows,
      map (fun r => of_Z (label r)) subfolders,
      map (fun r => ndiv (snd (fst r)) nmols) rows,
      map (fun r => ndiv (snd r) nmols) rows).

(* ================================================================== *)
(** ** Specification-side definitions *)

(** The sum of the first [k] values of [f], added from the left. *)
Fixpoint sum_upto (f : nat -> num) (k : nat) : num :=
  match k with
  | 0 => Fin 0
  | S k' => nadd (sum_upto f k') (f k')
  end.

(** The area of the trapezoid between abscissas [j] and [j+1]. *)
Definition trapezoid_term (x y : list num) (j : nat) : num :=
  ndiv (nmul (nsub (nth (j + 1) x NaN) (nth j x NaN))
             (nadd (nth (j + 1) y NaN) (nth j y NaN)))
       (Fin 2).

(** The trapezoid-rule integral of [y] over [x[0..k]]. *)
Definition trapezoid_rule (x y : list num) (k : nat) : num :=
  sum_upto (trapezoid_term x y) k.

(** [(x[n-1] - x[0])^2 / (12 n^2)], with [n] the length of the whole of [x]. *)
Definition error_factor (x : list num) : num :=
  let n := length x in
  ndiv (nsqr (nsub (nth (n - 1) x NaN) (nth 0 x NaN)))
       (of_Z (12 * Z.of_nat n ^ 2)).

Definition x_sample : list num := [Fin 0; Fin 1; Fin 3].
Definition y_sample : list num := [Fin 2; Fin 4; Fin 4].

(** Evaluation of a closed [num] expression: unfold the program, then settle
    each comparison of real constants. *)
Ltac settle_reals :=
  match goal with
  | |- context [Req_dec_T ?a ?b] =>
      destruct (Req_dec_T a b); [try (exfalso; lra)|try (exfalso; lra)]
  | |- context [Rlt_dec ?a ?b] =>
      destruct (Rlt_dec a b); [try (exfalso; lra)|try (exfalso; lra)]
  end.

Ltac settle_positives :=
  match goal with
  | |- context [Pos.to_nat ?p] =>
      let n := eval compute in (Pos.to_nat p) in
      change (Pos.to_nat p) with n
  end.

Ltac num_compute :=
  repeat (cbn -[Rplus Rminus Rmult Rdiv Ropp Rinv IZR Req_dec_T Rlt_dec
                sqrt exp ln Rabs];
          try settle_reals; try settle_positives).

(** Equality of evaluated results, component by component. *)
Ltac num_eq :=
  repeat match goal with
    | |- Fin _ = Fin _ =>
        apply f_equal;
        repeat match goal with
          | |- context [Rabs ?r] =>
              first [rewrite (Rabs_right r) by lra
                    |rewrite (Rabs_left r) by lra]
          end;
        lra
    | |- Ok _ = Ok _ => apply f_equal
    | |- (_, _) = (_, _) => apply f_equal2
    | |- _ :: _ = _ :: _ => apply f_equal2
    | |- _ => reflexivity
    end.

Definition strictly_increasing (xs : list R) : Prop :=
  forall j, j + 1 < length xs -> (nth j xs 0 < nth (j + 1) xs 0)%R.

Definition strictly_decreasing (xs : list R) : Prop :=
  forall j, j + 1 < length xs -> (nth (j + 1) xs 0 < nth j xs 0)%R.

Definition strictly_monotonic (xs : list R) : Prop :=
  strictly_increasing xs \/ strictly_decreasing xs.

(** The ordinates [a * x + b] over the abscissas [xs]. *)
Definition linear (a b : R) (xs : list R) : list num :=
  map (fun v => Fin (a * v + b)) xs.

(** Abscissas with the same step [h] between neighbours. *)
Definition uniform_step (h : R) (xs : list R) : Prop :=
  forall j, j + 1 < length xs -> (nth (j + 1) xs 0 - nth j xs 0 = h)%R.

(** The lag-[i] autocovariance of [ug]: the sum of [ug[t] * ug[t+i]] over
    the indices [t] for which both factors exist. *)
Definition autocovariance (ug : list num) (i : nat) : num :=
  sum_upto (fun t => nmul (nth t ug NaN) (nth (t + i) ug NaN)) (length ug - i).

(** The decay cutoff of a gradient [ug], as the specification words it:
    the autocovariances at the lags 0 to 999, divided by the one at lag 0,
    each multiplied by its own sign; the number of those above 0.1. *)
Definition cutoff_of (ug : list num) : Z :=
  let c := map (autocovariance ug) (seq 0 1000) in
  let c := map (fun v => ndiv v (autocovariance ug 0)) c in
  let c := map (fun v => nmul v (nsign v)) c in
  Z.of_nat (length (filter (fun v => ngtb v (Fin 0.1)) c)).

(** The line feed that ends a line read by [readlines()]. *)
Definition newline : string := String (ascii_of_nat 10) EmptyString.

(** A log whose step line carries the lattice energy, and one whose step
    line has a single field. *)
Definition log_sample : list string :=
  [("Step PotEng Press" ++ newline)%string;
   ("0 -12.34 0.5" ++ newline)%string;
   ("Loop time of 3.2 on 4 procs" ++ newline)%string].

Definition log_short_line : list string :=
  [("0" ++ newline)%string;
   ("Loop time of 3.2 on 4 procs" ++ newline)%string].

(** [kT] at the temperature [T_]. *)
Definition kT (T_ : num) : num := nmul (Fin kb_J) T_.

(** The quantum free energy of one mode:
    [hbar*omega/2 + kT * ln(1 - exp(-hbar*omega/kT))]. *)
Definition quantum_term (T_ omega : num) : num :=
  let hw := nmul (Fin hb_J) omega in
  nadd (ndiv hw (Fin 2))
       (nmul (kT T_) (nlog (nsub (Fin 1) (nexp (nneg (ndiv hw (kT T_))))))).

(** The classical free energy of one mode: [kT * ln(hbar*omega/kT)]. *)
Definition classical_term (T_ omega : num) : num :=
  nmul (kT T_) (nlog (ndiv (nmul (Fin hb_J) omega) (kT T_))).

(** The sum over the modes [(omega, weight)] of [weight * term], converted
    to eV, divided by the molecule count and offset by the lattice energy. *)
Definition free_energy (term : num -> num -> num) (modes : list (num * num))
           (T_ nmols U_latt : num) : num :=
  nadd (ndiv (nmul (np.sum (map (fun m => nmul (snd m) (term T_ (fst m))) modes))
                   (Fin J2ev))
             nmols)
       U_latt.

(** The angular frequency of an eigenvalue of the ipi file: the square root
    of its magnitude, from atomic time units to seconds. *)
Definition ipi_omega (eigenvalue : num) : num :=
  ndiv (nsqrt (nabs eigenvalue)) (Fin atomic2s).

(** The angular frequency of a phonopy wavenumber: [2 pi] times the
    frequency in Hz. *)
Definition phonopy_omega (wavenumber : num) : num :=
  nmul (Fin (2 * PI)) (nmul wavenumber (Fin cm2hz)).

(** Uniform weight for the ipi modes, the DOS column for the phonopy ones. *)
Definition ipi_modes (eigenvalues : list num) : list (num * num) :=
  map (fun e => (ipi_omega e, Fin 1)) eigenvalues.

Definition phonopy_modes (wavenumbers dos : list num) : list (num * num) :=
  combine (map phonopy_omega wavenumbers) dos.

(** An ipi eigenvalue file (a header, three skipped values, one mode) and a
    phonopy table (three header lines, one row), with the values
    [float_decimal] reads from them. *)
Definition ipi_file : list string :=
  [("# eigenvalues" ++ newline)%string;
   ("0" ++ newline)%string; ("0" ++ newline)%string; ("0" ++ newline)%string;
   ("4" ++ newline)%string].

Definition ipi_values : list num :=
  [decimal_value false (0%Z, 0); decimal_value false (0%Z, 0);
   decimal_value false (0%Z, 0); decimal_value false (4%Z, 0)].

Definition phonopy_file : list string :=
  [("# mesh" ++ newline)%string; ("# sigma" ++ newline)%string;
   ("# frequency dos" ++ newline)%string;
   ("100 0.5" ++ newline)%string].

Definition phonopy_data : list (list num) :=
  [[decimal_value false (100%Z, 0); decimal_value false (5%Z, 1)]].

(** No element is above its successor. *)
Definition ascending (l : list num) : Prop :=
  forall j, j + 1 < length l -> ngtb (nth j l NaN) (nth (j + 1) l NaN) = false.

(** [i] may stand before [j]: the value at [i] is not above the one at [j]. *)
Definition not_above (a : list num) (i j : nat) : Prop :=
  ngtb (nth i a NaN) (nth j a NaN) = false.

(** Three runs, given out of order: lambda 1, 0 and 2, with constant
    potentials whose differences are 1, 0 and 1. *)
Definition constant_run (a b : R) : potentials :=
  {| time := [Fin 0; Fin 1];
     pot_1 := [Fin a; Fin a];
     pot_2 := [Fin b; Fin b] |}.

Definition coupling_sample : list (num * potentials) :=
  [(Fin 1, constant_run 0 1); (Fin 0, constant_run 0 0);
   (Fin 2, constant_run 0 1)].

(** What the loop over [coupling_sample] appends for one molecule: zero
    errors, the energy differences, and the lambdas. *)
Definition coupling_sample_rows : list (num * num * num) :=
  [(Fin ((0 + 0) / 2), Fin ((0 + (1 - 0) + (1 - 0)) / 2 / 1), Fin 1);
   (Fin ((0 + 0) / 2), Fin ((0 + (0 - 0) + (0 - 0)) / 2 / 1), Fin 0);
   (Fin ((0 + 0) / 2), Fin ((0 + (1 - 0) + (1 - 0)) / 2 / 1), Fin 2)].

(** Real-number readings of the sums above, for inputs without special
    values. *)
Fixpoint Rsum_upto (f : nat -> R) (k : nat) : R :=
  match k with
  | 0 => 0%R
  | S k' => (Rsum_upto f k' + f k')%R
  end.

Definition Rtrapezoid (xs ys : list R) (k : nat) : R :=
  Rsum_upto (fun j => ((nth (j + 1) xs 0 - nth j xs 0)
                       * (nth (j + 1) ys 0 + nth j ys 0) / 2)%R) k.

Definition Rgradient_at (f : list R) (i : nat) : R :=
  let n := length f in
  if Nat.eqb i 0 then (nth 1 f 0 - nth 0 f 0)%R
  else if Nat.eqb i (n - 1) then (nth (n - 1) f 0 - nth (n - 2) f 0)%R
  else ((nth (i + 1) f 0 - nth (i - 1) f 0) / 2)%R.

Definition Rerror_factor (xs : list R) : R :=
  let n := length xs in
  ((nth (n - 1) xs 0 - nth 0 xs 0) * (nth (n - 1) xs 0 - nth 0 xs 0)
   / IZR (12 * Z.of_nat n ^ 2))%R.

(** Real-number readings of [np.sum], [np.mean] and [np.std]. *)
Definition Rsum (rs : list R) : R :=
  Rsum_upto (fun j => nth j rs 0%R) (length rs).

Definition Rmean (rs : list R) : R :=
  (Rsum rs / IZR (Z.of_nat (length rs)))%R.

Definition Rstd (rs : list R) : R :=
  sqrt (Rmean (map (fun v => (Rabs (v - Rmean rs) * Rabs (v - Rmean rs))%R) rs)).

(** All the elements of the series are the same. *)
Definition constant (us : list R) : Prop :=
  forall i j, i < length us -> j < length us -> nth i us 0%R = nth j us 0%R.

(** A phonopy table whose only row has a negative wavenumber, an ipi file
    whose mode has a negative eigenvalue, and an ipi file that stops after
    the three skipped values. *)
Definition phonopy_file_negative : list string :=
  [("# mesh" ++ newline)%string; ("# sigma" ++ newline)%string;
   ("# frequency dos" ++ newline)%string;
   ("-50 0.2" ++ newline)%string].

Definition phonopy_data_negative : list (list num) :=
  [[decimal_value true (50%Z, 0); decimal_value false (2%Z, 1)]].

Definition ipi_file_negative : list string :=
  [("# eigenvalues" ++ newline)%string;
   ("0" ++ newline)%string; ("0" ++ newline)%string; ("0" ++ newline)%string;
   ("-4" ++ newline)%string].

Definition ipi_values_negative : list num :=
  [decimal_value false (0%Z, 0); decimal_value false (0%Z, 0);
   decimal_value false (0%Z, 0); decimal_value true (4%Z, 0)].

Definition ipi_file_no_modes : list string :=
  [("# eigenvalues" ++ newline)%string;
   ("0" ++ newline)%string; ("0" ++ newline)%string; ("0" ++ newline)%string].

(** [U / (kb_ev * T)], index by index. *)
Definition per_kT (Us Ts : list R) : list R :=
  map (fun j => (nth j Us 0 / (kb_ev * nth j Ts 0))%R) (seq 0 (length Ts)).

(** One step through a hypothesis [x <- c ;; k = Ok _]: [c] returned a
    value, named [v]. *)
Ltac bind_step H v E :=
  match type of H with
  | bind ?c _ = Ok _ =>
      destruct c as [v|] eqn:E; [cbn [bind] in H|discriminate H]
  end.

(** The elements of [l] in the order of [np.argsort] of their keys. *)
Definition sort_by {A} (key : A -> num) (d : A) (l : list A) : list A :=
  map (fun i => nth i l d) (sorted_indices (map key l)).

(** The real number a finite value stands for. *)
Definition val (a : num) : R :=
  match a with Fin r => r | _ => 0%R end.

Definition no_run : md_run :=
  {| label := 0; temperature := []; potential := [] |}.

(** The inputs of the anharmonic attributes for two temperatures. *)
Definition anharmonic_sample : result anharmonic :=
  fe_sample_anharmonic (Fin 0) [Fin 100; Fin 200] [Fin 1; Fin 2]
    [Fin 0; Fin 0] [Fin 3; Fin 4] [Fin 5; Fin 6] 2 (Fin 1).

(** Two runs, listed with the larger label first; each has a constant
    potential. *)
Definition md_sample : list md_run :=
  [ {| label := 200; temperature := [Fin 201; Fin 199];
       potential := [Fin 2; Fin 2] |};
    {| label := 100; temperature := [Fin 99; Fin 101];
       potential := [Fin 1; Fin 1] |} ].


(* ================================================================== *)
(** * Proofs *)

(* ================================================================== *)
(** ** Evaluation lemmas for [num] *)

Lemma Rsgn_pos (r : R) : (0 < r)%R -> Rsgn r = Gt.
Proof.
  intros H. unfold Rsgn.
  destruct (Rlt_dec r 0); [lra|]. destruct (Rlt_dec 0 r); [reflexivity|lra].
Qed.

Lemma Rsgn_neg (r : R) : (r < 0)%R -> Rsgn r = Lt.
Proof. intros H. unfold Rsgn. destruct (Rlt_dec r 0); [reflexivity|lra]. Qed.

Lemma Rsgn_zero : Rsgn 0 = Eq.
Proof.
  unfold Rsgn. destruct (Rlt_dec 0 0); [lra|]. reflexivity.
Qed.

Lemma ndiv_fin (x y : R) : y <> 0%R -> ndiv (Fin x) (Fin y) = Fin (x / y).
Proof. intros H. simpl. destruct (Req_dec_T y 0); [contradiction|reflexivity]. Qed.

Lemma ndiv_zero_zero : ndiv (Fin 0) (Fin 0) = NaN.
Proof.
  simpl. destruct (Req_dec_T 0 0) as [_|H]; [|contradiction H; reflexivity].
  rewrite Rsgn_zero. reflexivity.
Qed.

Lemma ndiv_pos_zero (x : R) : (0 < x)%R -> ndiv (Fin x) (Fin 0) = PInf.
Proof.
  intros H. simpl. destruct (Req_dec_T 0 0) as [_|H0]; [|contradiction H0; reflexivity].
  rewrite Rsgn_pos by assumption. reflexivity.
Qed.

Lemma ngtb_fin_true (x y : R) : (y < x)%R -> ngtb (Fin x) (Fin y) = true.
Proof. intros H. simpl. destruct (Rlt_dec y x); [reflexivity|contradiction]. Qed.

Lemma ngtb_fin_false (x y : R) : (x <= y)%R -> ngtb (Fin x) (Fin y) = false.
Proof. intros H. simpl. destruct (Rlt_dec y x); [lra|reflexivity]. Qed.

Lemma nsqrt_fin (r : R) : (0 <= r)%R -> nsqrt (Fin r) = Fin (sqrt r).
Proof. intros H. simpl. destruct (Rlt_dec r 0); [lra|reflexivity]. Qed.

Lemma Fin_inj (a b : R) : Fin a = Fin b -> a = b.
Proof. intros H. injection H. trivial. Qed.

(* ================================================================== *)
(** ** Lists, indices and sums *)

Lemma zip_with_length f a b :
  length (np.zip_with f a b) = Nat.min (length a) (length b).
Proof.
  revert b. induction a as [|x a IH]; intros [|y b]; simpl; auto.
Qed.

Lemma zip_with_nth f a b j :
  j < length a -> j < length b ->
  nth j (np.zip_with f a b) NaN = f (nth j a NaN) (nth j b NaN).
Proof.
  revert b j. induction a as [|x a IH]; intros [|y b] [|j]; simpl; intros; try lia; auto.
  apply IH; lia.
Qed.

Lemma nth_butlast (l : list num) j :
  j < length l - 1 -> nth j (butlast l) NaN = nth j l NaN.
Proof.
  revert j. induction l as [|a l IH]; intros j H; simpl in *; [lia|].
  destruct l as [|b l]; [simpl in H; lia|].
  destruct j as [|j]; [reflexivity|].
  change (nth j (butlast (b :: l)) NaN = nth j (b :: l) NaN).
  apply IH. simpl in *. lia.
Qed.

Lemma butlast_length (l : list num) : length (butlast l) = length l - 1.
Proof.
  unfold butlast. destruct l as [|a l]; [reflexivity|].
  rewrite removelast_firstn_len, length_firstn. simpl. lia.
Qed.

Lemma nth_from (l : list num) n j : nth j (from n l) NaN = nth (n + j) l NaN.
Proof. unfold from. apply nth_skipn. Qed.

Lemma nth_upto (l : list num) n j : j < n -> nth j (upto n l) NaN = nth j l NaN.
Proof.
  intros H. unfold upto. rewrite nth_firstn.
  destruct (Nat.ltb_spec j n); [reflexivity|lia].
Qed.

Lemma upto_length (l : list num) n : n <= length l -> length (upto n l) = n.
Proof. intros H. unfold upto. rewrite length_firstn. lia. Qed.

Lemma diff_length (a : list num) : length (np.diff a) = length a - 1.
Proof.
  unfold np.diff, from. rewrite zip_with_length, length_skipn, butlast_length. lia.
Qed.

Lemma diff_nth (a : list num) j :
  j + 1 < length a ->
  nth j (np.diff a) NaN = nsub (nth (j + 1) a NaN) (nth j a NaN).
Proof.
  intros H. unfold np.diff.
  rewrite zip_with_nth.
  - rewrite nth_from, nth_butlast by lia. f_equal. f_equal. lia.
  - unfold from. rewrite length_skipn. lia.
  - rewrite butlast_length. lia.
Qed.

Lemma sum_snoc (l : list num) (a : num) : np.sum (l ++ [a]) = nadd (np.sum l) a.
Proof. unfold np.sum. rewrite fold_left_app. reflexivity. Qed.

Lemma sum_upto_ext f g k :
  (forall j, j < k -> f j = g j) -> sum_upto f k = sum_upto g k.
Proof.
  induction k as [|k IH]; intros H; simpl; [reflexivity|].
  rewrite IH, H by (intros; try apply H; lia). reflexivity.
Qed.

Lemma sum_nth (l : list num) : np.sum l = sum_upto (fun j => nth j l NaN) (length l).
Proof.
  induction l as [|a l IH] using rev_ind; [reflexivity|].
  rewrite sum_snoc, length_app, Nat.add_comm. simpl.
  rewrite app_nth2, Nat.sub_diag by lia. simpl. f_equal.
  rewrite IH. apply sum_upto_ext. intros j Hj. rewrite app_nth1 by lia. reflexivity.
Qed.

Lemma getitem_nth (l : list num) (j : nat) :
  j < length l -> getitem l (Z.of_nat j) = Ok (nth j l NaN).
Proof.
  intros H. unfold getitem. cbv zeta.
  destruct (Z.ltb_spec (Z.of_nat j) 0) as [Hneg|_]; [lia|].
  destruct (Z.ltb_spec (Z.of_nat j) 0) as [Hneg|_]; [lia|].
  rewrite Nat2Z.id. rewrite (nth_error_nth' l NaN H). reflexivity.
Qed.

Lemma getitem_last (l : list num) :
  0 < length l -> getitem l (-1) = Ok (nth (length l - 1) l NaN).
Proof.
  intros H. unfold getitem, len. cbv zeta.
  change (-1 <? 0)%Z with true. cbv iota.
  destruct (Z.ltb_spec (-1 + Z.of_nat (length l)) 0) as [Hneg|_]; [lia|].
  replace (Z.to_nat (-1 + Z.of_nat (length l))) with (length l - 1) by lia.
  rewrite (nth_error_nth' l NaN) by lia. reflexivity.
Qed.

Lemma getitem_first (l : list num) :
  0 < length l -> getitem l 0 = Ok (nth 0 l NaN).
Proof. intros H. apply (getitem_nth l 0 H). Qed.

Lemma gradient_ok (f : list num) :
  2 <= length f -> np.gradient f = Ok (map (np.gradient_at f) (seq 0 (length f))).
Proof.
  intros H. unfold np.gradient. destruct (Nat.ltb_spec (length f) 2); [lia|reflexivity].
Qed.

Lemma gradient_nth (f g : list num) j :
  np.gradient f = Ok g -> j < length f -> nth j g NaN = np.gradient_at f j.
Proof.
  unfold np.gradient. destruct (Nat.ltb (length f) 2); [discriminate|].
  intros [= <-] H.
  rewrite (nth_indep _ NaN (np.gradient_at f 0)) by (rewrite length_map, length_seq; lia).
  rewrite map_nth, seq_nth by lia. reflexivity.
Qed.

Lemma gradient_length (f g : list num) : np.gradient f = Ok g -> length g = length f.
Proof.
  unfold np.gradient. destruct (Nat.ltb (length f) 2); [discriminate|].
  intros [= <-]. rewrite length_map, length_seq. reflexivity.
Qed.

(* ================================================================== *)
(** ** The trapezoid rule and the error estimate, as the specification
       words them *)

Lemma trapz_prefix (x y : list num) (i : nat) :
  length x = length y -> i < length x ->
  np.trapz (upto (i + 1) y) (upto (i + 1) x) = Ok (trapezoid_rule x y i).
Proof.
  intros Hlen Hi. unfold np.trapz.
  set (d := np.diff (upto (i + 1) x)).
  set (s := np.zip_with nadd (from 1 (upto (i + 1) y)) (butlast (upto (i + 1) y))).
  assert (Hd : length d = i).
  { unfold d. rewrite diff_length, upto_length by lia. lia. }
  assert (Hs : length s = i).
  { unfold s, from. rewrite zip_with_length, length_skipn, butlast_length.
    rewrite upto_length by lia. lia. }
  unfold np.broadcast. rewrite Hd, Hs, Nat.eqb_refl. simpl.
  rewrite sum_nth, length_map, zip_with_length, Hd, Hs, Nat.min_id.
  unfold trapezoid_rule. f_equal. apply sum_upto_ext. intros j Hj.
  rewrite (nth_indep _ NaN (ndiv NaN (Fin 2)))
    by (rewrite length_map, zip_with_length; lia).
  rewrite (map_nth (fun v => ndiv v (Fin 2))).
  rewrite zip_with_nth by lia. unfold trapezoid_term. f_equal. f_equal.
  - unfold d. rewrite diff_nth by (rewrite upto_length; lia).
    rewrite !nth_upto by lia. reflexivity.
  - unfold s. rewrite zip_with_nth.
    + rewrite nth_from, nth_butlast by (rewrite upto_length; lia).
      rewrite !nth_upto by lia. f_equal. f_equal. lia.
    + unfold from. rewrite length_skipn, upto_length; lia.
    + rewrite butlast_length, upto_length; lia.
Qed.

Lemma intgrt_step_ok (x y : list num) (i : nat) :
  length x = length y -> 1 <= i < length x ->
  intgrt_step x y i =
    Ok (trapezoid_rule x y i,
        nmul (error_factor x)
             (nsub (np.gradient_at (upto (i + 1) y) i)
                   (np.gradient_at (upto (i + 1) y) 0))).
Proof.
  intros Hlen Hi. unfold intgrt_step.
  rewrite trapz_prefix by lia. cbn [bind].
  assert (Hp : length (upto (i + 1) y) = i + 1) by (apply upto_length; lia).
  rewrite gradient_ok by lia. cbn [bind].
  rewrite getitem_last by lia. cbn [bind].
  rewrite getitem_first by lia. cbn [bind].
  set (g := map _ _).
  assert (Hg : np.gradient (upto (i + 1) y) = Ok g) by (apply gradient_ok; lia).
  assert (Hgl : length g = i + 1) by (rewrite (gradient_length _ _ Hg); exact Hp).
  rewrite getitem_last by lia. cbn [bind].
  rewrite getitem_first by lia. cbn [bind].
  rewrite !(gradient_nth _ _ _ Hg) by lia.
  rewrite Hgl. replace (i + 1 - 1) with i by lia.
  unfold error_factor, len. reflexivity.
Qed.

Lemma intgrt_loop_ok (x y : list num) (fI fE : nat -> num) :
  forall rng I err,
    (forall i, In i rng -> intgrt_step x y i = Ok (fI i, fE i)) ->
    intgrt_loop x y rng I err = Ok (I ++ map fI rng, err ++ map fE rng).
Proof.
  induction rng as [|i rng IH]; intros I err H; simpl.
  - rewrite !app_nil_r. reflexivity.
  - rewrite (H i) by (left; reflexivity). cbn [bind fst snd].
    rewrite IH by (intros; apply H; right; assumption).
    rewrite <- !app_assoc. reflexivity.
Qed.

(** The two sequences [intgrt] returns on inputs of equal length. *)
Lemma intgrt_ok (x y : list num) :
  length x = length y ->
  intgrt x y =
    Ok (Fin 0 :: map (trapezoid_rule x y) (seq 1 (length x - 1)),
        Fin 0 :: map (fun i => nmul (error_factor x)
                        (nsub (np.gradient_at (upto (i + 1) y) i)
                              (np.gradient_at (upto (i + 1) y) 0)))
                     (seq 1 (length x - 1))).
Proof.
  intros Hlen. unfold intgrt.
  rewrite (intgrt_loop_ok x y (trapezoid_rule x y)
             (fun i => nmul (error_factor x)
                        (nsub (np.gradient_at (upto (i + 1) y) i)
                              (np.gradient_at (upto (i + 1) y) 0)))).
  - reflexivity.
  - intros i Hi. apply in_seq in Hi. apply intgrt_step_ok; lia.
Qed.

Lemma nth_cons_map_seq (f : nat -> num) (n k : nat) :
  1 <= k <= n -> nth k (Fin 0 :: map f (seq 1 n)) NaN = f k.
Proof.
  intros H. destruct k as [|k]; [lia|]. simpl.
  rewrite (nth_indep _ NaN (f 0)) by (rewrite length_map, length_seq; lia).
  rewrite map_nth, seq_nth by lia. reflexivity.
Qed.

(* ================================================================== *)
(** ** Claims about [intgrt] *)

(** C1.  For abscissas [x] and ordinates [y] of equal length [n >= 1],
    [intgrt] returns two sequences [I] and [err] of length [n] with
    [I[0] = 0], [err[0] = 0] and, for every [k] in [1..n-1], [I[k]] the
    trapezoid-rule integral of [y] over [x[0..k]] and
    [err[k] = ((x[n-1]-x[0])^2 / (12 n^2)) * (y'[k] - y'[0])], where [y'] is
    the numerical gradient of the prefix [y[0..k]] and [n] is the length of
    the whole input.  (Strict monotonicity of [x] is not needed.) *)
Theorem C1_intgrt_cumulative_trapezoid (x y : list num) :
  length x = length y -> 1 <= length x ->
  exists I err,
    intgrt x y = Ok (I, err) /\
    length I = length x /\ length err = length x /\
    nth 0 I NaN = Fin 0 /\ nth 0 err NaN = Fin 0 /\
    forall k, 1 <= k < length x ->
      nth k I NaN = trapezoid_rule x y k /\
      exists y', np.gradient (upto (k + 1) y) = Ok y' /\
        nth k err NaN =
          nmul (ndiv (nsqr (nsub (nth (length x - 1) x NaN) (nth 0 x NaN)))
                     (of_Z (12 * len x ^ 2)))
               (nsub (nth k y' NaN) (nth 0 y' NaN)).
Proof.
  intros Hlen Hn. eexists. eexists.
  split; [apply intgrt_ok; assumption|].
  repeat split.
  - simpl. rewrite length_map, length_seq. lia.
  - simpl. rewrite length_map, length_seq. lia.
  - rewrite nth_cons_map_seq by lia. reflexivity.
  - assert (Hp : length (upto (k + 1) y) = k + 1) by (apply upto_length; lia).
    eexists. split; [apply gradient_ok; lia|].
    rewrite nth_cons_map_seq by lia.
    set (g := map _ _).
    assert (Hg : np.gradient (upto (k + 1) y) = Ok g) by (apply gradient_ok; lia).
    rewrite !(gradient_nth _ _ _ Hg) by lia. reflexivity.
Qed.

Lemma C1_witness :
  length x_sample = length y_sample /\ 1 <= length x_sample /\
  exists I err,
    intgrt x_sample y_sample = Ok (I, err) /\
    length I = length x_sample /\ length err = length x_sample /\
    nth 0 I NaN = Fin 0 /\ nth 0 err NaN = Fin 0 /\
    forall k, 1 <= k < length x_sample ->
      nth k I NaN = trapezoid_rule x_sample y_sample k /\
      exists y', np.gradient (upto (k + 1) y_sample) = Ok y' /\
        nth k err NaN =
          nmul (ndiv (nsqr (nsub (nth (length x_sample - 1) x_sample NaN)
                                 (nth 0 x_sample NaN)))
                     (of_Z (12 * len x_sample ^ 2)))
               (nsub (nth k y' NaN) (nth 0 y' NaN)).
Proof.
  split; [reflexivity|]. split; [simpl; lia|].
  apply (C1_intgrt_cumulative_trapezoid x_sample y_sample); [reflexivity|simpl; lia].
Defined.

(** C6.  On empty input, and on one-element input, [intgrt] raises nothing
    and returns a one-element zero integral sequence and a one-element zero
    error sequence. *)
Theorem C6_intgrt_degenerate :
  intgrt [] [] = Ok ([Fin 0], [Fin 0]) /\
  forall (a : num) (y : list num), intgrt [a] y = Ok ([Fin 0], [Fin 0]).
Proof. split; [reflexivity|]. intros a y. reflexivity. Qed.

Lemma nth_map_num (g : R -> num) (xs : list R) (j : nat) :
  j < length xs -> nth j (map g xs) NaN = g (nth j xs 0%R).
Proof.
  intros H. rewrite (nth_indep _ NaN (g 0%R)) by (rewrite length_map; lia).
  apply map_nth.
Qed.

Lemma nth_linear (a b : R) (xs : list R) (j : nat) :
  j < length xs -> nth j (linear a b xs) NaN = Fin (a * nth j xs 0%R + b).
Proof. intros H. unfold linear. rewrite nth_map_num by assumption. reflexivity. Qed.

Lemma error_factor_fin (xs : list R) :
  2 <= length xs ->
  exists c, error_factor (map Fin xs) = Fin c.
Proof.
  intros H. unfold error_factor. rewrite length_map.
  rewrite !(nth_map_num Fin) by lia. simpl nsub. simpl nsqr. unfold of_Z.
  rewrite ndiv_fin; [eexists; reflexivity|].
  apply not_0_IZR. rewrite Z.pow_2_r.
  assert (0 < Z.of_nat (length xs) * Z.of_nat (length xs))%Z
    by (apply Z.mul_pos_pos; lia).
  lia.
Qed.

(** C5, counterexample.  Over the strictly increasing abscissas [0, 1, 3]
    and the linear ordinates [y = 1 * x + 0], the error at index 2 is
    [1/12], not zero: the gradient is taken with respect to the index, so
    unequal steps of [x] show up as curvature. *)
Lemma C5_counterexample :
  strictly_monotonic [0; 1; 3]%R /\
  intgrt (map Fin [0; 1; 3]%R) (linear 1 0 [0; 1; 3]%R)
    = Ok ([Fin 0; Fin (1 / 2); Fin (9 / 2)], [Fin 0; Fin 0; Fin (1 / 12)]) /\
  Fin (1 / 12) <> Fin 0.
Proof.
  split; [|split].
  - left. intros [|[|j]] H; simpl in *; try lra; lia.
  - rewrite intgrt_ok by reflexivity.
    unfold trapezoid_rule, trapezoid_term, error_factor, linear.
    num_compute. num_eq.
  - intros H. apply Fin_inj in H. lra.
Qed.

(** C5, as amended.  For abscissas with equal steps and ordinates
    [y = a * x + b] over them, [intgrt] returns an error sequence that is
    zero at every index. *)
Theorem C5_linear_uniform_error_zero (xs : list R) (a b h : R) :
  uniform_step h xs ->
  exists I err,
    intgrt (map Fin xs) (linear a b xs) = Ok (I, err) /\
    length err = Nat.max 1 (length xs) /\
    Forall (fun e => e = Fin 0) err.
Proof.
  intros Hstep. eexists. eexists.
  split; [apply intgrt_ok; unfold linear; rewrite !length_map; reflexivity|].
  rewrite length_map. split.
  - cbn [length]. rewrite length_map, length_seq. lia.
  - constructor; [reflexivity|].
    apply Forall_forall. intros e He. apply in_map_iff in He.
    destruct He as [i [<- Hi]]. apply in_seq in Hi.
    destruct (error_factor_fin xs) as [c ->]; [lia|].
    assert (Hp : length (upto (i + 1) (linear a b xs)) = i + 1).
    { apply upto_length. unfold linear. rewrite length_map. lia. }
    unfold np.gradient_at. rewrite Hp.
    replace (i + 1 - 1) with i by lia.
    destruct (Nat.eqb_spec i 0); [lia|]. rewrite Nat.eqb_refl. cbn [Nat.eqb].
    rewrite !nth_upto by lia.
    replace (i + 1 - 2) with (i - 1) by lia.
    rewrite !nth_linear by lia.
    simpl. f_equal.
    pose proof (Hstep 0 ltac:(lia)) as H0.
    pose proof (Hstep (i - 1) ltac:(lia)) as H1.
    replace (i - 1 + 1) with i in H1 by lia. simpl in H0.
    replace (a * nth i xs 0 + b - (a * nth (i - 1) xs 0 + b)
             - (a * nth 1 xs 0 + b - (a * nth 0 xs 0 + b)))%R
      with (a * (nth i xs 0 - nth (i - 1) xs 0) - a * (nth 1 xs 0 - nth 0 xs 0))%R
      by ring.
    rewrite H0, H1. ring.
Qed.

Lemma C5_witness :
  uniform_step 2 [1; 3; 5]%R /\
  exists I err,
    intgrt (map Fin [1; 3; 5]%R) (linear 7 (-1) [1; 3; 5]%R) = Ok (I, err) /\
    length err = Nat.max 1 (length [1; 3; 5]%R) /\
    Forall (fun e => e = Fin 0) err.
Proof.
  assert (H : uniform_step 2 [1; 3; 5]%R).
  { intros [|[|j]] Hj; simpl in *; try lra; lia. }
  split; [exact H|].
  apply (C5_linear_uniform_error_zero _ 7 (-1) 2 H).
Defined.

(* ================================================================== *)
(** ** [_error_from_u]: the loop over the lags *)

Lemma mapM_ok {A B} (f : A -> result B) (g : A -> B) (l : list A) :
  (forall a, In a l -> f a = Ok (g a)) -> mapM f l = Ok (map g l).
Proof.
  induction l as [|a l IH]; intros H; simpl; [reflexivity|].
  rewrite (H a) by (left; reflexivity). cbn [bind].
  rewrite IH by (intros; apply H; right; assumption). reflexivity.
Qed.

Lemma arange_in (start stop z : Z) :
  In z (np.arange start stop) -> (start <= z < stop)%Z.
Proof.
  unfold np.arange. intros H. apply in_map_iff in H.
  destruct H as [k [<- Hk]]. apply in_seq in Hk. lia.
Qed.

Lemma arange_length (start stop : Z) :
  length (np.arange start stop) = Z.to_nat (stop - start).
Proof. unfold np.arange. rewrite length_map, length_seq. reflexivity. Qed.

Lemma arange_empty (start stop : Z) :
  (stop <= start)%Z -> np.arange start stop = [].
Proof.
  intros H. unfold np.arange.
  replace (Z.to_nat (stop - start)) with 0 by lia. reflexivity.
Qed.

Lemma take_ok (a : list num) (t : list Z) :
  (forall z, In z t -> (0 <= z < len a)%Z) ->
  np.take a t = Ok (map (fun z => nth (Z.to_nat z) a NaN) t).
Proof.
  intros H. unfold np.take. apply mapM_ok. intros z Hz.
  specialize (H z Hz). unfold len in H.
  rewrite <- (Z2Nat.id z) at 1 by lia.
  apply getitem_nth. lia.
Qed.

Lemma nth_map_seq (f : nat -> num) (m j : nat) :
  j < m -> nth j (map f (seq 0 m)) NaN = f j.
Proof.
  intros H. rewrite (nth_indep _ NaN (f 0)) by (rewrite length_map, length_seq; lia).
  rewrite map_nth, seq_nth by lia. reflexivity.
Qed.

Lemma arange_nth (g : Z -> num) (start stop : Z) (j : nat) :
  j < Z.to_nat (stop - start) ->
  nth j (map g (np.arange start stop)) NaN = g (start + Z.of_nat j)%Z.
Proof.
  intros H. unfold np.arange. rewrite map_map.
  apply (nth_map_seq (fun k => g (start + Z.of_nat k)%Z)). assumption.
Qed.

(** No lag raises, and the value at lag [i] is the autocovariance. *)
Lemma lag_sum_ok (ug : list num) (i : nat) :
  lag_sum ug (Z.of_nat i) = Ok (autocovariance ug i).
Proof.
  unfold lag_sum.
  rewrite take_ok by (intros z Hz; apply arange_in in Hz; lia). cbn [bind].
  rewrite take_ok by (intros z Hz; apply arange_in in Hz; lia). cbn [bind].
  unfold np.broadcast. rewrite !length_map, !arange_length.
  replace (Z.to_nat (len ug - Z.of_nat i - 0)) with (length ug - i) by (unfold len; lia).
  replace (Z.to_nat (len ug - Z.of_nat i)) with (length ug - i) by (unfold len; lia).
  rewrite Nat.eqb_refl. cbn [bind].
  rewrite sum_nth, zip_with_length, !length_map, !arange_length.
  replace (Z.to_nat (len ug - Z.of_nat i - 0)) with (length ug - i) by (unfold len; lia).
  replace (Z.to_nat (len ug - Z.of_nat i)) with (length ug - i) by (unfold len; lia).
  rewrite Nat.min_id. unfold autocovariance. f_equal.
  apply sum_upto_ext. intros t Ht.
  rewrite zip_with_nth
    by (rewrite length_map, arange_length; unfold len; lia).
  rewrite !arange_nth by (unfold len; lia).
  f_equal; f_equal; lia.
Qed.

Lemma lag_loop_ok (ug : list num) (n : nat) :
  mapM (lag_sum ug) (range n) = Ok (map (autocovariance ug) (seq 0 n)).
Proof.
  unfold range. generalize (seq 0 n). intros l.
  induction l as [|i l IH]; simpl; [reflexivity|].
  rewrite lag_sum_ok. cbn [bind]. rewrite IH. reflexivity.
Qed.

Lemma decay_cutoff_ok (u ug : list num) :
  np.gradient u = Ok ug -> decay_cutoff u = Ok (cutoff_of ug).
Proof.
  intros Hg. unfold decay_cutoff. rewrite Hg. cbn [bind].
  rewrite lag_loop_ok. cbn [bind].
  rewrite getitem_first by (rewrite length_map, length_seq; apply Nat.lt_0_succ).
  cbn [bind]. rewrite nth_map_seq by apply Nat.lt_0_succ.
  unfold cutoff_of. cbv zeta. reflexivity.
Qed.

Lemma ndiv_pos_not_ninf (a b : R) : (0 < a)%R -> ndiv (Fin a) (Fin b) <> NInf.
Proof.
  intros H. simpl. destruct (Req_dec_T b 0); [|discriminate].
  rewrite Rsgn_pos by assumption. discriminate.
Qed.

Lemma npow_half_sqrt (a : num) : a <> NInf -> npow_half a = nsqrt a.
Proof. destruct a; intros H; try reflexivity. contradiction. Qed.

Lemma error_from_u_ok (u ug : list num) :
  np.gradient u = Ok ug ->
  _error_from_u u =
    Ok (ndiv (np.std u) (nsqrt (ndiv (of_Z (len u)) (of_Z (cutoff_of ug))))).
Proof.
  intros Hg. unfold _error_from_u. rewrite (decay_cutoff_ok _ _ Hg). cbn [bind].
  rewrite npow_half_sqrt; [reflexivity|].
  apply ndiv_pos_not_ninf. apply IZR_lt.
  pose proof (gradient_length _ _ Hg) as Hl.
  unfold np.gradient in Hg. destruct (Nat.ltb_spec (length u) 2); [discriminate|].
  unfold len. lia.
Qed.

(* ================================================================== *)
(** ** [_error_from_u]: degenerate series *)

Lemma nth_repeat_num (a : num) (n j : nat) : j < n -> nth j (repeat a n) NaN = a.
Proof.
  revert j. induction n as [|n IH]; intros [|j] H; simpl; try lia; auto.
  apply IH. lia.
Qed.

Lemma gradient_at_constant (v : R) (n j : nat) :
  2 <= n -> j < n -> np.gradient_at (repeat (Fin v) n) j = Fin 0.
Proof.
  intros Hn Hj. unfold np.gradient_at. rewrite repeat_length.
  destruct (Nat.eqb_spec j 0); [|destruct (Nat.eqb_spec j (n - 1))];
    rewrite !nth_repeat_num by lia; cbn [nsub].
  - f_equal. ring.
  - f_equal. ring.
  - rewrite ndiv_fin by lra. f_equal. field.
Qed.

Lemma gradient_constant (v : R) (n : nat) :
  2 <= n -> np.gradient (repeat (Fin v) n) = Ok (repeat (Fin 0) n).
Proof.
  intros Hn. rewrite gradient_ok by (rewrite repeat_length; lia).
  f_equal. rewrite repeat_length.
  apply (nth_ext _ _ NaN NaN).
  - rewrite length_map, length_seq, repeat_length. reflexivity.
  - intros j Hj. rewrite length_map, length_seq in Hj.
    rewrite nth_map_seq, nth_repeat_num by lia.
    apply gradient_at_constant; lia.
Qed.

Lemma sum_upto_zero (f : nat -> num) (k : nat) :
  (forall t, t < k -> f t = Fin 0) -> sum_upto f k = Fin 0.
Proof.
  induction k as [|k IH]; intros H; simpl; [reflexivity|].
  rewrite IH, H by (intros; try apply H; lia). simpl. f_equal. ring.
Qed.

Lemma autocovariance_zero (n i : nat) :
  autocovariance (repeat (Fin 0) n) i = Fin 0.
Proof.
  unfold autocovariance. apply sum_upto_zero. intros t Ht.
  rewrite repeat_length in Ht. rewrite !nth_repeat_num by lia.
  simpl. f_equal. ring.
Qed.

Lemma filter_none {A} (f : A -> bool) (l : list A) :
  (forall a, In a l -> f a = false) -> filter f l = [].
Proof.
  induction l as [|a l IH]; intros H; simpl; [reflexivity|].
  rewrite (H a) by (left; reflexivity). apply IH. intros; apply H; right; assumption.
Qed.

(** With a zero gradient every autocovariance is [0], every normalised
    value is [0/0 = nan], and no lag counts. *)
Lemma cutoff_of_zero (n : nat) : cutoff_of (repeat (Fin 0) n) = 0%Z.
Proof.
  unfold cutoff_of. cbv zeta. rewrite filter_none; [reflexivity|].
  intros a Ha.
  apply in_map_iff in Ha. destruct Ha as [b [<- Hb]].
  apply in_map_iff in Hb. destruct Hb as [c [<- Hc]].
  apply in_map_iff in Hc. destruct Hc as [i [<- _]].
  rewrite !autocovariance_zero, ndiv_zero_zero. reflexivity.
Qed.

Lemma sum_fin (l : list num) :
  Forall is_fin l -> exists r, np.sum l = Fin r.
Proof.
  induction l as [|a l IH] using rev_ind; intros H.
  - exists 0%R. reflexivity.
  - apply Forall_app in H. destruct H as [Hl Ha].
    destruct (IH Hl) as [r Hr]. inversion Ha as [|? ? Hf _]; subst.
    destruct a; try contradiction.
    eexists. rewrite sum_snoc, Hr. reflexivity.
Qed.

Lemma sum_fin_nonneg (l : list num) :
  Forall (fun a => exists r, a = Fin r /\ (0 <= r)%R) l ->
  exists r, np.sum l = Fin r /\ (0 <= r)%R.
Proof.
  induction l as [|a l IH] using rev_ind; intros H.
  - exists 0%R. split; [reflexivity|lra].
  - apply Forall_app in H. destruct H as [Hl Ha].
    destruct (IH Hl) as [r [Hr Hr0]]. inversion Ha as [|? ? [s [-> Hs]] _]; subst.
    exists (r + s)%R. rewrite sum_snoc, Hr. split; [reflexivity|lra].
Qed.

(** The standard deviation of a nonempty finite series is finite. *)
Lemma std_fin (u : list num) :
  0 < length u -> Forall is_fin u -> exists s, np.std u = Fin s.
Proof.
  intros Hn Hu. unfold np.std, np.mean, of_Z, len.
  assert (Hz : IZR (Z.of_nat (length u)) <> 0%R) by (apply not_0_IZR; lia).
  assert (Hp : (0 < IZR (Z.of_nat (length u)))%R) by (apply IZR_lt; lia).
  destruct (sum_fin u Hu) as [m ->]. rewrite ndiv_fin by assumption.
  rewrite length_map.
  destruct (sum_fin_nonneg
              (map (fun v => nsqr (nabs (nsub v (Fin (m / IZR (Z.of_nat (length u)))))))
                   u)) as [q [-> Hq]].
  - apply Forall_forall. intros a Ha. apply in_map_iff in Ha.
    destruct Ha as [v [<- Hv]].
    rewrite Forall_forall in Hu. specialize (Hu v Hv).
    destruct v; try contradiction. simpl.
    eexists. split; [reflexivity|]. apply Rle_0_sqr.
  - rewrite ndiv_fin by assumption. rewrite nsqrt_fin; [eexists; reflexivity|].
    apply Rmult_le_pos; [assumption|]. left. apply Rinv_0_lt_compat. assumption.
Qed.

(** When the cutoff is zero the independent-sample count is [+inf] and the
    estimate is [std(u) / inf = 0]; nothing is raised. *)
Lemma error_from_u_cutoff_zero (u : list num) :
  Forall is_fin u -> decay_cutoff u = Ok 0%Z -> _error_from_u u = Ok (Fin 0).
Proof.
  intros Hu Hc. unfold _error_from_u. rewrite Hc. cbn [bind].
  assert (Hlen : 2 <= length u).
  { unfold decay_cutoff, np.gradient in Hc.
    destruct (Nat.ltb_spec (length u) 2); [discriminate|assumption]. }
  unfold of_Z, len. rewrite ndiv_pos_zero by (apply IZR_lt; lia).
  destruct (std_fin u) as [s ->]; [lia|assumption|]. reflexivity.
Qed.

Lemma decay_cutoff_constant (v : R) (n : nat) :
  2 <= n -> decay_cutoff (repeat (Fin v) n) = Ok 0%Z.
Proof.
  intros Hn. rewrite (decay_cutoff_ok _ _ (gradient_constant v n Hn)).
  rewrite cutoff_of_zero. reflexivity.
Qed.

Lemma error_from_u_constant (v : R) (n : nat) :
  2 <= n -> _error_from_u (repeat (Fin v) n) = Ok (Fin 0).
Proof.
  intros Hn. apply error_from_u_cutoff_zero.
  - apply Forall_forall. intros a Ha. apply repeat_spec in Ha. subst. exact I.
  - apply decay_cutoff_constant. assumption.
Qed.

Lemma lags_from_zero : seq 0 1000 = 0 :: seq 1 999.
Proof. reflexivity. Qed.

Lemma cutoff_of_pos (ug : list num) (c0 : R) :
  autocovariance ug 0 = Fin c0 -> c0 <> 0%R -> (0 < cutoff_of ug)%Z.
Proof.
  intros H0 Hc. unfold cutoff_of. cbv zeta.
  rewrite lags_from_zero. generalize (seq 1 999). intros lags.
  rewrite !map_cons.
  rewrite H0. rewrite !ndiv_fin by assumption.
  replace (c0 / c0)%R with 1%R by (field; assumption).
  cbn [nsign]. rewrite Rsgn_pos by lra. cbn [nmul filter].
  rewrite ngtb_fin_true by lra. cbn [length]. lia.
Qed.

(* ================================================================== *)
(** ** Claims about [_error_from_u] *)

(** C2.  For a series [u] of at least two elements with a nonzero decay
    cutoff, [_error_from_u] returns [std(u) / sqrt(len(u) / c_trs)], where
    [c_trs] is the cutoff of the gradient of [u] as [cutoff_of] words it:
    the sums of [ug[t] * ug[t+i]] over the overlapping indices for the lags
    0 to 999, divided by the lag-0 value, multiplied by their own sign
    (which leaves a zero at zero), and counted when above 0.1.  (A nonzero
    cutoff already excludes a zero lag-0 autocovariance.) *)
Theorem C2_error_from_u_formula (u ug : list num) :
  2 <= length u ->
  np.gradient u = Ok ug ->
  cutoff_of ug <> 0%Z ->
  _error_from_u u =
    Ok (ndiv (np.std u) (Fin (sqrt (IZR (len u) / IZR (cutoff_of ug))))) /\
  nmul (Fin 0) (nsign (Fin 0)) = Fin 0.
Proof.
  intros Hlen Hg Hc. split.
  - rewrite (error_from_u_ok _ _ Hg). unfold of_Z.
    rewrite ndiv_fin by (apply not_0_IZR; assumption).
    rewrite nsqrt_fin; [reflexivity|].
    assert (0 <= cutoff_of ug)%Z by (unfold cutoff_of; lia).
    apply Rmult_le_pos.
    + apply IZR_le. unfold len. lia.
    + left. apply Rinv_0_lt_compat. apply IZR_lt. lia.
  - cbn [nsign]. rewrite Rsgn_zero. simpl. f_equal. ring.
Qed.

Lemma C2_witness :
  2 <= length [Fin 0; Fin 1] /\
  np.gradient [Fin 0; Fin 1] = Ok [Fin (1 - 0); Fin (1 - 0)] /\
  cutoff_of [Fin (1 - 0); Fin (1 - 0)] <> 0%Z /\
  _error_from_u [Fin 0; Fin 1] =
    Ok (ndiv (np.std [Fin 0; Fin 1])
             (Fin (sqrt (IZR (len [Fin 0; Fin 1])
                         / IZR (cutoff_of [Fin (1 - 0); Fin (1 - 0)]))))) /\
  nmul (Fin 0) (nsign (Fin 0)) = Fin 0.
Proof.
  assert (Hlen : 2 <= length [Fin 0; Fin 1]) by (simpl; lia).
  assert (Hg : np.gradient [Fin 0; Fin 1] = Ok [Fin (1 - 0); Fin (1 - 0)])
    by reflexivity.
  assert (Hc : cutoff_of [Fin (1 - 0); Fin (1 - 0)] <> 0%Z).
  { assert (0 < cutoff_of [Fin (1 - 0); Fin (1 - 0)])%Z; [|lia].
    apply (cutoff_of_pos _ (0 + (1 - 0) * (1 - 0) + (1 - 0) * (1 - 0))%R);
      [reflexivity|lra]. }
  split; [exact Hlen|]. split; [exact Hg|]. split; [exact Hc|].
  exact (C2_error_from_u_formula _ _ Hlen Hg Hc).
Defined.

(** C10.  A series of 2 to 999 elements goes through [_error_from_u]
    without any exception; at every lag [i >= len(u)] both index ranges are
    empty and the sum appended to [c] is 0.  (The two non-degeneracy
    conditions of the claim play no part: a zero divisor raises nothing.) *)
Theorem C10_short_series_no_index_error (u : list num) :
  2 <= length u < 1000 ->
  (exists v, _error_from_u u = Ok v) /\
  exists ug, np.gradient u = Ok ug /\
    forall i, length u <= i < 1000 ->
      np.arange 0 (len ug - Z.of_nat i) = [] /\
      np.arange (Z.of_nat i) (len ug) = [] /\
      lag_sum ug (Z.of_nat i) = Ok (Fin 0).
Proof.
  intros Hlen.
  assert (Hg : np.gradient u = Ok (map (np.gradient_at u) (seq 0 (length u))))
    by (apply gradient_ok; lia).
  split.
  - eexists. apply (error_from_u_ok _ _ Hg).
  - eexists. split; [exact Hg|]. intros i Hi.
    pose proof (gradient_length _ _ Hg) as Hl.
    repeat split.
    + apply arange_empty. unfold len. lia.
    + apply arange_empty. unfold len. lia.
    + rewrite lag_sum_ok. unfold autocovariance.
      replace (length (map (np.gradient_at u) (seq 0 (length u))) - i) with 0 by lia.
      reflexivity.
Qed.

Lemma C10_witness :
  2 <= length [Fin 0; Fin 1; Fin 4] < 1000 /\
  (exists v, _error_from_u [Fin 0; Fin 1; Fin 4] = Ok v) /\
  exists ug, np.gradient [Fin 0; Fin 1; Fin 4] = Ok ug /\
    forall i, length [Fin 0; Fin 1; Fin 4] <= i < 1000 ->
      np.arange 0 (len ug - Z.of_nat i) = [] /\
      np.arange (Z.of_nat i) (len ug) = [] /\
      lag_sum ug (Z.of_nat i) = Ok (Fin 0).
Proof.
  assert (H : 2 <= length [Fin 0; Fin 1; Fin 4] < 1000).
  { cbn [length]. split; [lia|]. apply Nat.ltb_lt. reflexivity. }
  split; [exact H|].
  exact (C10_short_series_no_index_error [Fin 0; Fin 1; Fin 4] H).
Defined.

(** With a zero cutoff the independent-sample count is [len(u)/0 = +inf]
    and the value returned is [std(u) / inf], whatever [std(u)] is. *)
Lemma error_from_u_zero_cutoff (u : list num) :
  decay_cutoff u = Ok 0%Z -> _error_from_u u = Ok (ndiv (np.std u) PInf).
Proof.
  intros Hc. unfold _error_from_u. rewrite Hc. cbn [bind].
  assert (Hlen : 2 <= length u).
  { unfold decay_cutoff, np.gradient in Hc.
    destruct (Nat.ltb_spec (length u) 2); [discriminate|assumption]. }
  unfold of_Z, len. rewrite ndiv_pos_zero by (apply IZR_lt; lia).
  reflexivity.
Qed.



(** When the lag-0 autocovariance is [nan], every normalised value is
    [nan] and no lag counts. *)
Lemma cutoff_of_nan (ug : list num) :
  autocovariance ug 0 = NaN -> cutoff_of ug = 0%Z.
Proof.
  intros H0. unfold cutoff_of. cbv zeta. rewrite filter_none; [reflexivity|].
  intros a Ha.
  apply in_map_iff in Ha. destruct Ha as [b [<- Hb]].
  apply in_map_iff in Hb. destruct Hb as [c [<- Hc]].
  rewrite H0. destruct c; reflexivity.
Qed.

Lemma decay_cutoff_inf : decay_cutoff [PInf; PInf] = Ok 0%Z.
Proof.
  rewrite (decay_cutoff_ok _ [NaN; NaN]) by reflexivity.
  rewrite cutoff_of_nan; reflexivity.
Qed.

Lemma std_inf : np.std [PInf; PInf] = NaN.
Proof. unfold np.std, np.mean, of_Z, len. num_compute. reflexivity. Qed.

(** C9, counterexample.  The series [inf, inf] is constant and has two
    elements, and the estimate is [nan], not zero: the gradient
    [inf - inf] and the standard deviation are [nan].  (In the doubles
    the same [nan] comes out of finite constants whose sum overflows, as
    [1e308, 1e308]: there [np.std] is [inf] and [inf / inf = nan].) *)
Lemma C9_counterexample :
  2 <= length [PInf; PInf] /\
  Forall (eq PInf) [PInf; PInf] /\
  _error_from_u [PInf; PInf] = Ok NaN.
Proof.
  split; [simpl; lia|]. split; [repeat constructor|].
  rewrite (error_from_u_zero_cutoff _ decay_cutoff_inf), std_inf. reflexivity.
Qed.






(* ================================================================== *)
(** ** [lammps_log_to_U_latt] *)

Lemma getitem_nth_error {A} (l : list A) (i : Z) (a : A) :
  (0 <= i)%Z -> nth_error l (Z.to_nat i) = Some a -> getitem l i = Ok a.
Proof.
  intros Hi H. unfold getitem. cbv zeta.
  destruct (Z.ltb_spec i 0) as [Hneg|_]; [lia|].
  destruct (Z.ltb_spec i 0) as [Hneg|_]; [lia|].
  rewrite H. reflexivity.
Qed.

Lemma getitem_none {A} (l : list A) (i : Z) :
  (0 <= i)%Z -> nth_error l (Z.to_nat i) = None -> getitem l i = Raise IndexError.
Proof.
  intros Hi H. unfold getitem. cbv zeta.
  destruct (Z.ltb_spec i 0) as [Hneg|_]; [lia|].
  destruct (Z.ltb_spec i 0) as [Hneg|_]; [lia|].
  rewrite H. reflexivity.
Qed.

Lemma steps_skip (pre rest : list string) (i : Z) :
  Forall (fun l => starts_loop_time l = false) pre ->
  steps_before_loop_time (pre ++ rest) i =
  steps_before_loop_time rest (i + len pre).
Proof.
  revert i. induction pre as [|l pre IH]; intros i H; simpl.
  - f_equal. unfold len. simpl. lia.
  - inversion H as [|? ? Hl Hpre]; subst. rewrite Hl, IH by assumption.
    f_equal. unfold len. simpl length. lia.
Qed.

Lemma steps_none (lines : list string) (i : Z) :
  Forall (fun l => starts_loop_time l = false) lines ->
  steps_before_loop_time lines i = [].
Proof.
  intros H. rewrite <- (app_nil_r lines). rewrite steps_skip by assumption.
  reflexivity.
Qed.

(** The line picked when the first marker line has a line before it. *)
Lemma line_before_loop_time (float : string -> result num)
      (pre post : list string) (prev marker : string) :
  Forall (fun l => starts_loop_time l = false) (pre ++ [prev]) ->
  starts_loop_time marker = true ->
  lammps_log_to_U_latt float (pre ++ prev :: marker :: post) =
    (field <- getitem (split prev) 1 ;; float field).
Proof.
  intros Hpre Hm. unfold lammps_log_to_U_latt.
  replace (pre ++ prev :: marker :: post)
    with ((pre ++ [prev]) ++ marker :: post)
    by (rewrite <- app_assoc; reflexivity).
  rewrite steps_skip by assumption. cbn [steps_before_loop_time].
  rewrite Hm.
  rewrite (getitem_nth_error _ 0 (0 + len (pre ++ [prev]) - 1)%Z)
    by (try reflexivity; lia).
  cbn [bind].
  rewrite (getitem_nth_error _ _ prev); [reflexivity| |].
  - unfold len. rewrite length_app. simpl. lia.
  - unfold len. rewrite length_app. simpl length.
    replace (Z.to_nat (0 + Z.of_nat (length pre + 1) - 1)) with (length pre) by lia.
    rewrite <- app_assoc. rewrite nth_error_app2 by lia.
    rewrite Nat.sub_diag. reflexivity.
Qed.

(** C7, counterexample.  The log has a line beginning with [Loop time],
    and a line before it, but that line has one field only: no float is
    returned, [IndexError] is raised. *)
Lemma C7_counterexample :
  Exists (fun l => starts_loop_time l = true) log_short_line /\
  lammps_log_to_U_latt float_decimal log_short_line = Raise IndexError.
Proof.
  split.
  - right. left. reflexivity.
  - reflexivity.
Qed.

(** C7, as amended.  When the first line beginning with [Loop time] has a
    line before it, [lammps_log_to_U_latt] returns what [float] makes of the
    second whitespace-delimited field of that line, and raises [IndexError]
    when the line has fewer than two fields; on a log without such a marker
    line it raises [IndexError]. *)
Theorem C7_lattice_energy_from_log (float : string -> result num) :
  (forall (pre post : list string) (prev marker : string),
      Forall (fun l => starts_loop_time l = false) (pre ++ [prev]) ->
      starts_loop_time marker = true ->
      (forall field, nth_error (split prev) 1 = Some field ->
         lammps_log_to_U_latt float (pre ++ prev :: marker :: post)
         = float field) /\
      (nth_error (split prev) 1 = None ->
         lammps_log_to_U_latt float (pre ++ prev :: marker :: post)
         = Raise IndexError)) /\
  (forall lines : list string,
      Forall (fun l => starts_loop_time l = false) lines ->
      lammps_log_to_U_latt float lines = Raise IndexError).
Proof.
  split.
  - intros pre post prev marker Hpre Hm.
    rewrite (line_before_loop_time float pre post prev marker Hpre Hm).
    split.
    + intros field Hf. rewrite (getitem_nth_error _ 1 field) by (try exact Hf; lia).
      reflexivity.
    + intros Hf. rewrite (getitem_none _ 1) by (try exact Hf; lia). reflexivity.
  - intros lines H. unfold lammps_log_to_U_latt.
    rewrite steps_none by assumption. reflexivity.
Qed.

Lemma float_decimal_read (s : string) (negative : bool) (mk : Z * nat) :
  read_decimal s = Some (negative, mk) ->
  float_decimal s = Ok (decimal_value negative mk).
Proof. intros H. unfold float_decimal. rewrite H. reflexivity. Qed.

Lemma float_decimal_sample : float_decimal "-12.34" = Ok (Fin (-12.34)).
Proof.
  rewrite (float_decimal_read "-12.34" true (1234%Z, 2))
    by (vm_compute; reflexivity).
  unfold decimal_value. cbn [fst snd].
  change (10 ^ Z.of_nat 2)%Z with 100%Z. f_equal. f_equal. lra.
Qed.

Lemma C7_witness :
  Forall (fun l => starts_loop_time l = false)
         ([("Step PotEng Press" ++ newline)%string]
            ++ [("0 -12.34 0.5" ++ newline)%string]) /\
  starts_loop_time ("Loop time of 3.2 on 4 procs" ++ newline) = true /\
  nth_error (split ("0 -12.34 0.5" ++ newline)) 1 = Some "-12.34"%string /\
  lammps_log_to_U_latt float_decimal log_sample = Ok (Fin (-12.34)).
Proof.
  assert (Hpre : Forall (fun l => starts_loop_time l = false)
                   ([("Step PotEng Press" ++ newline)%string]
                      ++ [("0 -12.34 0.5" ++ newline)%string]))
    by (repeat constructor).
  assert (Hm : starts_loop_time ("Loop time of 3.2 on 4 procs" ++ newline) = true)
    by reflexivity.
  assert (Hf : nth_error (split ("0 -12.34 0.5" ++ newline)) 1 = Some "-12.34"%string)
    by reflexivity.
  split; [exact Hpre|]. split; [exact Hm|]. split; [exact Hf|].
  rewrite <- float_decimal_sample.
  exact (proj1 (proj1 (C7_lattice_energy_from_log float_decimal)
                  _ [] _ _ Hpre Hm) _ Hf).
Defined.

(* ================================================================== *)
(** ** Harmonic free energy *)

Lemma kb_J_pos : (0 < kb_J)%R.
Proof.
  unfold kb_J. apply Rmult_lt_0_compat; [lra|].
  apply Rinv_0_lt_compat. apply pow_lt. lra.
Qed.

Lemma atomic2s_pos : (0 < atomic2s)%R.
Proof.
  unfold atomic2s. apply Rmult_lt_0_compat; [lra|].
  apply Rinv_0_lt_compat. apply pow_lt. lra.
Qed.

Lemma nmul_one_l (v : num) : nmul (Fin 1) v = v.
Proof.
  destruct v; simpl; try reflexivity.
  - f_equal. ring.
  - rewrite Rsgn_pos by lra. reflexivity.
  - rewrite Rsgn_pos by lra. reflexivity.
Qed.

(** Dividing by [1/b] multiplies by [b], whatever the dividend. *)
Lemma ndiv_by_inverse (L : num) (b : R) :
  b <> 0%R -> ndiv L (Fin (1 / b)) = nmul (Fin b) L.
Proof.
  intros Hb.
  assert (Hi : (1 / b <> 0)%R).
  { unfold Rdiv. rewrite Rmult_1_l. apply Rinv_neq_0_compat. assumption. }
  destruct L as [l| | |].
  - rewrite ndiv_fin by assumption. simpl. f_equal. field. assumption.
  - simpl. destruct (Rlt_dec (1 / b) 0) as [Hn|Hn].
    + rewrite Rsgn_neg; [reflexivity|].
      destruct (Rlt_dec b 0); [assumption|]. exfalso.
      assert (0 < b)%R by lra.
      assert (0 < 1 / b)%R by (apply Rdiv_lt_0_compat; lra). lra.
    + rewrite Rsgn_pos; [reflexivity|].
      destruct (Rlt_dec 0 b); [assumption|]. exfalso.
      assert (b < 0)%R by lra.
      assert (/ b < 0)%R by (apply Rinv_lt_0_compat; assumption).
      unfold Rdiv in Hn. lra.
  - simpl. destruct (Rlt_dec (1 / b) 0) as [Hn|Hn].
    + rewrite Rsgn_neg; [reflexivity|].
      destruct (Rlt_dec b 0); [assumption|]. exfalso.
      assert (0 < b)%R by lra.
      assert (0 < 1 / b)%R by (apply Rdiv_lt_0_compat; lra). lra.
    + rewrite Rsgn_pos; [reflexivity|].
      destruct (Rlt_dec 0 b); [assumption|]. exfalso.
      assert (b < 0)%R by lra.
      assert (/ b < 0)%R by (apply Rinv_lt_0_compat; assumption).
      unfold Rdiv in Hn. lra.
  - reflexivity.
Qed.

Lemma beta_of_fin (t : R) :
  t <> 0%R -> beta_of (Fin t) = Fin (1 / (t * kb_J)).
Proof.
  intros Ht. unfold beta_of. cbn [nmul]. apply ndiv_fin.
  pose proof kb_J_pos. apply Rmult_integral_contrapositive_currified; lra.
Qed.

(** At a finite nonzero temperature and a finite frequency, the expression
    of the code for one mode is the quantum term of the specification. *)
Lemma quantum_mode_term (t w : R) :
  t <> 0%R -> quantum_mode (beta_of (Fin t)) (Fin w) = quantum_term (Fin t) (Fin w).
Proof.
  intros Ht. pose proof kb_J_pos as Hk.
  assert (Hkt : (kb_J * t <> 0)%R)
    by (apply Rmult_integral_contrapositive_currified; lra).
  assert (Htk : (t * kb_J <> 0)%R)
    by (apply Rmult_integral_contrapositive_currified; lra).
  rewrite beta_of_fin by assumption.
  unfold quantum_mode, quantum_term, kT, npow_m1. cbv zeta. cbn [nmul].
  rewrite (ndiv_fin (hb_J * w) (kb_J * t)) by assumption.
  rewrite (ndiv_fin 1 (1 / (t * kb_J))).
  2:{ unfold Rdiv. rewrite Rmult_1_l. apply Rinv_neq_0_compat. assumption. }
  cbn [nneg nexp nsub].
  replace (- hb_J * w * (1 / (t * kb_J)))%R with (- (hb_J * w / (kb_J * t)))%R
    by (field; split; lra).
  replace (1 / (1 / (t * kb_J)))%R with (kb_J * t)%R by (field; split; lra).
  reflexivity.
Qed.

Lemma classical_mode_term (t w : R) :
  t <> 0%R ->
  classical_mode (beta_of (Fin t)) (Fin w) = classical_term (Fin t) (Fin w).
Proof.
  intros Ht. pose proof kb_J_pos as Hk.
  assert (Hkt : (kb_J * t <> 0)%R)
    by (apply Rmult_integral_contrapositive_currified; lra).
  assert (Htk : (t * kb_J <> 0)%R)
    by (apply Rmult_integral_contrapositive_currified; lra).
  rewrite beta_of_fin by assumption.
  unfold classical_mode, classical_term, kT. cbn [nmul].
  rewrite (ndiv_fin (hb_J * w) (kb_J * t)) by assumption.
  replace (1 / (t * kb_J) * hb_J * w)%R with (hb_J * w / (kb_J * t))%R
    by (field; split; lra).
  replace (1 / (t * kb_J))%R with (1 / (kb_J * t))%R by (f_equal; ring).
  apply ndiv_by_inverse. assumption.
Qed.

(** The unit conversions of the two evaluators, on finite values. *)
Lemma ipi_omega_code (e : R) :
  nmul (nmul (ndiv (ndiv (npow_half (nabs (Fin e))) (Fin (2 * PI)))
                   (Fin atomic2s))
             (Fin 2))
       (Fin PI)
  = ipi_omega (Fin e).
Proof.
  pose proof PI_RGT_0 as Hpi. pose proof atomic2s_pos as Ha.
  unfold ipi_omega. cbn [nabs npow_half].
  rewrite nsqrt_fin by apply Rabs_pos.
  rewrite !ndiv_fin by lra. cbn [nmul]. f_equal. field. split; lra.
Qed.

Lemma phonopy_omega_code (f : R) :
  nmul (nmul (nmul (Fin f) (Fin cm2hz)) (Fin 2)) (Fin PI) = phonopy_omega (Fin f).
Proof. unfold phonopy_omega. cbn [nmul]. f_equal. ring. Qed.

Lemma is_fin_inv (a : num) : is_fin a -> exists r, a = Fin r.
Proof. destruct a; simpl; intros H; try contradiction. eexists; reflexivity. Qed.

Lemma nth_map_any {A} (g : A -> num) (l : list A) (d : A) (j : nat) :
  j < length l -> nth j (map g l) NaN = g (nth j l d).
Proof.
  intros H. rewrite (nth_indep _ NaN (g d)) by (rewrite length_map; lia).
  apply map_nth.
Qed.

Lemma mapM_length {A B} (f : A -> result B) (l : list A) (r : list B) :
  mapM f l = Ok r -> length r = length l.
Proof.
  revert r. induction l as [|a l IH]; intros r H; simpl in H.
  - injection H as <-. reflexivity.
  - destruct (f a); [|discriminate]. simpl in H.
    destruct (mapM f l) as [bs|]; [|discriminate]. simpl in H.
    injection H as <-. simpl. f_equal. apply IH. reflexivity.
Qed.

Lemma zip_with_map_combine (g : num -> num) (a w : list num) :
  np.zip_with nmul w (map g a) = map (fun m => nmul (snd m) (g (fst m))) (combine a w).
Proof.
  revert w. induction a as [|x a IH]; intros [|y w]; simpl; try reflexivity.
  f_equal. apply IH.
Qed.

Lemma ipi_omega_fin (e : R) : ipi_omega (Fin e) = Fin (sqrt (Rabs e) / atomic2s).
Proof.
  pose proof atomic2s_pos. unfold ipi_omega. cbn [nabs].
  rewrite nsqrt_fin by apply Rabs_pos. apply ndiv_fin. lra.
Qed.

Lemma phonopy_omega_fin (f : R) : phonopy_omega (Fin f) = Fin (2 * PI * (f * cm2hz)).
Proof. reflexivity. Qed.

(** The sums over the modes, code against specification, at a finite
    nonzero temperature. *)
Lemma ipi_sum_modes (mode term : num -> num -> num) (t : R) (es : list num) :
  (forall w, mode (beta_of (Fin t)) (Fin w) = term (Fin t) (Fin w)) ->
  Forall is_fin es ->
  map (mode (beta_of (Fin t)))
      (map (fun f => nmul (nmul f (Fin 2)) (Fin PI))
         (map (fun f => ndiv f (Fin atomic2s))
            (map (fun w => ndiv w (Fin (2 * PI)))
               (map npow_half (map nabs es)))))
  = map (fun m => nmul (snd m) (term (Fin t) (fst m))) (ipi_modes es).
Proof.
  intros Hmode Hes. unfold ipi_modes. rewrite !map_map.
  apply map_ext_in. intros e He. cbn [fst snd].
  rewrite Forall_forall in Hes. destruct (is_fin_inv e (Hes e He)) as [r ->].
  rewrite ipi_omega_code, ipi_omega_fin, nmul_one_l. apply Hmode.
Qed.

Lemma phonopy_sum_modes (mode term : num -> num -> num) (t : R)
      (fs dos : list num) :
  (forall w, mode (beta_of (Fin t)) (Fin w) = term (Fin t) (Fin w)) ->
  Forall is_fin fs ->
  np.zip_with nmul dos
    (map (mode (beta_of (Fin t)))
       (map (fun f => nmul (nmul f (Fin 2)) (Fin PI))
          (map (fun v => nmul v (Fin cm2hz)) fs)))
  = map (fun m => nmul (snd m) (term (Fin t) (fst m))) (phonopy_modes fs dos).
Proof.
  intros Hmode Hfs. unfold phonopy_modes.
  rewrite <- zip_with_map_combine. f_equal. rewrite !map_map.
  apply map_ext_in. intros f Hf.
  rewrite Forall_forall in Hfs. destruct (is_fin_inv f (Hfs f Hf)) as [r ->].
  rewrite phonopy_omega_code, phonopy_omega_fin. apply Hmode.
Qed.

Lemma nth_to_eV_per_mol (F : num -> num) (T : list num) (nmols U_latt : num)
      (k : nat) :
  k < length T ->
  nth k (to_eV_per_mol (map F T) nmols U_latt) NaN =
    nadd (ndiv (nmul (F (nth k T NaN)) (Fin J2ev)) nmols) U_latt.
Proof.
  intros Hk. unfold to_eV_per_mol. rewrite map_map.
  apply (nth_map_any (fun T_ => nadd (ndiv (nmul (F T_) (Fin J2ev)) nmols) U_latt)
           T NaN k Hk).
Qed.

(** C3.  Both harmonic evaluators return, at every finite nonzero
    temperature [T[k]], the quantum free energy
    [sum over modes of weight * (hbar*omega/2 + kT*ln(1 - exp(-hbar*omega/kT)))]
    and the classical one [sum over modes of weight * kT*ln(hbar*omega/kT)],
    each times [J2ev], over [nmols], plus [U_latt]: with weight 1 on the
    modes of the ipi file, and with the DOS column as weight on the modes
    of the phonopy table. *)
Theorem C3_harmonic_free_energy (float : string -> result num)
        (T : list num) (nmols U_latt : num) :
  (forall (lines : list string) (values : list num),
      mapM float (from 1 lines) = Ok values ->
      Forall is_fin (from 3 values) ->
      exists Fq Fc,
        ipi_harmonic_free_energy float lines T nmols U_latt = Ok (Fq, Fc) /\
        forall (k : nat) (t : R),
          k < length T -> nth k T NaN = Fin t -> t <> 0%R ->
          nth k Fq NaN =
            free_energy quantum_term (ipi_modes (from 3 values))
                        (Fin t) nmols U_latt /\
          nth k Fc NaN =
            free_energy classical_term (ipi_modes (from 3 values))
                        (Fin t) nmols U_latt) /\
  (forall (lines : list string) (data : list (list num))
          (wavenumbers dos : list num),
      table float (map split (from 3 lines)) = Ok data ->
      column data 0 = Ok wavenumbers ->
      column data 1 = Ok dos ->
      Forall is_fin wavenumbers ->
      exists Fq Fc,
        phonopy_harmonic_free_energy float lines T nmols U_latt = Ok (Fq, Fc) /\
        forall (k : nat) (t : R),
          k < length T -> nth k T NaN = Fin t -> t <> 0%R ->
          nth k Fq NaN =
            free_energy quantum_term (phonopy_modes wavenumbers dos)
                        (Fin t) nmols U_latt /\
          nth k Fc NaN =
            free_energy classical_term (phonopy_modes wavenumbers dos)
                        (Fin t) nmols U_latt).
Proof.
  split.
  - intros lines values Hv Hfin.
    unfold ipi_harmonic_free_energy. cbv zeta. rewrite Hv. cbn [bind].
    eexists. eexists. split; [reflexivity|].
    intros k t Hk HT Ht. unfold free_energy.
    rewrite !nth_to_eV_per_mol by assumption. rewrite HT.
    rewrite (ipi_sum_modes quantum_mode quantum_term)
      by (try assumption; intros w; apply quantum_mode_term; assumption).
    rewrite (ipi_sum_modes classical_mode classical_term)
      by (try assumption; intros w; apply classical_mode_term; assumption).
    split; reflexivity.
  - intros lines data wavenumbers dos Hd H0 H1 Hfin.
    unfold phonopy_harmonic_free_energy. cbv zeta.
    rewrite Hd. cbn [bind]. rewrite H0. cbn [bind]. rewrite H1. cbn [bind].
    eexists. eexists. split; [reflexivity|].
    intros k t Hk HT Ht. unfold free_energy.
    rewrite !nth_to_eV_per_mol by assumption. rewrite HT.
    rewrite (phonopy_sum_modes quantum_mode quantum_term)
      by (try assumption; intros w; apply quantum_mode_term; assumption).
    rewrite (phonopy_sum_modes classical_mode classical_term)
      by (try assumption; intros w; apply classical_mode_term; assumption).
    split; reflexivity.
Qed.

Lemma ipi_file_values : mapM float_decimal (from 1 ipi_file) = Ok ipi_values.
Proof.
  unfold ipi_file, from. cbn [skipn mapM].
  rewrite (float_decimal_read _ false (0%Z, 0)) by (vm_compute; reflexivity).
  rewrite (float_decimal_read _ false (4%Z, 0)) by (vm_compute; reflexivity).
  reflexivity.
Qed.

Lemma phonopy_file_data :
  table float_decimal (map split (from 3 phonopy_file)) = Ok phonopy_data.
Proof.
  replace (map split (from 3 phonopy_file)) with [["100"; "0.5"]%string]
    by (vm_compute; reflexivity).
  unfold table. cbn [forallb length Nat.eqb andb mapM].
  rewrite (float_decimal_read "100" false (100%Z, 0)) by (vm_compute; reflexivity).
  rewrite (float_decimal_read "0.5" false (5%Z, 1)) by (vm_compute; reflexivity).
  reflexivity.
Qed.

Lemma C3_witness :
  (mapM float_decimal (from 1 ipi_file) = Ok ipi_values /\
   Forall is_fin (from 3 ipi_values) /\
   exists Fq Fc,
     ipi_harmonic_free_energy float_decimal ipi_file [Fin 300] (Fin 2) (Fin (-1))
       = Ok (Fq, Fc) /\
     forall (k : nat) (t : R),
       k < length [Fin 300] -> nth k [Fin 300] NaN = Fin t -> t <> 0%R ->
       nth k Fq NaN =
         free_energy quantum_term (ipi_modes (from 3 ipi_values))
                     (Fin t) (Fin 2) (Fin (-1)) /\
       nth k Fc NaN =
         free_energy classical_term (ipi_modes (from 3 ipi_values))
                     (Fin t) (Fin 2) (Fin (-1))) /\
  (table float_decimal (map split (from 3 phonopy_file)) = Ok phonopy_data /\
   column phonopy_data 0 = Ok [decimal_value false (100%Z, 0)] /\
   column phonopy_data 1 = Ok [decimal_value false (5%Z, 1)] /\
   Forall is_fin [decimal_value false (100%Z, 0)] /\
   exists Fq Fc,
     phonopy_harmonic_free_energy float_decimal phonopy_file
       [Fin 300] (Fin 2) (Fin (-1)) = Ok (Fq, Fc) /\
     forall (k : nat) (t : R),
       k < length [Fin 300] -> nth k [Fin 300] NaN = Fin t -> t <> 0%R ->
       nth k Fq NaN =
         free_energy quantum_term
           (phonopy_modes [decimal_value false (100%Z, 0)]
                          [decimal_value false (5%Z, 1)])
           (Fin t) (Fin 2) (Fin (-1)) /\
       nth k Fc NaN =
         free_energy classical_term
           (phonopy_modes [decimal_value false (100%Z, 0)]
                          [decimal_value false (5%Z, 1)])
           (Fin t) (Fin 2) (Fin (-1))).
Proof.
  destruct (C3_harmonic_free_energy float_decimal [Fin 300] (Fin 2) (Fin (-1)))
    as [Hipi Hphonopy].
  assert (Hfin : Forall is_fin (from 3 ipi_values)) by (repeat constructor).
  assert (H0 : column phonopy_data 0 = Ok [decimal_value false (100%Z, 0)])
    by reflexivity.
  assert (H1 : column phonopy_data 1 = Ok [decimal_value false (5%Z, 1)])
    by reflexivity.
  assert (Hw : Forall is_fin [decimal_value false (100%Z, 0)])
    by (repeat constructor).
  split.
  - split; [exact ipi_file_values|]. split; [exact Hfin|].
    exact (Hipi ipi_file ipi_values ipi_file_values Hfin).
  - split; [exact phonopy_file_data|]. split; [exact H0|]. split; [exact H1|].
    split; [exact Hw|].
    exact (Hphonopy phonopy_file phonopy_data _ _ phonopy_file_data H0 H1 Hw).
Defined.

(* ================================================================== *)
(** ** [np.argsort] *)

Lemma insert_index_perm (a : list num) (i : nat) (l : list nat) :
  Permutation (insert_index a i l) (i :: l).
Proof.
  induction l as [|j l IH]; simpl; [reflexivity|].
  destruct (sorts_before (nth i a NaN) (nth j a NaN)); [reflexivity|].
  rewrite IH. apply perm_swap.
Qed.

Lemma fold_insert_perm (a : list num) (ks acc : list nat) :
  Permutation (fold_left (fun sorted i => insert_index a i sorted) ks acc)
              (acc ++ ks).
Proof.
  revert acc. induction ks as [|i ks IH]; intros acc; simpl.
  - rewrite app_nil_r. reflexivity.
  - rewrite IH, insert_index_perm. simpl. apply Permutation_middle.
Qed.

Lemma sorted_indices_perm (a : list num) :
  Permutation (sorted_indices a) (seq 0 (length a)).
Proof. unfold sorted_indices. apply (fold_insert_perm a _ []). Qed.

Lemma ngtb_asym (a b : num) : ngtb a b = true -> ngtb b a = false.
Proof.
  destruct a, b; simpl; try reflexivity; try discriminate.
  destruct (Rlt_dec r0 r); [|discriminate]. intros _.
  destruct (Rlt_dec r r0); [lra|reflexivity].
Qed.

Lemma sorts_before_not_above (a b : num) :
  sorts_before a b = true -> ngtb a b = false.
Proof.
  unfold sorts_before. intros H. apply orb_true_iff in H. destruct H as [H|H].
  - apply ngtb_asym. exact H.
  - destruct b; try discriminate. destruct a; reflexivity.
Qed.

Lemma not_sorts_before (a b : num) :
  sorts_before a b = false -> ngtb b a = false.
Proof.
  unfold sorts_before. intros H. apply orb_false_iff in H. exact (proj1 H).
Qed.

Lemma insert_index_hd (a : list num) (i k : nat) (l : list nat) :
  not_above a k i -> HdRel (not_above a) k l ->
  HdRel (not_above a) k (insert_index a i l).
Proof.
  intros Hki Hl. destruct l as [|j l]; simpl.
  - constructor. assumption.
  - destruct (sorts_before (nth i a NaN) (nth j a NaN)); constructor;
      [assumption|inversion Hl; assumption].
Qed.

Lemma insert_index_sorted (a : list num) (i : nat) (l : list nat) :
  Sorted (not_above a) l -> Sorted (not_above a) (insert_index a i l).
Proof.
  induction l as [|j l IH]; intros H; simpl.
  - repeat constructor.
  - inversion H as [|? ? Hs Hh]; subst.
    destruct (sorts_before (nth i a NaN) (nth j a NaN)) eqn:E.
    + constructor; [assumption|]. constructor. unfold not_above.
      apply sorts_before_not_above. exact E.
    + constructor; [apply IH; assumption|].
      apply insert_index_hd; [|assumption].
      unfold not_above. apply not_sorts_before. exact E.
Qed.

Lemma sorted_indices_sorted (a : list num) :
  Sorted (not_above a) (sorted_indices a).
Proof.
  unfold sorted_indices.
  assert (H : forall ks acc, Sorted (not_above a) acc ->
            Sorted (not_above a)
              (fold_left (fun sorted i => insert_index a i sorted) ks acc)).
  { induction ks as [|i ks IH]; intros acc Hacc; simpl; [assumption|].
    apply IH. apply insert_index_sorted. assumption. }
  apply H. constructor.
Qed.

Lemma sorted_adjacent (a : list num) (l : list nat) :
  Sorted (not_above a) l ->
  forall j, j + 1 < length l -> not_above a (nth j l 0) (nth (j + 1) l 0).
Proof.
  induction 1 as [|k l Hs IH Hh]; intros j Hj; simpl in Hj; [lia|].
  destruct j as [|j].
  - destruct l as [|k' l]; simpl in *; [lia|]. inversion Hh. assumption.
  - apply IH. simpl in Hj. lia.
Qed.

(** The values taken in the order of [argsort] ascend. *)
Lemma argsort_ascending (a : list num) :
  ascending (map (fun i => nth i a NaN) (sorted_indices a)).
Proof.
  intros j Hj. rewrite length_map in Hj.
  rewrite !(nth_map_any (fun i => nth i a NaN) _ 0) by lia.
  apply (sorted_adjacent a _ (sorted_indices_sorted a) j Hj).
Qed.

Lemma sorted_indices_length (a : list num) :
  length (sorted_indices a) = length a.
Proof.
  rewrite (Permutation_length (sorted_indices_perm a)). apply length_seq.
Qed.

(** Fancy indexing by [argsort a] raises nothing on an array as long as [a]. *)
Lemma take_argsort (a b : list num) :
  length b = length a ->
  np.take b (argsort a) = Ok (map (fun i => nth i b NaN) (sorted_indices a)).
Proof.
  intros Hlen. unfold argsort. rewrite take_ok.
  - rewrite map_map. f_equal. apply map_ext. intros i.
    rewrite Nat2Z.id. reflexivity.
  - intros z Hz. apply in_map_iff in Hz. destruct Hz as [i [<- Hi]].
    apply (Permutation_in _ (sorted_indices_perm a)) in Hi.
    apply in_seq in Hi. unfold len. lia.
Qed.

(* ================================================================== *)
(** ** The coupling-parameter pipeline *)

Lemma nth_last_num (l : list num) : nth (length l - 1) l NaN = last l NaN.
Proof.
  induction l as [|a l IH]; [reflexivity|].
  destruct l as [|b l]; [reflexivity|].
  replace (length (a :: b :: l) - 1) with (S (length (b :: l) - 1))
    by (simpl; lia).
  change (nth (S (length (b :: l) - 1)) (a :: b :: l) NaN)
    with (nth (length (b :: l) - 1) (b :: l) NaN).
  rewrite IH. reflexivity.
Qed.

Lemma getitem_last_num (l : list num) :
  0 < length l -> getitem l (-1) = Ok (last l NaN).
Proof. intros H. rewrite getitem_last by assumption. rewrite nth_last_num. reflexivity. Qed.

Lemma intgrt_lengths (x y I err : list num) :
  intgrt x y = Ok (I, err) -> length x = length y ->
  0 < length I /\ 0 < length err.
Proof.
  intros H Hlen. rewrite (intgrt_ok x y Hlen) in H.
  injection H as <- <-. simpl. lia.
Qed.

(** The pipeline, once the loop over the subfolders has produced [rows]. *)
Lemma integrated_ff_2_dft_ok (subf : list (num * potentials)) (nmols : num)
      (rows : list (num * num * num)) :
  mapM (ff_2_dft_step nmols) subf = Ok rows ->
  2 <= length rows ->
  let idx := sorted_indices (map snd rows) in
  let lam := map (fun i => nth i (map snd rows) NaN) idx in
  let du := map (fun i => nth i (map (fun r => snd (fst r)) rows) NaN) idx in
  let du_err := map (fun i => nth i (map (fun r => fst (fst r)) rows) NaN) idx in
  exists g I err I_md err_md,
    np.gradient lam = Ok g /\
    intgrt lam (map (fun v => ndiv v (np.mean g)) du) = Ok (I, err) /\
    intgrt lam (map (fun v => ndiv v (np.mean g)) du_err) = Ok (I_md, err_md) /\
    integrated_ff_2_dft subf nmols = Ok (I, I_md, err).
Proof.
  intros Hrows Hlen idx lam du du_err.
  assert (Hidx : length idx = length rows).
  { unfold idx. rewrite sorted_indices_length, length_map. reflexivity. }
  assert (Hlam : length lam = length rows)
    by (unfold lam; rewrite length_map; exact Hidx).
  assert (Hg : np.gradient lam
               = Ok (map (np.gradient_at lam) (seq 0 (length lam))))
    by (apply gradient_ok; lia).
  set (g := map (np.gradient_at lam) (seq 0 (length lam))) in *.
  assert (H1 : length lam = length (map (fun v => ndiv v (np.mean g)) du))
    by (unfold du; rewrite !length_map; lia).
  assert (H2 : length lam = length (map (fun v => ndiv v (np.mean g)) du_err))
    by (unfold du_err; rewrite !length_map; lia).
  pose proof (intgrt_ok lam _ H1) as E1.
  pose proof (intgrt_ok lam _ H2) as E2.
  eexists g. eexists. eexists. eexists. eexists.
  split; [exact Hg|]. split; [exact E1|]. split; [exact E2|].
  unfold integrated_ff_2_dft. rewrite Hrows. cbn [bind]. cbv zeta.
  rewrite !take_argsort by (rewrite !length_map; reflexivity).
  cbn [bind]. fold idx. fold lam. fold du. fold du_err.
  rewrite Hg. cbn [bind]. rewrite E1. cbn [bind]. rewrite E2. cbn [bind fst snd].
  reflexivity.
Qed.

Lemma step_constant_run (lam : num) (a b n : R) :
  n <> 0%R ->
  ff_2_dft_step (Fin n) (lam, constant_run a b)
  = Ok (Fin ((0 + 0) / 2), Fin ((0 + (b - a) + (b - a)) / 2 / n), lam).
Proof.
  intros Hn. unfold ff_2_dft_step, ipi_to_two_potentials, constant_run.
  cbn [snd fst pot_1 pot_2 time].
  rewrite (error_from_u_constant a 2 (le_n 2) : _error_from_u [Fin a; Fin a] = _).
  cbn [bind].
  rewrite (error_from_u_constant b 2 (le_n 2) : _error_from_u [Fin b; Fin b] = _).
  cbn [bind]. unfold np.mean, of_Z, len.
  cbn -[Rplus Rminus Rmult Rdiv IZR ndiv].
  rewrite !ndiv_fin by (try assumption; lra). reflexivity.
Qed.

Lemma coupling_rows :
  mapM (ff_2_dft_step (Fin 1)) coupling_sample = Ok coupling_sample_rows.
Proof.
  unfold coupling_sample. cbn [mapM].
  rewrite !step_constant_run by lra. reflexivity.
Qed.

Lemma coupling_sample_integrals :
  integrated_ff_2_dft coupling_sample (Fin 1) =
    Ok ([Fin 0; Fin (1 / 2); Fin (3 / 2)], [Fin 0; Fin 0; Fin 0],
        [Fin 0; Fin 0; Fin (- (1 / 27))]).
Proof.
  unfold integrated_ff_2_dft. rewrite coupling_rows. unfold coupling_sample_rows.
  cbn [bind map fst snd].
  rewrite !take_argsort by reflexivity.
  num_compute. num_eq.
Qed.

(** C8, counterexample.  With lambda 0, 1, 2 and energy differences
    0, 1, 1 the truncation-error sequence ends at [-1/27]; the record
    reports [1/27], its absolute value, not the final value itself. *)
Lemma C8_counterexample :
  integrated_ff_2_dft coupling_sample (Fin 1) =
    Ok ([Fin 0; Fin (1 / 2); Fin (3 / 2)], [Fin 0; Fin 0; Fin 0],
        [Fin 0; Fin 0; Fin (- (1 / 27))]) /\
  fe_sample_init coupling_sample (Fin 1) =
    Ok {| F_ff_dft := Fin (3 / 2);
          F_ff_dft_err_md := Fin 0;
          F_ff_dft_err_int := Fin (1 / 27) |} /\
  Fin (1 / 27) <> last [Fin 0; Fin 0; Fin (- (1 / 27))] NaN.
Proof.
  split; [exact coupling_sample_integrals|]. split.
  - unfold fe_sample_init. rewrite coupling_sample_integrals.
    num_compute. f_equal. f_equal; num_eq.
  - simpl. intros H. apply Fin_inj in H. lra.
Qed.

(** C8, as amended.  The pipeline takes the per-lambda values in the order
    of [argsort]: a permutation under which lambda ascends.  It integrates
    the energy differences over [mean(gradient(lambda))] along lambda with
    [intgrt], keeping the integral and its truncation error, and the
    averaged errors the same way, keeping that integral.  The record holds
    the last value of the first integral, and the absolute values of the
    last value of the second integral and of the last truncation error. *)
Theorem C8_coupling_pipeline (subf : list (num * potentials)) (nmols : num)
        (rows : list (num * num * num)) :
  mapM (ff_2_dft_step nmols) subf = Ok rows ->
  2 <= length rows ->
  exists (idx : list nat) (lam du du_err g I err I_md err_md : list num),
    Permutation idx (seq 0 (length rows)) /\
    lam = map (fun i => nth i (map snd rows) NaN) idx /\
    du = map (fun i => nth i (map (fun r => snd (fst r)) rows) NaN) idx /\
    du_err = map (fun i => nth i (map (fun r => fst (fst r)) rows) NaN) idx /\
    ascending lam /\
    np.gradient lam = Ok g /\
    intgrt lam (map (fun v => ndiv v (np.mean g)) du) = Ok (I, err) /\
    intgrt lam (map (fun v => ndiv v (np.mean g)) du_err) = Ok (I_md, err_md) /\
    fe_sample_init subf nmols =
      Ok {| F_ff_dft := last I NaN;
            F_ff_dft_err_md := nabs (last I_md NaN);
            F_ff_dft_err_int := nabs (last err NaN) |}.
Proof.
  intros Hrows Hlen.
  destruct (integrated_ff_2_dft_ok subf nmols rows Hrows Hlen)
    as [g [I [err [I_md [err_md [Hg [E1 [E2 Hint]]]]]]]].
  exists (sorted_indices (map snd rows)).
  eexists. eexists. eexists. exists g, I, err, I_md, err_md.
  split.
  { rewrite <- (length_map snd rows). apply sorted_indices_perm. }
  split; [reflexivity|]. split; [reflexivity|]. split; [reflexivity|].
  split; [apply argsort_ascending|].
  split; [exact Hg|]. split; [exact E1|]. split; [exact E2|].
  assert (Hl : length (sorted_indices (map snd rows)) = length rows)
    by (rewrite sorted_indices_length, length_map; reflexivity).
  destruct (intgrt_lengths _ _ _ _ E1) as [HI Herr];
    [rewrite !length_map; reflexivity|].
  destruct (intgrt_lengths _ _ _ _ E2) as [HImd _];
    [rewrite !length_map; reflexivity|].
  unfold fe_sample_init. rewrite Hint. cbn [bind].
  rewrite !getitem_last_num by assumption. reflexivity.
Qed.

Lemma C8_witness :
  mapM (ff_2_dft_step (Fin 1)) coupling_sample = Ok coupling_sample_rows /\
  2 <= length coupling_sample_rows /\
  exists (idx : list nat) (lam du du_err g I err I_md err_md : list num),
    Permutation idx (seq 0 (length coupling_sample_rows)) /\
    lam = map (fun i => nth i (map snd coupling_sample_rows) NaN) idx /\
    du = map (fun i => nth i (map (fun r => snd (fst r)) coupling_sample_rows)
                           NaN) idx /\
    du_err = map (fun i => nth i (map (fun r => fst (fst r)) coupling_sample_rows)
                               NaN) idx /\
    ascending lam /\
    np.gradient lam = Ok g /\
    intgrt lam (map (fun v => ndiv v (np.mean g)) du) = Ok (I, err) /\
    intgrt lam (map (fun v => ndiv v (np.mean g)) du_err) = Ok (I_md, err_md) /\
    fe_sample_init coupling_sample (Fin 1) =
      Ok {| F_ff_dft := last I NaN;
            F_ff_dft_err_md := nabs (last I_md NaN);
            F_ff_dft_err_int := nabs (last err NaN) |}.
Proof.
  assert (Hlen : 2 <= length coupling_sample_rows) by (simpl; lia).
  split; [exact coupling_rows|]. split; [exact Hlen|].
  exact (C8_coupling_pipeline coupling_sample (Fin 1) coupling_sample_rows
           coupling_rows Hlen).
Defined.

(* ================================================================== *)
(** ** [intgrt]: shape, special values and length mismatches *)

Lemma intgrt_loop_shape (x y : list num) :
  forall rng I err I' err',
    intgrt_loop x y rng I err = Ok (I', err') ->
    exists tI tE, I' = I ++ tI /\ err' = err ++ tE /\
                  length tI = length rng /\ length tE = length rng.
Proof.
  induction rng as [|i rng IH]; intros I err I' err' H; simpl in H.
  - injection H as <- <-. exists [], []. rewrite !app_nil_r. auto.
  - destruct (intgrt_step x y i) as [r|e]; [|discriminate]. cbn [bind] in H.
    destruct (IH _ _ _ _ H) as [tI [tE [-> [-> [HI HE]]]]].
    exists (fst r :: tI), (snd r :: tE).
    rewrite <- !app_assoc. simpl. auto.
Qed.

Lemma intgrt_result_shape (x y I err : list num) :
  intgrt x y = Ok (I, err) ->
  length I = Nat.max 1 (length x) /\ length err = Nat.max 1 (length x) /\
  nth 0 I NaN = Fin 0 /\ nth 0 err NaN = Fin 0.
Proof.
  intros H. unfold intgrt in H.
  destruct (intgrt_loop_shape x y _ _ _ _ _ H) as [tI [tE [-> [-> [HI HE]]]]].
  rewrite length_seq in HI, HE. cbn [app length nth]. repeat split; lia.
Qed.

(** X1.  Whenever [intgrt] returns, whatever the ordinates, both sequences
    have [max(1, len(x))] elements and start with 0. *)
Theorem intgrt_shape (x y I err : list num) :
  intgrt x y = Ok (I, err) ->
  length I = Nat.max 1 (length x) /\ length err = Nat.max 1 (length x) /\
  nth 0 I NaN = Fin 0 /\ nth 0 err NaN = Fin 0.
Proof.
  intros H. unfold intgrt in H.
  destruct (intgrt_loop_shape x y _ _ _ _ _ H) as [tI [tE [-> [-> [HI HE]]]]].
  rewrite length_seq in HI, HE. cbn [app length nth]. repeat split; lia.
Qed.

Lemma intgrt_shape_witness :
  intgrt x_sample y_sample
    = Ok (Fin 0 :: map (trapezoid_rule x_sample y_sample) (seq 1 2),
          Fin 0 :: map (fun i => nmul (error_factor x_sample)
                          (nsub (np.gradient_at (upto (i + 1) y_sample) i)
                                (np.gradient_at (upto (i + 1) y_sample) 0)))
                       (seq 1 2)) /\
  length (Fin 0 :: map (trapezoid_rule x_sample y_sample) (seq 1 2))
    = Nat.max 1 (length x_sample).
Proof.
  assert (H := intgrt_ok x_sample y_sample eq_refl).
  split; [exact H|]. exact (proj1 (intgrt_shape _ _ _ _ H)).
Defined.

Lemma intgrt_loop_ext (x y y' : list num) :
  forall rng I err,
    (forall i, In i rng -> intgrt_step x y i = intgrt_step x y' i) ->
    intgrt_loop x y rng I err = intgrt_loop x y' rng I err.
Proof.
  induction rng as [|i rng IH]; intros I err H; simpl; [reflexivity|].
  rewrite (H i) by (left; reflexivity).
  destruct (intgrt_step x y' i); [|reflexivity]. cbn [bind].
  apply IH. intros; apply H; right; assumption.
Qed.

(** X2.  Ordinates beyond the length of [x] are never read: [intgrt] gives
    the same result, value or exception, on [y] and on [y[:len(x)]]. *)
Theorem intgrt_ignores_extra_ordinates (x y : list num) :
  length x <= length y ->
  intgrt x y = intgrt x (upto (length x) y).
Proof.
  intros Hlen. unfold intgrt. apply intgrt_loop_ext.
  intros i Hi. apply in_seq in Hi. unfold intgrt_step, upto.
  rewrite firstn_firstn. replace (Nat.min (i + 1) (length x)) with (i + 1) by lia.
  reflexivity.
Qed.

Lemma intgrt_ignores_extra_ordinates_witness :
  length x_sample <= length (y_sample ++ [NaN; PInf]) /\
  intgrt x_sample (y_sample ++ [NaN; PInf])
    = intgrt x_sample (upto (length x_sample) (y_sample ++ [NaN; PInf])).
Proof.
  assert (H : length x_sample <= length (y_sample ++ [NaN; PInf]))
    by (simpl; lia).
  split; [exact H|]. exact (intgrt_ignores_extra_ordinates _ _ H).
Defined.

Lemma broadcast_only_value_error f (a b : list num) (e : exn) :
  np.broadcast f a b = Raise e -> e = ValueError.
Proof.
  unfold np.broadcast. destruct (Nat.eqb (length a) (length b)); [discriminate|].
  destruct a as [|x [|x' a]]; destruct b as [|y [|y' b]];
    try discriminate; intros [= <-]; reflexivity.
Qed.

Lemma broadcast_mismatch f (a b : list num) :
  length a <> length b -> length a <> 1 -> length b <> 1 ->
  np.broadcast f a b = Raise ValueError.
Proof.
  intros Hab Ha Hb. unfold np.broadcast.
  destruct (Nat.eqb_spec (length a) (length b)); [contradiction|].
  destruct a as [|x [|x' a]]; destruct b as [|y [|y' b]];
    simpl in *; try reflexivity; try lia.
Qed.

Lemma broadcast_scalar_right f (a : list num) (y : num) :
  length a <> 1 -> np.broadcast f a [y] = Ok (map (fun x => f x y) a).
Proof.
  intros Ha. unfold np.broadcast.
  destruct (Nat.eqb_spec (length a) (length [y])); [simpl in *; lia|].
  destruct a as [|x [|x' a]]; simpl in *; try reflexivity; lia.
Qed.

Lemma intgrt_step_only_value_error (x y : list num) (i : nat) (e : exn) :
  0 < length x -> intgrt_step x y i = Raise e -> e = ValueError.
Proof.
  intros Hx. unfold intgrt_step, np.trapz.
  destruct (np.broadcast nmul _ _) as [p|e'] eqn:Eb; cbn [bind].
  2:{ intros [= <-]. exact (broadcast_only_value_error _ _ _ _ Eb). }
  unfold np.gradient.
  destruct (Nat.ltb_spec (length (upto (i + 1) y)) 2) as [Hs|Hs]; cbn [bind].
  { intros [= <-]. reflexivity. }
  rewrite getitem_last by assumption. cbn [bind].
  rewrite getitem_first by assumption. cbn [bind].
  rewrite getitem_last by (rewrite length_map, length_seq; lia). cbn [bind].
  rewrite getitem_first by (rewrite length_map, length_seq; lia). cbn [bind].
  discriminate.
Qed.

Lemma intgrt_loop_raises (x y : list num) :
  forall rng I err i,
    (forall j e, In j rng -> intgrt_step x y j = Raise e -> e = ValueError) ->
    In i rng -> intgrt_step x y i = Raise ValueError ->
    intgrt_loop x y rng I err = Raise ValueError.
Proof.
  induction rng as [|j rng IH]; intros I err i Hall Hin Hi; [contradiction|].
  simpl. destruct (intgrt_step x y j) as [r|e] eqn:Ej; cbn [bind].
  - destruct Hin as [->|Hin]; [rewrite Hi in Ej; discriminate|].
    apply (IH _ _ i); [|assumption|assumption].
    intros k e Hk. apply Hall. right. assumption.
  - f_equal. apply (Hall j e); [left; reflexivity|assumption].
Qed.

(** The iteration at which too few ordinates show: the first one when [y]
    has fewer than two elements, the one that asks for [y[len(y)]] when it
    has three or more. *)
Lemma intgrt_step_short (x y : list num) :
  length y < length x -> length y <> 2 ->
  intgrt_step x y (Nat.max 1 (length y)) = Raise ValueError.
Proof.
  intros Hlt H2. unfold intgrt_step.
  destruct (Nat.le_gt_cases (length y) 1) as [Hs|Hs].
  - replace (Nat.max 1 (length y)) with 1 by lia.
    destruct (np.trapz _ _) as [t|e] eqn:Et; cbn [bind].
    + unfold np.gradient.
      destruct (Nat.ltb_spec (length (upto (1 + 1) y)) 2) as [_|Hl];
        [reflexivity|]. unfold upto in Hl. rewrite length_firstn in Hl. lia.
    + f_equal. unfold np.trapz in Et.
      destruct (np.broadcast nmul _ _) eqn:Eb; [discriminate|].
      injection Et as <-. exact (broadcast_only_value_error _ _ _ _ Eb).
  - replace (Nat.max 1 (length y)) with (length y) by lia.
    unfold np.trapz. rewrite broadcast_mismatch; [reflexivity| | |];
      rewrite ?diff_length, ?zip_with_length; unfold from, upto;
      rewrite ?length_skipn, ?butlast_length, ?length_firstn; lia.
Qed.

(** X3.  When [y] is shorter than [x] and does not have exactly two
    elements, [intgrt] raises [ValueError]. *)
Theorem intgrt_short_ordinates_raise (x y : list num) :
  length y < length x -> 2 <= length x -> length y <> 2 ->
  intgrt x y = Raise ValueError.
Proof.
  intros Hlt Hx H2. unfold intgrt.
  apply (intgrt_loop_raises x y _ _ _ (Nat.max 1 (length y))).
  - intros j e _. apply intgrt_step_only_value_error. lia.
  - apply in_seq. lia.
  - apply intgrt_step_short; assumption.
Qed.

Lemma intgrt_short_ordinates_raise_witness :
  length [Fin 1; Fin 2; Fin 3] < length [Fin 0; Fin 1; Fin 2; Fin 3] /\
  2 <= length [Fin 0; Fin 1; Fin 2; Fin 3] /\
  length [Fin 1; Fin 2; Fin 3] <> 2 /\
  intgrt [Fin 0; Fin 1; Fin 2; Fin 3] [Fin 1; Fin 2; Fin 3] = Raise ValueError.
Proof.
  assert (H1 : length [Fin 1; Fin 2; Fin 3] < length [Fin 0; Fin 1; Fin 2; Fin 3])
    by (simpl; lia).
  assert (H2 : 2 <= length [Fin 0; Fin 1; Fin 2; Fin 3]) by (simpl; lia).
  assert (H3 : length [Fin 1; Fin 2; Fin 3] <> 2) by (simpl; lia).
  split; [exact H1|]. split; [exact H2|]. split; [exact H3|].
  exact (intgrt_short_ordinates_raise _ _ H1 H2 H3).
Defined.

(** With two ordinates every iteration goes through: past the second one
    the single sum [y[1] + y[0]] is broadcast over the steps of [x]. *)
Lemma intgrt_step_two_ordinates (x : list num) (y0 y1 : num) (i : nat) :
  1 <= i < length x ->
  exists r, intgrt_step x [y0; y1] i = Ok r.
Proof.
  intros Hi. unfold intgrt_step, np.trapz.
  assert (Hy : upto (i + 1) [y0; y1] = [y0; y1]).
  { unfold upto. apply firstn_all2. simpl. lia. }
  rewrite Hy. cbn [from skipn butlast removelast np.zip_with].
  destruct (Nat.eq_dec i 1) as [->|Hne].
  - unfold np.broadcast.
    replace (length (np.diff (upto (1 + 1) x))) with 1
      by (rewrite diff_length, upto_length; lia).
    cbn [length Nat.eqb bind np.gradient Nat.ltb Nat.leb].
    rewrite getitem_last by lia. cbn [bind].
    rewrite getitem_first by lia. cbn [bind].
    eexists. reflexivity.
  - rewrite broadcast_scalar_right
      by (rewrite diff_length, upto_length; lia).
    cbn [length bind np.gradient Nat.ltb Nat.leb].
    rewrite getitem_last by lia. cbn [bind].
    rewrite getitem_first by lia. cbn [bind].
    eexists. reflexivity.
Qed.

Lemma intgrt_loop_total (x y : list num) :
  forall rng I err,
    (forall i, In i rng -> exists r, intgrt_step x y i = Ok r) ->
    exists I' err', intgrt_loop x y rng I err = Ok (I', err').
Proof.
  induction rng as [|i rng IH]; intros I err H; simpl.
  - eexists. eexists. reflexivity.
  - destruct (H i (or_introl eq_refl)) as [r ->]. cbn [bind].
    apply IH. intros; apply H; right; assumption.
Qed.

(** X4.  A [y] of exactly two elements is accepted with an [x] of any
    length: the length mismatch raises nothing. *)
Theorem intgrt_two_ordinates_accepted (x : list num) (y0 y1 : num) :
  2 <= length x ->
  exists I err, intgrt x [y0; y1] = Ok (I, err) /\
                length I = length x /\ length err = length x.
Proof.
  intros Hx.
  destruct (intgrt_loop_total x [y0; y1] (seq 1 (length x - 1)) [Fin 0] [Fin 0])
    as [I [err H]].
  { intros i Hi. apply in_seq in Hi. apply intgrt_step_two_ordinates. lia. }
  exists I, err. split; [exact H|].
  destruct (intgrt_result_shape _ _ _ _ H) as [HI [HE _]]. lia.
Qed.

Lemma intgrt_two_ordinates_accepted_witness :
  2 <= length [Fin 0; Fin 1; Fin 2; Fin 3] /\
  exists I err,
    intgrt [Fin 0; Fin 1; Fin 2; Fin 3] [Fin 5; Fin 7] = Ok (I, err) /\
    length I = length [Fin 0; Fin 1; Fin 2; Fin 3] /\
    length err = length [Fin 0; Fin 1; Fin 2; Fin 3].
Proof.
  assert (H : 2 <= length [Fin 0; Fin 1; Fin 2; Fin 3]) by (simpl; lia).
  split; [exact H|]. exact (intgrt_two_ordinates_accepted _ (Fin 5) (Fin 7) H).
Defined.

(* ================================================================== *)
(** ** [intgrt] on inputs without special values *)

Lemma nth_Fin (xs : list R) (j : nat) :
  j < length xs -> nth j (map Fin xs) NaN = Fin (nth j xs 0%R).
Proof. apply (nth_map_num Fin). Qed.

Lemma sum_upto_fin (f : nat -> num) (g : nat -> R) (k : nat) :
  (forall j, j < k -> f j = Fin (g j)) -> sum_upto f k = Fin (Rsum_upto g k).
Proof.
  induction k as [|k IH]; intros H; simpl; [reflexivity|].
  rewrite IH, H by (intros; try apply H; lia). reflexivity.
Qed.

Lemma Rsum_upto_ext (f g : nat -> R) (k : nat) :
  (forall j, j < k -> f j = g j) -> Rsum_upto f k = Rsum_upto g k.
Proof.
  induction k as [|k IH]; intros H; simpl; [reflexivity|].
  rewrite IH, H by (intros; try apply H; lia). reflexivity.
Qed.

Lemma trapezoid_rule_fin (xs ys : list R) (k : nat) :
  k < length xs -> k < length ys ->
  trapezoid_rule (map Fin xs) (map Fin ys) k = Fin (Rtrapezoid xs ys k).
Proof.
  intros Hx Hy. unfold trapezoid_rule, Rtrapezoid. apply sum_upto_fin.
  intros j Hj. unfold trapezoid_term. rewrite !nth_Fin by lia.
  cbn [nsub nadd nmul]. apply ndiv_fin. lra.
Qed.

Lemma gradient_at_fin (ys : list R) (i : nat) :
  2 <= length ys -> i < length ys ->
  np.gradient_at (map Fin ys) i = Fin (Rgradient_at ys i).
Proof.
  intros Hn Hi. unfold np.gradient_at, Rgradient_at. rewrite length_map.
  destruct (Nat.eqb i 0); [|destruct (Nat.eqb_spec i (length ys - 1))];
    rewrite !nth_Fin by lia; cbn [nsub]; try reflexivity.
  apply ndiv_fin. lra.
Qed.

Lemma upto_map_Fin (n : nat) (ys : list R) :
  upto n (map Fin ys) = map Fin (firstn n ys).
Proof. unfold upto. apply firstn_map. Qed.

Lemma error_factor_Fin (xs : list R) :
  1 <= length xs -> error_factor (map Fin xs) = Fin (Rerror_factor xs).
Proof.
  intros H. unfold error_factor, Rerror_factor. rewrite length_map.
  rewrite !nth_Fin by lia. cbn [nsub nsqr nmul]. unfold of_Z.
  apply ndiv_fin. apply not_0_IZR. rewrite Z.pow_2_r.
  assert (0 < Z.of_nat (length xs) * Z.of_nat (length xs))%Z
    by (apply Z.mul_pos_pos; lia).
  lia.
Qed.

(** The two sequences on finite inputs of equal length, in real numbers. *)
Lemma intgrt_fin (xs ys : list R) :
  length xs = length ys ->
  intgrt (map Fin xs) (map Fin ys) =
    Ok (map Fin (0%R :: map (Rtrapezoid xs ys) (seq 1 (length xs - 1))),
        map Fin (0%R :: map (fun i =>
                    (Rerror_factor xs
                     * (Rgradient_at (firstn (i + 1) ys) i
                        - Rgradient_at (firstn (i + 1) ys) 0))%R)
                  (seq 1 (length xs - 1)))).
Proof.
  intros Hlen. rewrite intgrt_ok by (rewrite !length_map; assumption).
  rewrite length_map. cbn [map]. rewrite !map_map. f_equal. f_equal.
  - f_equal. apply map_ext_in. intros i Hi. apply in_seq in Hi.
    apply trapezoid_rule_fin; lia.
  - f_equal. apply map_ext_in. intros i Hi. apply in_seq in Hi.
    rewrite error_factor_Fin by lia. rewrite upto_map_Fin.
    assert (Hp : length (firstn (i + 1) ys) = i + 1)
      by (rewrite length_firstn; lia).
    rewrite !gradient_at_fin by lia. reflexivity.
Qed.

(** X5.  On finite inputs of equal length [intgrt] raises nothing and both
    sequences are finite: no [nan] and no infinity comes out. *)
Theorem intgrt_finite (x y : list num) :
  length x = length y -> Forall is_fin x -> Forall is_fin y ->
  exists I err, intgrt x y = Ok (I, err) /\ Forall is_fin I /\ Forall is_fin err.
Proof.
  intros Hlen Hx Hy.
  assert (Hfin : forall l, Forall is_fin l -> exists rs, l = map Fin rs).
  { induction l as [|a l IH]; intros H; [exists []; reflexivity|].
    inversion H as [|? ? Ha Hl]; subst.
    destruct (is_fin_inv a Ha) as [r ->]. destruct (IH Hl) as [rs ->].
    exists (r :: rs). reflexivity. }
  destruct (Hfin x Hx) as [xs ->]. destruct (Hfin y Hy) as [ys ->].
  rewrite !length_map in Hlen. rewrite (intgrt_fin xs ys Hlen).
  eexists. eexists. split; [reflexivity|].
  split; apply Forall_forall; intros a Ha; apply in_map_iff in Ha;
    destruct Ha as [r [<- _]]; exact I.
Qed.

Lemma intgrt_finite_witness :
  length x_sample = length y_sample /\
  Forall is_fin x_sample /\ Forall is_fin y_sample /\
  exists I err, intgrt x_sample y_sample = Ok (I, err) /\
                Forall is_fin I /\ Forall is_fin err.
Proof.
  assert (Hx : Forall is_fin x_sample) by (repeat constructor).
  assert (Hy : Forall is_fin y_sample) by (repeat constructor).
  split; [reflexivity|]. split; [exact Hx|]. split; [exact Hy|].
  exact (intgrt_finite x_sample y_sample eq_refl Hx Hy).
Defined.






Lemma nth_map_R (f : R -> R) (xs : list R) (j : nat) :
  j < length xs -> nth j (map f xs) 0%R = f (nth j xs 0%R).
Proof.
  intros H. rewrite (nth_indep _ 0%R (f 0%R)) by (rewrite length_map; lia).
  apply map_nth.
Qed.

(** The trapezoid rule is exact on a straight line, whatever the steps. *)
Lemma Rtrapezoid_linear (a b : R) (xs : list R) (k : nat) :
  k < length xs ->
  Rtrapezoid xs (map (fun v => a * v + b)%R xs) k
  = (a / 2 * (nth k xs 0 * nth k xs 0 - nth 0 xs 0 * nth 0 xs 0)
     + b * (nth k xs 0 - nth 0 xs 0))%R.
Proof.
  unfold Rtrapezoid. induction k as [|k IH]; intros Hk; simpl.
  - field.
  - rewrite IH by lia. rewrite !nth_map_R by lia.
    replace (k + 1) with (S k) by lia. field.
Qed.

(** X7.  For ordinates [y = a*x + b] over any finite abscissas, equally
    spaced or not, the integral sequence is the exact integral:
    [I[k] = a/2*(x[k]^2 - x[0]^2) + b*(x[k] - x[0])]. *)
Theorem intgrt_linear_exact (xs : list R) (a b : R) :
  exists I err,
    intgrt (map Fin xs) (linear a b xs) = Ok (I, err) /\
    forall k, k < length xs ->
      nth k I NaN
      = Fin (a / 2 * (nth k xs 0 * nth k xs 0 - nth 0 xs 0 * nth 0 xs 0)
             + b * (nth k xs 0 - nth 0 xs 0))%R.
Proof.
  unfold linear.
  replace (map (fun v => Fin (a * v + b)) xs)
    with (map Fin (map (fun v => a * v + b)%R xs))
    by (rewrite map_map; reflexivity).
  rewrite intgrt_fin by (rewrite length_map; reflexivity).
  eexists. eexists. split; [reflexivity|]. intros k Hk.
  rewrite nth_Fin by (cbn [length]; rewrite length_map, length_seq; lia).
  f_equal. rewrite <- Rtrapezoid_linear by assumption.
  destruct k as [|k]; [reflexivity|]. cbn [nth].
  rewrite (nth_indep _ 0%R
             (Rtrapezoid xs (map (fun v => a * v + b)%R xs) 0))
    by (rewrite length_map, length_seq; lia).
  rewrite map_nth, seq_nth by lia. reflexivity.
Qed.

Lemma firstn_seq_min (m s n : nat) : firstn m (seq s n) = seq s (Nat.min m n).
Proof.
  revert s n. induction m as [|m IH]; intros s [|n]; simpl; try reflexivity.
  f_equal. apply IH.
Qed.

Lemma trapezoid_rule_prefix (x y : list num) (m k : nat) :
  k < m -> trapezoid_rule (upto m x) (upto m y) k = trapezoid_rule x y k.
Proof.
  intros Hk. unfold trapezoid_rule. apply sum_upto_ext. intros j Hj.
  unfold trapezoid_term. rewrite !nth_upto by lia. reflexivity.
Qed.

(** X8.  The integral sequence is cumulative: integrating the first [m]
    points gives the first [m] values of the integral over all points. *)
Theorem intgrt_integral_prefix (x y : list num) (m : nat) :
  length x = length y -> 1 <= m <= length x ->
  exists I err I' err',
    intgrt x y = Ok (I, err) /\
    intgrt (upto m x) (upto m y) = Ok (I', err') /\
    I' = upto m I.
Proof.
  intros Hlen Hm.
  assert (Hx : length (upto m x) = m) by (apply upto_length; lia).
  assert (Hy : length (upto m y) = m) by (apply upto_length; lia).
  rewrite (intgrt_ok x y Hlen).
  rewrite (intgrt_ok (upto m x) (upto m y)) by lia.
  eexists. eexists. eexists. eexists.
  split; [reflexivity|]. split; [reflexivity|].
  rewrite Hx. unfold upto at 3. destruct m as [|m]; [lia|].
  cbn [firstn]. f_equal. rewrite firstn_map, firstn_seq_min.
  replace (Nat.min m (length x - 1)) with (S m - 1) by lia.
  apply map_ext_in. intros k Hk. apply in_seq in Hk.
  apply trapezoid_rule_prefix. lia.
Qed.

Lemma intgrt_integral_prefix_witness :
  length x_sample = length y_sample /\ 1 <= 2 <= length x_sample /\
  exists I err I' err',
    intgrt x_sample y_sample = Ok (I, err) /\
    intgrt (upto 2 x_sample) (upto 2 y_sample) = Ok (I', err') /\
    I' = upto 2 I.
Proof.
  assert (H : 1 <= 2 <= length x_sample) by (simpl; lia).
  split; [reflexivity|]. split; [exact H|].
  exact (intgrt_integral_prefix x_sample y_sample 2 eq_refl H).
Defined.

(* ================================================================== *)
(** ** [_error_from_u] on series without special values *)

Lemma sum_Fin (rs : list R) : np.sum (map Fin rs) = Fin (Rsum rs).
Proof.
  rewrite sum_nth, length_map. unfold Rsum. apply sum_upto_fin.
  intros j Hj. apply nth_Fin. assumption.
Qed.

Lemma mean_Fin (rs : list R) :
  1 <= length rs -> np.mean (map Fin rs) = Fin (Rmean rs).
Proof.
  intros H. unfold np.mean, Rmean, of_Z, len. rewrite sum_Fin, length_map.
  apply ndiv_fin. apply not_0_IZR. lia.
Qed.

Lemma Rsum_upto_nonneg (f : nat -> R) (k : nat) :
  (forall j, j < k -> (0 <= f j)%R) -> (0 <= Rsum_upto f k)%R.
Proof.
  induction k as [|k IH]; intros H; simpl; [lra|].
  assert (0 <= Rsum_upto f k)%R by (apply IH; intros; apply H; lia).
  assert (0 <= f k)%R by (apply H; lia). lra.
Qed.

Lemma Rsum_upto_nonneg_zero (f : nat -> R) (k : nat) :
  (forall j, j < k -> (0 <= f j)%R) -> Rsum_upto f k = 0%R ->
  forall j, j < k -> f j = 0%R.
Proof.
  induction k as [|k IH]; intros H Hs j Hj; [lia|]. simpl in Hs.
  assert (0 <= Rsum_upto f k)%R by (apply Rsum_upto_nonneg; intros; apply H; lia).
  assert (0 <= f k)%R by (apply H; lia).
  destruct (Nat.eq_dec j k) as [->|Hne]; [lra|].
  apply IH; try lia; [intros; apply H; lia|lra].
Qed.

Lemma Rmean_squares_nonneg (g : R -> R) (rs : list R) :
  1 <= length rs ->
  (0 <= Rmean (map (fun v => (Rabs (g v) * Rabs (g v))%R) rs))%R.
Proof.
  intros H. unfold Rmean, Rsum. rewrite length_map.
  apply Rmult_le_pos.
  - apply Rsum_upto_nonneg. intros j Hj.
    rewrite (nth_map_R (fun v => (Rabs (g v) * Rabs (g v))%R)) by assumption.
    apply Rle_0_sqr.
  - left. apply Rinv_0_lt_compat. apply IZR_lt. lia.
Qed.

Lemma std_Fin (rs : list R) :
  1 <= length rs -> np.std (map Fin rs) = Fin (Rstd rs).
Proof.
  intros H. unfold np.std, Rstd. rewrite mean_Fin by assumption.
  rewrite map_map. cbn [nsub nabs nsqr nmul].
  rewrite <- (map_map (fun v => (Rabs (v - Rmean rs) * Rabs (v - Rmean rs))%R) Fin).
  rewrite mean_Fin by (rewrite length_map; assumption).
  apply nsqrt_fin.
  apply (Rmean_squares_nonneg (fun v => (v - Rmean rs)%R)). assumption.
Qed.

Lemma Rstd_nonneg (rs : list R) : (0 <= Rstd rs)%R.
Proof. unfold Rstd. apply sqrt_pos. Qed.

Lemma cutoff_of_range (ug : list num) : (0 <= cutoff_of ug <= 1000)%Z.
Proof.
  unfold cutoff_of. cbv zeta.
  match goal with |- context [filter ?f ?l] =>
    pose proof (filter_length_le f l) as H end.
  rewrite !length_map, length_seq in H.
  split; [lia|].
  apply (Z.le_trans _ (Z.of_nat 1000)); [apply Nat2Z.inj_le; exact H|].
  apply Z.leb_le. reflexivity.
Qed.

(** The value on a finite series: zero at a zero cutoff, the standard
    deviation over [sqrt(len(u)/c_trs)] otherwise. *)
Lemma error_from_u_Fin (us : list R) (ug : list num) :
  np.gradient (map Fin us) = Ok ug ->
  _error_from_u (map Fin us) =
    Ok (Fin (if Z.eqb (cutoff_of ug) 0 then 0
             else Rstd us / sqrt (IZR (len us) / IZR (cutoff_of ug)))).
Proof.
  intros Hg.
  assert (Hlen : 2 <= length us).
  { unfold np.gradient in Hg. rewrite length_map in Hg.
    destruct (Nat.ltb_spec (length us) 2); [discriminate|assumption]. }
  rewrite (error_from_u_ok _ _ Hg). rewrite std_Fin by lia.
  unfold of_Z, len. rewrite length_map.
  pose proof (cutoff_of_range ug) as Hc.
  destruct (Z.eqb_spec (cutoff_of ug) 0) as [->|Hne].
  - rewrite ndiv_pos_zero by (apply IZR_lt; lia). reflexivity.
  - rewrite ndiv_fin by (apply not_0_IZR; assumption).
    assert (Hq : (0 < IZR (Z.of_nat (length us)) / IZR (cutoff_of ug))%R).
    { apply Rdiv_lt_0_compat; apply IZR_lt; lia. }
    rewrite nsqrt_fin by lra.
    rewrite ndiv_fin; [reflexivity|].
    apply Rgt_not_eq. apply sqrt_lt_R0. assumption.
Qed.

Lemma gradient_Fin (us : list R) :
  2 <= length us ->
  np.gradient (map Fin us)
  = Ok (map Fin (map (Rgradient_at us) (seq 0 (length us)))).
Proof.
  intros H. rewrite gradient_ok by (rewrite length_map; assumption).
  rewrite length_map, map_map. f_equal. apply map_ext_in.
  intros i Hi. apply in_seq in Hi. apply gradient_at_fin; lia.
Qed.

Lemma autocovariance_Fin_0 (gs : list R) :
  autocovariance (map Fin gs) 0
  = Fin (Rsum_upto (fun t => (nth t gs 0 * nth t gs 0)%R) (length gs)).
Proof.
  unfold autocovariance. rewrite length_map, Nat.sub_0_r.
  apply sum_upto_fin. intros t Ht. rewrite Nat.add_0_r.
  rewrite nth_Fin by assumption. reflexivity.
Qed.

Lemma constant_gradient_zero (us : list R) (i : nat) :
  2 <= length us -> constant us -> i < length us -> Rgradient_at us i = 0%R.
Proof.
  intros Hn Hc Hi. unfold Rgradient_at.
  destruct (Nat.eqb_spec i 0); [|destruct (Nat.eqb_spec i (length us - 1))].
  - rewrite (Hc 1 0) by lia. ring.
  - rewrite (Hc (length us - 1) (length us - 2)) by lia. ring.
  - rewrite (Hc (i + 1) (i - 1)) by lia. field.
Qed.

Lemma gradient_zero_constant (us : list R) :
  2 <= length us ->
  (forall i, i < length us -> Rgradient_at us i = 0%R) -> constant us.
Proof.
  intros Hn Hg.
  assert (H0 : forall k, k < length us -> nth k us 0%R = nth 0 us 0%R).
  { induction k as [k IH] using lt_wf_ind. intros Hk.
    destruct k as [|[|k]]; [reflexivity| |].
    - specialize (Hg 0 ltac:(lia)). unfold Rgradient_at in Hg.
      cbn [Nat.eqb] in Hg. lra.
    - rewrite <- (IH k) by lia.
      specialize (Hg (S k) ltac:(lia)). unfold Rgradient_at in Hg.
      destruct (Nat.eqb_spec (S k) 0); [lia|].
      destruct (Nat.eqb_spec (S k) (length us - 1)); [lia|].
      replace (S k + 1) with (S (S k)) in Hg by lia.
      replace (S k - 1) with k in Hg by lia. lra. }
  intros i j Hi Hj. rewrite (H0 i), (H0 j) by assumption. reflexivity.
Qed.

Lemma map_Fin_zero (gs : list R) :
  (forall t, t < length gs -> nth t gs 0%R = 0%R) ->
  map Fin gs = repeat (Fin 0) (length gs).
Proof.
  intros H. apply (nth_ext _ _ NaN NaN).
  - rewrite length_map, repeat_length. reflexivity.
  - intros t Ht. rewrite length_map in Ht.
    rewrite nth_Fin, nth_repeat_num, H by assumption. reflexivity.
Qed.

Lemma nth_gradients (us : list R) (t : nat) :
  t < length us ->
  nth t (map (Rgradient_at us) (seq 0 (length us))) 0%R = Rgradient_at us t.
Proof.
  intros H.
  rewrite (nth_indep _ 0%R (Rgradient_at us 0)) by (rewrite length_map, length_seq; lia).
  rewrite map_nth, seq_nth by lia. reflexivity.
Qed.

Lemma decay_cutoff_zero_iff_constant_aux (us : list R) :
  2 <= length us ->
  (decay_cutoff (map Fin us) = Ok 0%Z <-> constant us).
Proof.
  intros Hn.
  pose proof (gradient_Fin us Hn) as Hg.
  rewrite (decay_cutoff_ok _ _ Hg).
  set (gs := map (Rgradient_at us) (seq 0 (length us))) in *.
  assert (Hgl : length gs = length us)
    by (unfold gs; rewrite length_map, length_seq; reflexivity).
  split.
  - intros Hc. injection Hc as Hc.
    destruct (Req_dec_T
                (Rsum_upto (fun t => (nth t gs 0 * nth t gs 0)%R) (length gs)) 0)
      as [Hz|Hnz].
    + apply gradient_zero_constant; [assumption|]. intros i Hi.
      rewrite <- nth_gradients by assumption. fold gs.
      pose proof (Rsum_upto_nonneg_zero _ _
                    (fun j _ => Rle_0_sqr (nth j gs 0%R)) Hz i ltac:(lia)) as Hq.
      cbv beta in Hq. apply Rmult_integral in Hq. tauto.
    + pose proof (cutoff_of_pos _ _ (autocovariance_Fin_0 gs) Hnz). lia.
  - intros Hc. f_equal. rewrite map_Fin_zero; [apply cutoff_of_zero|].
    intros t Ht. unfold gs. rewrite nth_gradients by lia.
    apply constant_gradient_zero; [assumption|assumption|lia].
Qed.



Lemma Rstd_zero_constant (us : list R) :
  1 <= length us -> Rstd us = 0%R -> constant us.
Proof.
  intros Hn Hs. unfold Rstd in Hs.
  apply sqrt_eq_0 in Hs;
    [|apply (Rmean_squares_nonneg (fun v => (v - Rmean us)%R)); assumption].
  unfold Rmean at 1 in Hs. rewrite length_map in Hs.
  assert (HN : (0 < IZR (Z.of_nat (length us)))%R) by (apply IZR_lt; lia).
  assert (Hsum : Rsum (map (fun v => (Rabs (v - Rmean us) * Rabs (v - Rmean us))%R) us)
                 = 0%R).
  { unfold Rdiv in Hs. apply Rmult_integral in Hs. destruct Hs as [Hs|Hs];
      [assumption|]. exfalso. apply Rinv_neq_0_compat in Hs; [assumption|lra]. }
  unfold Rsum in Hsum. rewrite length_map in Hsum.
  assert (Hm : forall j, j < length us -> nth j us 0%R = Rmean us).
  { intros j Hj.
    pose proof (Rsum_upto_nonneg_zero _ _
      (fun k (Hk : k < length us) =>
         eq_ind_r (fun z => (0 <= z)%R) (Rle_0_sqr _)
           (nth_map_R (fun v => (Rabs (v - Rmean us) * Rabs (v - Rmean us))%R)
                      us k Hk))
      Hsum j Hj) as Hz.
    cbv beta in Hz.
    rewrite (nth_map_R (fun v => (Rabs (v - Rmean us) * Rabs (v - Rmean us))%R))
      in Hz by assumption.
    apply Rmult_integral in Hz.
    assert (Ha : Rabs (nth j us 0%R - Rmean us) = 0%R) by tauto.
    destruct (Req_dec_T (nth j us 0%R - Rmean us) 0) as [E|E]; [lra|].
    apply Rabs_no_R0 in E. contradiction. }
  intros i j Hi Hj. rewrite (Hm i), (Hm j) by assumption. reflexivity.
Qed.


(** X11.  On a finite series that is not constant the estimate lies between
    the naive standard error [std(u)/sqrt(len(u))] and that of a series with
    a thousand times fewer samples, [std(u)/sqrt(len(u)/1000)]. *)
Theorem error_from_u_bounds (us : list R) :
  2 <= length us -> ~ constant us ->
  exists r, _error_from_u (map Fin us) = Ok (Fin r) /\
    (Rstd us / sqrt (IZR (len us)) <= r
     <= Rstd us / sqrt (IZR (len us) / 1000))%R.
Proof.
  intros Hn Hnc.
  pose proof (gradient_Fin us Hn) as Hg.
  rewrite (error_from_u_Fin us _ Hg).
  set (ug := map Fin (map (Rgradient_at us) (seq 0 (length us)))) in *.
  pose proof (cutoff_of_range ug) as Hc.
  assert (Hne : cutoff_of ug <> 0%Z).
  { intros E. apply Hnc. apply (decay_cutoff_zero_iff_constant_aux us Hn).
    rewrite (decay_cutoff_ok _ _ Hg), E. reflexivity. }
  destruct (Z.eqb_spec (cutoff_of ug) 0) as [E|_]; [contradiction|].
  eexists. split; [reflexivity|].
  assert (HN : (2 <= IZR (len us))%R) by (apply IZR_le; unfold len; lia).
  assert (HC1 : (1 <= IZR (cutoff_of ug))%R) by (apply IZR_le; lia).
  assert (HC2 : (IZR (cutoff_of ug) <= 1000)%R) by (apply IZR_le; lia).
  set (N := IZR (len us)) in *. set (C := IZR (cutoff_of ug)) in *.
  pose proof (Rstd_nonneg us) as Hs.
  assert (Hinv1 : (/ C <= 1)%R)
    by (rewrite <- Rinv_1; apply Rinv_le_contravar; lra).
  assert (Hinv2 : (/ 1000 <= / C)%R) by (apply Rinv_le_contravar; lra).
  assert (Hq : (0 < N / 1000 <= N / C)%R) by (unfold Rdiv; split; nra).
  assert (Hq' : (N / C <= N)%R) by (unfold Rdiv; nra).
  assert (S1 : (0 < sqrt (N / 1000))%R) by (apply sqrt_lt_R0; lra).
  assert (S2 : (sqrt (N / 1000) <= sqrt (N / C))%R) by (apply sqrt_le_1; lra).
  assert (S3 : (sqrt (N / C) <= sqrt N)%R) by (apply sqrt_le_1; lra).
  unfold Rdiv at 1 3 4. split; apply Rmult_le_compat_l; try assumption;
    apply Rinv_le_contravar; lra.
Qed.


Lemma error_from_u_bounds_witness :
  2 <= length [0; 1]%R /\ ~ constant [0; 1]%R /\
  exists r, _error_from_u (map Fin [0; 1]%R) = Ok (Fin r) /\
    (Rstd [0; 1] / sqrt (IZR (len [0; 1]%R)) <= r
     <= Rstd [0; 1] / sqrt (IZR (len [0; 1]%R) / 1000))%R.
Proof.
  assert (H1 : 2 <= length [0; 1]%R) by (simpl; lia).
  assert (H2 : ~ constant [0; 1]%R).
  { intros Hc. specialize (Hc 0 1 ltac:(simpl; lia) ltac:(simpl; lia)).
    simpl in Hc. lra. }
  split; [exact H1|]. split; [exact H2|].
  exact (error_from_u_bounds _ H1 H2).
Defined.

(** X12.  On a finite series of two or more elements the estimate is zero
    exactly when the series is constant. *)
Theorem error_from_u_zero_iff_constant (us : list R) :
  2 <= length us ->
  (_error_from_u (map Fin us) = Ok (Fin 0) <-> constant us).
Proof.
  intros Hn.
  pose proof (gradient_Fin us Hn) as Hg.
  pose proof (decay_cutoff_zero_iff_constant_aux us Hn) as Hiff.
  rewrite (decay_cutoff_ok _ _ Hg) in Hiff.
  rewrite (error_from_u_Fin us _ Hg).
  set (ug := map Fin (map (Rgradient_at us) (seq 0 (length us)))) in *.
  pose proof (cutoff_of_range ug) as Hc.
  destruct (Z.eqb_spec (cutoff_of ug) 0) as [E|E].
  - split; [intros _; apply Hiff; rewrite E; reflexivity|reflexivity].
  - split.
    + intros H. injection H as H. apply Rstd_zero_constant; [lia|].
      assert (Hq : (0 < sqrt (IZR (len us) / IZR (cutoff_of ug)))%R).
      { apply sqrt_lt_R0. apply Rdiv_lt_0_compat; apply IZR_lt; unfold len; lia. }
      unfold Rdiv in H at 1. apply Rmult_integral in H. destruct H as [H|H];
        [assumption|]. exfalso. apply Rinv_neq_0_compat in H; [assumption|lra].
    + intros Hconst. exfalso. apply E.
      apply Hiff in Hconst. injection Hconst. trivial.
Qed.

Lemma error_from_u_zero_iff_constant_witness :
  2 <= length [5; 5; 5]%R /\
  (_error_from_u (map Fin [5; 5; 5]%R) = Ok (Fin 0) <-> constant [5; 5; 5]%R).
Proof.
  assert (H : 2 <= length [5; 5; 5]%R) by (simpl; lia).
  split; [exact H|]. exact (error_from_u_zero_iff_constant _ H).
Defined.

(* ================================================================== *)
(** ** [lammps_log_to_U_latt]: a marker on the first line *)

Lemma getitem_last_any {A} (l : list A) (d : A) :
  0 < length l -> getitem l (-1) = Ok (last l d).
Proof.
  intros H. unfold getitem, len. cbv zeta.
  change (-1 <? 0)%Z with true. cbv iota.
  destruct (Z.ltb_spec (-1 + Z.of_nat (length l)) 0) as [Hneg|_]; [lia|].
  replace (Z.to_nat (-1 + Z.of_nat (length l))) with (length l - 1) by lia.
  rewrite (nth_error_nth' l d) by lia. f_equal.
  clear H. induction l as [|a l IH]; [reflexivity|].
  destruct l as [|b l]; [reflexivity|].
  replace (length (a :: b :: l) - 1) with (S (length (b :: l) - 1))
    by (simpl; lia).
  exact IH.
Qed.

(** X13.  When the first line of the log begins with [Loop time], the line
    "before" it is index -1, the last line of the file: the value is read
    from the second field of the last line. *)
Theorem lammps_marker_on_first_line (float : string -> result num)
        (marker : string) (rest : list string) :
  starts_loop_time marker = true ->
  lammps_log_to_U_latt float (marker :: rest) =
    (field <- getitem (split (last (marker :: rest) marker)) 1 ;; float field).
Proof.
  intros Hm. unfold lammps_log_to_U_latt. cbn [steps_before_loop_time].
  rewrite Hm.
  rewrite (getitem_nth_error _ 0 (0 - 1)%Z) by (try reflexivity; lia).
  cbn [bind].
  change (0 - 1)%Z with (-1)%Z.
  rewrite (getitem_last_any _ marker) by (simpl; lia). reflexivity.
Qed.

Lemma lammps_marker_on_first_line_witness :
  starts_loop_time ("Loop time of 3.2 on 4 procs" ++ newline) = true /\
  lammps_log_to_U_latt float_decimal
    [("Loop time of 3.2 on 4 procs" ++ newline)%string;
     ("next -7.5 run" ++ newline)%string]
  = float_decimal "-7.5".
Proof.
  assert (H : starts_loop_time ("Loop time of 3.2 on 4 procs" ++ newline) = true)
    by reflexivity.
  split; [exact H|].
  exact (lammps_marker_on_first_line float_decimal _
           [("next -7.5 run" ++ newline)%string] H).
Defined.

(* ================================================================== *)
(** ** Harmonic free energy: edge cases *)

Lemma hb_J_pos : (0 < hb_J)%R.
Proof. unfold hb_J. lra. Qed.

Lemma cm2hz_pos : (0 < cm2hz)%R.
Proof. unfold cm2hz. apply Rmult_lt_0_compat; [lra|]. apply pow_lt. lra. Qed.

Lemma nadd_nan_r (a : num) : nadd a NaN = NaN.
Proof. destruct a; reflexivity. Qed.

Lemma nmul_nan_r (a : num) : nmul a NaN = NaN.
Proof. destruct a; reflexivity. Qed.

Lemma ndiv_nan_l (a : num) : ndiv NaN a = NaN.
Proof. destruct a; reflexivity. Qed.

Lemma fold_nadd_nan (l : list num) : fold_left nadd l NaN = NaN.
Proof. induction l as [|a l IH]; simpl; [reflexivity|exact IH]. Qed.

(** One [nan] among the terms makes the sum [nan]. *)
Lemma sum_nan (l : list num) : In NaN l -> np.sum l = NaN.
Proof.
  unfold np.sum. generalize (Fin 0). induction l as [|a l IH]; intros acc H;
    [contradiction|]. simpl. destruct H as [->|H].
  - rewrite nadd_nan_r. apply fold_nadd_nan.
  - apply IH. assumption.
Qed.

Lemma beta_of_pos (t : R) :
  (0 < t)%R -> exists b, beta_of (Fin t) = Fin b /\ (0 < b)%R.
Proof.
  intros Ht. pose proof kb_J_pos. rewrite beta_of_fin by lra.
  eexists. split; [reflexivity|]. apply Rdiv_lt_0_compat; nra.
Qed.

Lemma quantum_mode_negative (b w : R) :
  (0 < b)%R -> (w < 0)%R -> quantum_mode (Fin b) (Fin w) = NaN.
Proof.
  intros Hb Hw. pose proof hb_J_pos as Hh. unfold quantum_mode.
  cbn [nmul nexp nsub]. cbn [nlog].
  rewrite Rsgn_neg; [rewrite nmul_nan_r; apply nadd_nan_r|].
  assert (Hp : (0 < hb_J * b)%R) by (apply Rmult_lt_0_compat; assumption).
  assert (Hx : (0 < - hb_J * w * b)%R) by nra.
  pose proof (exp_increasing _ _ Hx) as He. rewrite exp_0 in He. lra.
Qed.

Lemma classical_mode_negative (b w : R) :
  (0 < b)%R -> (w < 0)%R -> classical_mode (Fin b) (Fin w) = NaN.
Proof.
  intros Hb Hw. pose proof hb_J_pos as Hh. unfold classical_mode.
  cbn [nmul nlog].
  assert (0 < b * hb_J)%R by (apply Rmult_lt_0_compat; assumption).
  rewrite Rsgn_neg by nra. reflexivity.
Qed.

Lemma column_length (data : list (list num)) (k : Z) (c : list num) :
  column data k = Ok c -> length c = length data.
Proof.
  unfold column. destruct data as [|r data]; [discriminate|].
  apply mapM_length.
Qed.

Lemma zip_with_in_nan (dos terms : list num) (j : nat) :
  j < length dos -> j < length terms -> nth j terms NaN = NaN ->
  In NaN (np.zip_with nmul dos terms).
Proof.
  intros Hd Ht Hn.
  assert (E : nth j (np.zip_with nmul dos terms) NaN = NaN)
    by (rewrite zip_with_nth by assumption; rewrite Hn; apply nmul_nan_r).
  rewrite <- E at 1. apply nth_In. rewrite zip_with_length. lia.
Qed.

(** X14.  One negative wavenumber in the phonopy table, whatever its
    weight, makes the quantum and the classical free energy [nan] at every
    positive temperature. *)
Theorem phonopy_negative_frequency_nan (float : string -> result num)
        (lines : list string) (T : list num) (nmols U_latt : num)
        (data : list (list num)) (wavenumbers dos : list num)
        (j : nat) (w : R) :
  table float (map split (from 3 lines)) = Ok data ->
  column data 0 = Ok wavenumbers ->
  column data 1 = Ok dos ->
  nth_error wavenumbers j = Some (Fin w) -> (w < 0)%R ->
  exists Fq Fc,
    phonopy_harmonic_free_energy float lines T nmols U_latt = Ok (Fq, Fc) /\
    forall (k : nat) (t : R),
      k < length T -> nth k T NaN = Fin t -> (0 < t)%R ->
      nth k Fq NaN = NaN /\ nth k Fc NaN = NaN.
Proof.
  intros Hd H0 H1 Hj Hw.
  unfold phonopy_harmonic_free_energy. cbv zeta.
  rewrite Hd. cbn [bind]. rewrite H0. cbn [bind]. rewrite H1. cbn [bind].
  eexists. eexists. split; [reflexivity|].
  intros k t Hk HT Ht.
  rewrite !nth_to_eV_per_mol by assumption. rewrite HT.
  destruct (beta_of_pos t Ht) as [b [-> Hb]].
  assert (Hjl : j < length wavenumbers)
    by (apply nth_error_Some; rewrite Hj; discriminate).
  assert (Hdl : length dos = length wavenumbers)
    by (rewrite (column_length _ _ _ H0), (column_length _ _ _ H1); reflexivity).
  assert (Hnth : nth j wavenumbers NaN = Fin w)
    by (apply nth_error_nth; assumption).
  assert (Hom : forall mode : num -> num,
             nth j (map mode
                      (map (fun f => nmul (nmul f (Fin 2)) (Fin PI))
                         (map (fun v => nmul v (Fin cm2hz)) wavenumbers))) NaN
             = mode (Fin (w * cm2hz * 2 * PI))).
  { intros mode. rewrite !map_map.
    rewrite (nth_map_any _ wavenumbers NaN j Hjl), Hnth. reflexivity. }
  assert (Hneg : (w * cm2hz * 2 * PI < 0)%R).
  { pose proof cm2hz_pos. pose proof PI_RGT_0.
    assert (0 < cm2hz * 2 * PI)%R by nra. nra. }
  split.
  - rewrite (sum_nan (np.zip_with nmul dos _)); [reflexivity|].
    apply (zip_with_in_nan _ _ j); [lia|rewrite !length_map; lia|].
    rewrite Hom. apply quantum_mode_negative; assumption.
  - rewrite (sum_nan (np.zip_with nmul dos _)); [reflexivity|].
    apply (zip_with_in_nan _ _ j); [lia|rewrite !length_map; lia|].
    rewrite Hom. apply classical_mode_negative; assumption.
Qed.

Lemma nabs_nneg (v : num) : nabs (nneg v) = nabs v.
Proof. destruct v; simpl; try reflexivity. f_equal. apply Rabs_Ropp. Qed.

(** X15.  The ipi evaluator sees the eigenvalues through their magnitude
    only: two files whose eigenvalues agree up to sign give the same
    result, so a negative eigenvalue is never told from a positive one. *)
Theorem ipi_ignores_eigenvalue_sign (float : string -> result num)
        (lines lines' : list string) (values values' : list num)
        (T : list num) (nmols U_latt : num) :
  mapM float (from 1 lines) = Ok values ->
  mapM float (from 1 lines') = Ok values' ->
  map nabs (from 3 values) = map nabs (from 3 values') ->
  ipi_harmonic_free_energy float lines T nmols U_latt
  = ipi_harmonic_free_energy float lines' T nmols U_latt.
Proof.
  intros Hv Hv' Habs. unfold ipi_harmonic_free_energy. cbv zeta.
  rewrite Hv, Hv'. cbn [bind]. rewrite Habs. reflexivity.
Qed.

(** X16.  A spectrum without modes: the phonopy evaluator raises
    [IndexError] on a file of at most three lines, while the ipi evaluator,
    on a file whose values stop after the three skipped ones, returns
    [U_latt] at every temperature, whatever the temperature is. *)
Theorem harmonic_empty_spectrum (float : string -> result num)
        (T : list num) :
  (forall (lines : list string) (nmols U_latt : num),
      length lines <= 3 ->
      phonopy_harmonic_free_energy float lines T nmols U_latt
      = Raise IndexError) /\
  (forall (lines : list string) (values : list num) (n u : R),
      mapM float (from 1 lines) = Ok values -> length values <= 3 ->
      n <> 0%R ->
      ipi_harmonic_free_energy float lines T (Fin n) (Fin u)
      = Ok (map (fun _ => Fin (0 * J2ev / n + u)) T,
            map (fun _ => Fin (0 * J2ev / n + u)) T)).
Proof.
  split.
  - intros lines nmols U_latt Hl. unfold phonopy_harmonic_free_energy, from.
    cbv zeta. rewrite skipn_all2 by assumption. reflexivity.
  - intros lines values n u Hv Hl Hn. unfold ipi_harmonic_free_energy.
    cbv zeta. rewrite Hv. cbn [bind]. unfold from at 1 2.
    rewrite skipn_all2 by assumption. cbn [map]. unfold to_eV_per_mol.
    rewrite !map_map. unfold np.sum. cbn [fold_left nmul].
    rewrite ndiv_fin by assumption. reflexivity.
Qed.

Lemma phonopy_file_negative_data :
  table float_decimal (map split (from 3 phonopy_file_negative))
  = Ok phonopy_data_negative.
Proof.
  replace (map split (from 3 phonopy_file_negative)) with [["-50"; "0.2"]%string]
    by (vm_compute; reflexivity).
  unfold table. cbn [forallb length Nat.eqb andb mapM].
  rewrite (float_decimal_read "-50" true (50%Z, 0)) by (vm_compute; reflexivity).
  rewrite (float_decimal_read "0.2" false (2%Z, 1)) by (vm_compute; reflexivity).
  reflexivity.
Qed.

Lemma phonopy_negative_frequency_nan_witness :
  table float_decimal (map split (from 3 phonopy_file_negative))
    = Ok phonopy_data_negative /\
  column phonopy_data_negative 0 = Ok [decimal_value true (50%Z, 0)] /\
  column phonopy_data_negative 1 = Ok [decimal_value false (2%Z, 1)] /\
  nth_error [decimal_value true (50%Z, 0)] 0
    = Some (Fin (- (IZR 50 / IZR (10 ^ Z.of_nat 0)))) /\
  (- (IZR 50 / IZR (10 ^ Z.of_nat 0)) < 0)%R /\
  exists Fq Fc,
    phonopy_harmonic_free_energy float_decimal phonopy_file_negative
      [Fin 300] (Fin 2) (Fin (-1)) = Ok (Fq, Fc) /\
    forall (k : nat) (t : R),
      k < length [Fin 300] -> nth k [Fin 300] NaN = Fin t -> (0 < t)%R ->
      nth k Fq NaN = NaN /\ nth k Fc NaN = NaN.
Proof.
  assert (H0 : column phonopy_data_negative 0 = Ok [decimal_value true (50%Z, 0)])
    by reflexivity.
  assert (H1 : column phonopy_data_negative 1 = Ok [decimal_value false (2%Z, 1)])
    by reflexivity.
  assert (Hj : nth_error [decimal_value true (50%Z, 0)] 0
               = Some (Fin (- (IZR 50 / IZR (10 ^ Z.of_nat 0)))))
    by reflexivity.
  assert (Hw : (- (IZR 50 / IZR (10 ^ Z.of_nat 0)) < 0)%R).
  { change (10 ^ Z.of_nat 0)%Z with 1%Z. lra. }
  split; [exact phonopy_file_negative_data|]. split; [exact H0|].
  split; [exact H1|]. split; [exact Hj|]. split; [exact Hw|].
  exact (phonopy_negative_frequency_nan float_decimal phonopy_file_negative
           [Fin 300] (Fin 2) (Fin (-1)) _ _ _ 0 _
           phonopy_file_negative_data H0 H1 Hj Hw).
Defined.

Lemma ipi_file_negative_values :
  mapM float_decimal (from 1 ipi_file_negative) = Ok ipi_values_negative.
Proof.
  unfold ipi_file_negative, from. cbn [skipn mapM].
  rewrite (float_decimal_read _ false (0%Z, 0)) by (vm_compute; reflexivity).
  rewrite (float_decimal_read _ true (4%Z, 0)) by (vm_compute; reflexivity).
  reflexivity.
Qed.

Lemma ipi_ignores_eigenvalue_sign_witness :
  mapM float_decimal (from 1 ipi_file) = Ok ipi_values /\
  mapM float_decimal (from 1 ipi_file_negative) = Ok ipi_values_negative /\
  map nabs (from 3 ipi_values) = map nabs (from 3 ipi_values_negative) /\
  ipi_harmonic_free_energy float_decimal ipi_file [Fin 300] (Fin 2) (Fin (-1))
  = ipi_harmonic_free_energy float_decimal ipi_file_negative
      [Fin 300] (Fin 2) (Fin (-1)).
Proof.
  assert (Habs : map nabs (from 3 ipi_values)
                 = map nabs (from 3 ipi_values_negative)).
  { unfold ipi_values, ipi_values_negative, from, decimal_value.
    cbn [skipn map nabs fst snd]. f_equal. f_equal. symmetry. apply Rabs_Ropp. }
  split; [exact ipi_file_values|]. split; [exact ipi_file_negative_values|].
  split; [exact Habs|].
  exact (ipi_ignores_eigenvalue_sign float_decimal _ _ _ _ _ _ _
           ipi_file_values ipi_file_negative_values Habs).
Defined.

Lemma ipi_file_no_modes_values :
  mapM float_decimal (from 1 ipi_file_no_modes)
  = Ok [decimal_value false (0%Z, 0); decimal_value false (0%Z, 0);
        decimal_value false (0%Z, 0)].
Proof.
  unfold ipi_file_no_modes, from. cbn [skipn mapM].
  rewrite (float_decimal_read _ false (0%Z, 0)) by (vm_compute; reflexivity).
  reflexivity.
Qed.

Lemma harmonic_empty_spectrum_witness :
  length (upto 3 phonopy_file) <= 3 /\
  phonopy_harmonic_free_energy float_decimal (upto 3 phonopy_file)
    [Fin 300; NaN] (Fin 2) (Fin (-1)) = Raise IndexError /\
  length [decimal_value false (0%Z, 0); decimal_value false (0%Z, 0);
          decimal_value false (0%Z, 0)] <= 3 /\
  2%R <> 0%R /\
  ipi_harmonic_free_energy float_decimal ipi_file_no_modes
    [Fin 300; NaN] (Fin 2) (Fin (-1))
  = Ok (map (fun _ => Fin (0 * J2ev / 2 + -1)) [Fin 300; NaN],
        map (fun _ => Fin (0 * J2ev / 2 + -1)) [Fin 300; NaN]).
Proof.
  destruct (harmonic_empty_spectrum float_decimal [Fin 300; NaN])
    as [Hphonopy Hipi].
  assert (H1 : length (upto 3 phonopy_file) <= 3) by (simpl; lia).
  assert (H2 : length [decimal_value false (0%Z, 0); decimal_value false (0%Z, 0);
                       decimal_value false (0%Z, 0)] <= 3) by (simpl; lia).
  assert (H3 : 2%R <> 0%R) by lra.
  split; [exact H1|]. split; [exact (Hphonopy _ (Fin 2) (Fin (-1)) H1)|].
  split; [exact H2|]. split; [exact H3|].
  exact (Hipi _ _ 2%R (-1)%R ipi_file_no_modes_values H2 H3).
Defined.

(* ================================================================== *)
(** ** [integrated_anharmonic_energy] *)

Lemma broadcast_same_length f (a b : list num) :
  length a = length b -> np.broadcast f a b = Ok (np.zip_with f a b).
Proof.
  intros H. unfold np.broadcast. rewrite H, Nat.eqb_refl. reflexivity.
Qed.

Lemma kb_ev_pos : (0 < kb_ev)%R.
Proof.
  unfold kb_ev. apply Rmult_lt_0_compat; [lra|].
  apply Rinv_0_lt_compat. apply pow_lt. lra.
Qed.

Lemma nlog_fin_pos (r : R) : (0 < r)%R -> nlog (Fin r) = Fin (ln r).
Proof. intros H. cbn [nlog]. rewrite Rsgn_pos by assumption. reflexivity. Qed.

(** The abscissas [log(T/T[0])] and the ordinates [U/exp(x)/T[0]/kb_ev] on
    positive temperatures. *)
Lemma log_abscissas (Ts : list R) (t0 : R) :
  (0 < t0)%R -> (forall t, In t Ts -> (0 < t)%R) ->
  map (fun t => nlog (ndiv t (Fin t0))) (map Fin Ts)
  = map Fin (map (fun t => ln (t / t0)) Ts).
Proof.
  intros H0 Hpos. rewrite !map_map. apply map_ext_in. intros t Ht.
  rewrite ndiv_fin by lra. apply nlog_fin_pos.
  apply Rdiv_lt_0_compat; [apply Hpos; assumption|assumption].
Qed.

Lemma nth_seq_map (f : nat -> R) (n j : nat) :
  j < n -> nth j (map f (seq 0 n)) 0%R = f j.
Proof.
  intros H. rewrite (nth_indep _ 0%R (f 0)) by (rewrite length_map, length_seq; lia).
  rewrite map_nth, seq_nth by lia. reflexivity.
Qed.

Lemma scaled_ordinates (Us Ts : list R) (t0 : R) :
  (0 < t0)%R -> length Us = length Ts ->
  map (fun v => ndiv (ndiv v (Fin t0)) (Fin kb_ev))
      (np.zip_with ndiv (map Fin Us)
         (map nexp (map Fin (map (fun t => ln (t / t0)) Ts))))
  = map Fin (map (fun j => (nth j Us 0 / exp (ln (nth j Ts 0 / t0))
                            / t0 / kb_ev)%R)
               (seq 0 (length Ts))).
Proof.
  intros H0 Hlen. pose proof kb_ev_pos as Hk.
  apply (nth_ext _ _ NaN NaN).
  - rewrite !length_map, zip_with_length, !length_map, length_seq. lia.
  - intros j Hj.
    rewrite length_map, zip_with_length, !length_map in Hj.
    rewrite (nth_map_any _ _ NaN) by (rewrite zip_with_length, !length_map; lia).
    rewrite zip_with_nth by (rewrite !length_map; lia).
    rewrite nth_Fin by lia.
    rewrite (nth_map_any nexp _ NaN) by (rewrite !length_map; lia).
    rewrite nth_Fin by (rewrite length_map; lia).
    rewrite (nth_map_R (fun t => ln (t / t0))) by lia.
    rewrite nth_Fin by (rewrite length_map, length_seq; lia).
    rewrite nth_seq_map by lia. cbn [nexp].
    pose proof (exp_pos (ln (nth j Ts 0%R / t0))) as He.
    rewrite !ndiv_fin by lra. reflexivity.
Qed.

Lemma Rtrapezoid_ext (xs xs' ys ys' : list R) (k : nat) :
  (forall j, j < k ->
     (nth (j + 1) xs 0 - nth j xs 0 = nth (j + 1) xs' 0 - nth j xs' 0)%R) ->
  (forall j, j <= k -> nth j ys 0%R = nth j ys' 0%R) ->
  Rtrapezoid xs ys k = Rtrapezoid xs' ys' k.
Proof.
  intros Hx Hy. unfold Rtrapezoid. apply Rsum_upto_ext. intros j Hj.
  rewrite (Hx j Hj), (Hy j), (Hy (j + 1)) by lia. reflexivity.
Qed.

(** The integral over [log(T/T[0])] of [U/exp(x)/T[0]/kb_ev] is the one
    over [ln T] of [U/(kb_ev*T)]: [T[0]] cancels. *)
Lemma Rtrapezoid_log_temperature (Us Ts : list R) (k : nat) :
  (forall t, In t Ts -> (0 < t)%R) -> k < length Ts ->
  Rtrapezoid (map (fun t => ln (t / nth 0 Ts 0%R)) Ts)
             (map (fun j => (nth j Us 0 / exp (ln (nth j Ts 0 / nth 0 Ts 0))
                             / nth 0 Ts 0 / kb_ev)%R)
                  (seq 0 (length Ts))) k
  = Rtrapezoid (map ln Ts) (per_kT Us Ts) k.
Proof.
  intros Hpos Hk. pose proof kb_ev_pos as Hkb.
  assert (Hp : forall j, j < length Ts -> (0 < nth j Ts 0)%R)
    by (intros j Hj; apply Hpos; apply nth_In; assumption).
  pose proof (Hp 0 ltac:(lia)) as H0.
  apply Rtrapezoid_ext.
  - intros j Hj.
    rewrite !(nth_map_R (fun t => ln (t / nth 0 Ts 0%R))) by lia.
    rewrite !(nth_map_R ln) by lia.
    pose proof (Hp j ltac:(lia)). pose proof (Hp (j + 1) ltac:(lia)).
    unfold Rdiv. rewrite !ln_mult by (try apply Rinv_0_lt_compat; assumption).
    ring.
  - intros j Hj. unfold per_kT. rewrite !nth_seq_map by lia.
    pose proof (Hp j ltac:(lia)).
    rewrite exp_ln by (apply Rdiv_lt_0_compat; assumption).
    field. repeat split; lra.
Qed.

(** X17.  An empty temperature array raises [IndexError].  On positive
    temperatures, with finite energies and errors of the same length, the
    three sequences have the length of [T] and the two integrals are the
    trapezoid rule of [U/(kb_ev*T)] over [ln T]: the reference temperature
    [T[0]] cancels out of every value. *)
Theorem integrated_anharmonic_energy_over_log_T :
  (forall U_anharm U_err : list num,
      integrated_anharmonic_energy [] U_anharm U_err = Raise IndexError) /\
  (forall Ts Us Es : list R,
      1 <= length Ts -> length Us = length Ts -> length Es = length Ts ->
      (forall t, In t Ts -> (0 < t)%R) ->
      exists I err I_md : list R,
        integrated_anharmonic_energy (map Fin Ts) (map Fin Us) (map Fin Es)
          = Ok (map Fin I, map Fin err, map Fin I_md) /\
        length I = length Ts /\ length err = length Ts /\
        length I_md = length Ts /\
        forall k, k < length Ts ->
          nth k I 0%R = Rtrapezoid (map ln Ts) (per_kT Us Ts) k /\
          nth k I_md 0%R = Rtrapezoid (map ln Ts) (per_kT Es Ts) k).
Proof.
  split; [reflexivity|].
  intros Ts Us Es Hn HU HE Hpos.
  assert (H0 : (0 < nth 0 Ts 0)%R) by (apply Hpos; apply nth_In; lia).
  unfold integrated_anharmonic_energy.
  rewrite getitem_first by (rewrite length_map; lia). cbn [bind].
  rewrite nth_Fin by lia.
  rewrite (log_abscissas Ts _ H0 Hpos).
  rewrite !broadcast_same_length by (rewrite !length_map; lia).
  cbn [bind].
  rewrite !scaled_ordinates by assumption.
  rewrite !intgrt_fin by (rewrite !length_map, length_seq; reflexivity).
  cbn [bind fst snd]. rewrite !length_map.
  eexists. eexists. eexists. split; [reflexivity|].
  cbn [length]. rewrite !length_map, !length_seq.
  split; [lia|]. split; [lia|]. split; [lia|].
  intros k Hk.
  rewrite <- !Rtrapezoid_log_temperature by assumption.
  destruct k as [|k]; [split; reflexivity|]. cbn [nth].
  split.
  - rewrite (nth_indep _ 0%R (Rtrapezoid
        (map (fun t => ln (t / nth 0 Ts 0%R)) Ts)
        (map (fun j => (nth j Us 0 / exp (ln (nth j Ts 0 / nth 0 Ts 0))
                        / nth 0 Ts 0 / kb_ev)%R) (seq 0 (length Ts))) 0))
      by (rewrite length_map, length_seq; lia).
    rewrite map_nth, seq_nth by lia. reflexivity.
  - rewrite (nth_indep _ 0%R (Rtrapezoid
        (map (fun t => ln (t / nth 0 Ts 0%R)) Ts)
        (map (fun j => (nth j Es 0 / exp (ln (nth j Ts 0 / nth 0 Ts 0))
                        / nth 0 Ts 0 / kb_ev)%R) (seq 0 (length Ts))) 0))
      by (rewrite length_map, length_seq; lia).
    rewrite map_nth, seq_nth by lia. reflexivity.
Qed.

Lemma integrated_anharmonic_energy_over_log_T_witness :
  1 <= length [100; 200]%R /\
  length [1; 3]%R = length [100; 200]%R /\
  length [0; 0]%R = length [100; 200]%R /\
  (forall t, In t [100; 200]%R -> (0 < t)%R) /\
  exists I err I_md : list R,
    integrated_anharmonic_energy (map Fin [100; 200]%R) (map Fin [1; 3]%R)
                                 (map Fin [0; 0]%R)
      = Ok (map Fin I, map Fin err, map Fin I_md) /\
    length I = length [100; 200]%R /\ length err = length [100; 200]%R /\
    length I_md = length [100; 200]%R /\
    forall k, k < length [100; 200]%R ->
      nth k I 0%R = Rtrapezoid (map ln [100; 200]%R)
                               (per_kT [1; 3]%R [100; 200]%R) k /\
      nth k I_md 0%R = Rtrapezoid (map ln [100; 200]%R)
                                  (per_kT [0; 0]%R [100; 200]%R) k.
Proof.
  assert (H1 : 1 <= length [100; 200]%R) by (simpl; lia).
  assert (Hp : forall t, In t [100; 200]%R -> (0 < t)%R).
  { intros t [<-|[<-|[]]]; lra. }
  split; [exact H1|]. split; [reflexivity|]. split; [reflexivity|].
  split; [exact Hp|].
  exact (proj2 integrated_anharmonic_energy_over_log_T
           [100; 200]%R [1; 3]%R [0; 0]%R H1 eq_refl eq_refl Hp).
Defined.

(* ================================================================== *)
(** ** The anharmonic attributes of [fe_sample] *)

Lemma broadcast_nth0 f (a b c : list num) :
  np.broadcast f a b = Ok c -> 0 < length a -> 0 < length b ->
  nth 0 c NaN = f (nth 0 a NaN) (nth 0 b NaN) /\ 0 < length c.
Proof.
  unfold np.broadcast. intros H Ha Hb.
  destruct a as [|x a]; [simpl in Ha; lia|].
  destruct b as [|y b]; [simpl in Hb; lia|].
  destruct (Nat.eqb (length (x :: a)) (length (y :: b))).
  - injection H as <-. simpl. split; [reflexivity|lia].
  - destruct a as [|x' a].
    + injection H as <-. simpl. split; [reflexivity|lia].
    + destruct b as [|y' b]; [|discriminate].
      injection H as <-. simpl. split; [reflexivity|lia].
Qed.

Lemma broadcast_elements f (a b c : list num) (z : num) :
  np.broadcast f a b = Ok c -> In z c ->
  exists x y, In x a /\ In y b /\ z = f x y.
Proof.
  unfold np.broadcast. intros H Hz.
  assert (Hzip : forall a b, In z (np.zip_with f a b) ->
                   exists x y, In x a /\ In y b /\ z = f x y).
  { clear. induction a as [|x a IH]; intros [|y b] Hz; simpl in Hz;
      try contradiction.
    destruct Hz as [<-|Hz].
    - exists x, y. simpl. auto.
    - destruct (IH b Hz) as [x' [y' [Hx [Hy ->]]]].
      exists x', y'. simpl. auto. }
  destruct (Nat.eqb (length a) (length b)).
  - injection H as <-. apply Hzip. assumption.
  - destruct a as [|x a'].
    + destruct b as [|y [|y' b']]; try discriminate.
      injection H as <-. contradiction.
    + destruct a' as [|x' a''].
      * assert (Hc : c = map (f x) b) by congruence.
        rewrite Hc in Hz. apply in_map_iff in Hz.
        destruct Hz as [w [<- Hw]]. exists x, w. simpl. auto.
      * destruct b as [|y [|y' b']]; try discriminate.
        assert (Hc : c = map (fun x0 => f x0 y) (x :: x' :: a''))
          by congruence.
        rewrite Hc in Hz. apply in_map_iff in Hz.
        destruct Hz as [w [<- Hw]]. exists w, y. simpl. auto.
Qed.

Lemma nabs_sum_not_negative (x y : num) :
  ngtb (Fin 0) (nadd (nabs x) (nabs y)) = false.
Proof.
  destruct x as [r| | |], y as [s| | |]; simpl; try reflexivity.
  destruct (Rlt_dec (Rabs r + Rabs s) 0) as [H|H]; [|reflexivity].
  pose proof (Rabs_pos r). pose proof (Rabs_pos s). lra.
Qed.

(** X19.  The error band [F_anh_err] has no negative entry, whatever the
    inputs. *)
Theorem F_anh_err_never_negative (U_latt : num)
        (Tf u_md u_md_err F_harm_q_ipi F_harm_c_ipi : list num)
        (u_harm_natoms : Z) (u_harm_nmols : num) (a : anharmonic) :
  fe_sample_anharmonic U_latt Tf u_md u_md_err F_harm_q_ipi F_harm_c_ipi
                       u_harm_natoms u_harm_nmols = Ok a ->
  Forall (fun e => ngtb (Fin 0) e = false) (F_anh_err a).
Proof.
  unfold fe_sample_anharmonic. cbv zeta. intros H.
  repeat match type of H with
    | bind ?c _ = Ok _ =>
        let E := fresh "E" in
        let v := fresh "v" in
        destruct c as [v|] eqn:E;
        [cbn [bind] in H; try (destruct v as [[? ?] ?])|discriminate H]
    end.
  injection H as <-. cbn [F_anh_err].
  apply Forall_forall. intros z Hz.
  match goal with E : np.broadcast nadd _ _ = Ok _ |- _ =>
    destruct (broadcast_elements _ _ _ _ _ E Hz) as [x [y [Hx [Hy ->]]]] end.
  apply in_map_iff in Hx. destruct Hx as [x' [<- _]].
  apply in_map_iff in Hy. destruct Hy as [y' [<- _]].
  apply nabs_sum_not_negative.
Qed.

Lemma getitem_first_inv (l : list num) (v : num) :
  getitem l 0 = Ok v -> 0 < length l /\ nth 0 l NaN = v.
Proof.
  destruct l as [|a l]; [discriminate|]. cbn. intros [= <-]. split; [lia|reflexivity].
Qed.

Lemma integrated_anharmonic_energy_starts_at_zero
      (T U_anharm U_err I err I_md : list num) :
  integrated_anharmonic_energy T U_anharm U_err = Ok (I, err, I_md) ->
  (nth 0 I NaN = Fin 0 /\ 0 < length I) /\
  (nth 0 err NaN = Fin 0 /\ 0 < length err) /\
  (nth 0 I_md NaN = Fin 0 /\ 0 < length I_md).
Proof.
  unfold integrated_anharmonic_energy. intros H.
  bind_step H T0 ET. bind_step H q EqU. bind_step H q' EqE.
  bind_step H r1 Hi1. destruct r1 as [I1 e1].
  bind_step H r2 Hi2. destruct r2 as [I2 e2].
  cbn [fst snd] in H. injection H as <- <- <-.
  destruct (intgrt_result_shape _ _ _ _ Hi1) as [L1 [L2 [Z1 Z2]]].
  destruct (intgrt_result_shape _ _ _ _ Hi2) as [L3 [_ [Z3 _]]].
  repeat split; try assumption; lia.
Qed.

(** X18.  At the first temperature the pipeline returns the harmonic
    values: [F_anh_c[0]] is [F_harm_c_ipi[0]], [F_anh_q[0]] is
    [F_harm_q_ipi[0]], and the error band starts at zero. *)
Theorem anharmonic_at_reference_temperature
        (Tf u_md u_md_err F_harm_q_ipi F_harm_c_ipi : list num)
        (u_harm_natoms : Z) (a : anharmonic) (u t0 m c0 q0 : R) :
  fe_sample_anharmonic (Fin u) Tf u_md u_md_err F_harm_q_ipi F_harm_c_ipi
                       u_harm_natoms (Fin m) = Ok a ->
  nth 0 Tf NaN = Fin t0 -> t0 <> 0%R -> m <> 0%R ->
  nth 0 F_harm_c_ipi NaN = Fin c0 ->
  0 < length F_harm_q_ipi -> nth 0 F_harm_q_ipi NaN = Fin q0 ->
  nth 0 (F_anh_c a) NaN = Fin c0 /\
  nth 0 (F_anh_q a) NaN = Fin q0 /\
  nth 0 (F_anh_err a) NaN = Fin 0.
Proof.
  unfold fe_sample_anharmonic. cbv zeta. intros H HT Ht Hm Hc Hql Hq.
  bind_step H ua Eua. bind_step H r Eint. destruct r as [[I err] Imd].
  bind_step H Fc0 EFc. bind_step H Tf0 ETf.
  bind_step H va Ea. bind_step H vb Eb. bind_step H Fc_ Ec.
  bind_step H vs Es. bind_step H Fq_ EFq.
  bind_step H e1 Ee1. bind_step H e2 Ee2. bind_step H Ferr Eerr.
  injection H as <-. cbn [F_anh_c F_anh_q F_anh_err].
  destruct (integrated_anharmonic_energy_starts_at_zero _ _ _ _ _ _ Eint)
    as [[ZI LI] [[Ze Le] [Zm Lm]]].
  destruct (getitem_first_inv _ _ EFc) as [LFc NFc].
  destruct (getitem_first_inv _ _ ETf) as [LTf NTf].
  rewrite HT in NTf. subst Tf0. rewrite Hc in NFc. subst Fc0.
  assert (Hone : (t0 / t0 = 1)%R) by (field; assumption).
  destruct (broadcast_nth0 _ _ _ _ Ea) as [Na La]; try (rewrite ?length_map; lia).
  destruct (broadcast_nth0 _ _ _ _ Eb) as [Nb Lb]; try (rewrite ?length_map; lia).
  destruct (broadcast_nth0 _ _ _ _ Ec) as [Nc Lc]; try lia.
  destruct (broadcast_nth0 _ _ _ _ Es) as [Ns Ls]; try lia.
  destruct (broadcast_nth0 _ _ _ _ EFq) as [Nq Lq]; try lia.
  destruct (broadcast_nth0 _ _ _ _ Ee1) as [N1 L1]; try lia.
  destruct (broadcast_nth0 _ _ _ _ Ee2) as [N2 L2]; try lia.
  destruct (broadcast_nth0 _ _ _ _ Eerr) as [Nerr Lerr];
    try (rewrite ?length_map; lia).
  rewrite !(nth_map_any _ _ NaN) in Na by (rewrite ?length_map; lia).
  rewrite (nth_map_any _ _ NaN) in Nb by lia.
  rewrite !(nth_map_any _ _ NaN) in Nerr by (rewrite ?length_map; lia).
  rewrite HT in Na, Nb, N1, N2. rewrite ZI in Nb. rewrite Ze in N1. rewrite Zm in N2.
  cbn [nsub nmul nadd] in Na, Nb, N1, N2.
  rewrite !ndiv_fin in Na by assumption.
  rewrite Hone in Na. rewrite (nlog_fin_pos 1) in Na by lra. rewrite ln_1 in Na.
  unfold of_Z in Na. cbn [nmul nadd nsub] in Na.
  rewrite ndiv_fin in Na by assumption. cbn [nadd nsub] in Na.
  rewrite Na, Nb in Nc. cbn [nsub] in Nc.
  assert (HFc : nth 0 Fc_ NaN = Fin c0).
  { rewrite Nc. f_equal. field. split; assumption. }
  rewrite HFc, Hq in Ns. cbn [nadd] in Ns.
  rewrite Ns, Hc in Nq. cbn [nsub] in Nq.
  rewrite N1, N2 in Nerr. cbn [nmul nabs nadd] in Nerr.
  split; [exact HFc|]. split.
  - rewrite Nq. f_equal. ring.
  - rewrite Nerr. f_equal.
    replace (t0 * 0 * kb_ev)%R with 0%R by ring. rewrite Rabs_R0. ring.
Qed.

Lemma anharmonic_sample_ok : exists a, anharmonic_sample = Ok a.
Proof.
  eexists. unfold anharmonic_sample, fe_sample_anharmonic, anharmonic_energy,
    integrated_anharmonic_energy, harmonic_potential_energy.
  num_compute. reflexivity.
Qed.

Lemma anharmonic_at_reference_temperature_witness :
  exists a,
    fe_sample_anharmonic (Fin 0) [Fin 100; Fin 200] [Fin 1; Fin 2]
      [Fin 0; Fin 0] [Fin 3; Fin 4] [Fin 5; Fin 6] 2 (Fin 1) = Ok a /\
    nth 0 [Fin 100; Fin 200] NaN = Fin 100 /\ 100%R <> 0%R /\ 1%R <> 0%R /\
    nth 0 [Fin 5; Fin 6] NaN = Fin 5 /\
    0 < length [Fin 3; Fin 4] /\ nth 0 [Fin 3; Fin 4] NaN = Fin 3 /\
    nth 0 (F_anh_c a) NaN = Fin 5 /\
    nth 0 (F_anh_q a) NaN = Fin 3 /\
    nth 0 (F_anh_err a) NaN = Fin 0.
Proof.
  destruct anharmonic_sample_ok as [a Ha]. exists a.
  assert (H1 : 100%R <> 0%R) by lra.
  assert (H2 : 1%R <> 0%R) by lra.
  assert (H3 : 0 < length [Fin 3; Fin 4]) by (simpl; lia).
  split; [exact Ha|]. split; [reflexivity|]. split; [exact H1|].
  split; [exact H2|]. split; [reflexivity|]. split; [exact H3|].
  split; [reflexivity|].
  exact (anharmonic_at_reference_temperature _ _ _ _ _ _ a 0 100 1 5 3
           Ha eq_refl H1 H2 eq_refl H3 eq_refl).
Defined.

Lemma F_anh_err_never_negative_witness :
  exists a,
    fe_sample_anharmonic (Fin 0) [Fin 100; Fin 200] [Fin 1; Fin 2]
      [Fin 0; Fin 0] [Fin 3; Fin 4] [Fin 5; Fin 6] 2 (Fin 1) = Ok a /\
    Forall (fun e => ngtb (Fin 0) e = false) (F_anh_err a).
Proof.
  destruct anharmonic_sample_ok as [a Ha]. exists a.
  split; [exact Ha|].
  exact (F_anh_err_never_negative _ _ _ _ _ _ _ _ a Ha).
Defined.

(* ================================================================== *)
(** ** Sorting by [np.argsort] *)

Lemma getitem_nat {A} (l : list A) (d : A) (j : nat) :
  j < length l -> getitem l (Z.of_nat j) = Ok (nth j l d).
Proof.
  intros H. apply getitem_nth_error; [lia|].
  rewrite Nat2Z.id. apply nth_error_nth'. assumption.
Qed.

Lemma mapM_getitem_argsort {A} (l : list A) (d : A) (a : list num) :
  length l = length a ->
  mapM (getitem l) (argsort a) = Ok (map (fun i => nth i l d) (sorted_indices a)).
Proof.
  intros Hlen. unfold argsort.
  assert (H : forall idx, (forall i, In i idx -> i < length l) ->
            mapM (getitem l) (map Z.of_nat idx)
            = Ok (map (fun i => nth i l d) idx)).
  { induction idx as [|i idx IH]; intros Hin; simpl; [reflexivity|].
    rewrite (getitem_nat l d) by (apply Hin; left; reflexivity). cbn [bind].
    rewrite IH by (intros; apply Hin; right; assumption). reflexivity. }
  apply H. intros i Hi.
  apply (Permutation_in _ (sorted_indices_perm a)) in Hi.
  apply in_seq in Hi. lia.
Qed.

Lemma map_nth_seq {A} (l : list A) (d : A) :
  map (fun i => nth i l d) (seq 0 (length l)) = l.
Proof.
  apply (nth_ext _ _ d d).
  - rewrite length_map, length_seq. reflexivity.
  - intros j Hj. rewrite length_map, length_seq in Hj.
    rewrite (nth_indep _ d (nth 0 l d)) by (rewrite length_map, length_seq; lia).
    rewrite (map_nth (fun i => nth i l d)), seq_nth by lia. reflexivity.
Qed.

Lemma sort_by_perm {A} (key : A -> num) (d : A) (l : list A) :
  Permutation (sort_by key d l) l.
Proof.
  unfold sort_by. rewrite <- (map_nth_seq l d) at 2.
  apply Permutation_map. rewrite <- (length_map key l).
  apply sorted_indices_perm.
Qed.

Lemma sort_by_keys {A} (key : A -> num) (d : A) (l : list A) :
  map key (sort_by key d l)
  = map (fun i => nth i (map key l) NaN) (sorted_indices (map key l)).
Proof.
  unfold sort_by. rewrite map_map. apply map_ext_in. intros i Hi.
  apply (Permutation_in _ (sorted_indices_perm (map key l))) in Hi.
  apply in_seq in Hi. rewrite length_map in Hi.
  symmetry. apply nth_map_any. lia.
Qed.

Lemma sort_by_ascending {A} (key : A -> num) (d : A) (l : list A) :
  ascending (map key (sort_by key d l)).
Proof. rewrite sort_by_keys. apply argsort_ascending. Qed.

Lemma sort_by_sorted {A} (key : A -> num) (d : A) (l : list A) :
  Sorted (fun a b => ngtb (key a) (key b) = false) (sort_by key d l).
Proof.
  unfold sort_by.
  pose proof (sorted_indices_sorted (map key l)) as Hs.
  pose proof (sorted_indices_perm (map key l)) as Hp.
  assert (Hin : forall i, In i (sorted_indices (map key l)) -> i < length l).
  { intros i Hi. apply (Permutation_in _ Hp) in Hi. apply in_seq in Hi.
    rewrite length_map in Hi. lia. }
  clear Hp. induction Hs as [|i idx Hs IH Hh]; simpl; constructor.
  - apply IH. intros j Hj. apply Hin. right. assumption.
  - destruct Hh as [|j idx' Hij]; simpl; constructor.
    unfold not_above in Hij.
    rewrite !(nth_map_any key l d) in Hij
      by (apply Hin; simpl; auto).
    exact Hij.
Qed.

Lemma ngtb_false_le (a b : num) :
  is_fin a -> is_fin b -> ngtb a b = false -> (val a <= val b)%R.
Proof.
  destruct a, b; simpl; try contradiction. intros _ _.
  destruct (Rlt_dec r0 r); [discriminate|]. intros _. lra.
Qed.

Lemma val_inj (a b : num) : is_fin a -> is_fin b -> val a = val b -> a = b.
Proof.
  destruct a, b; simpl; try contradiction. intros _ _ ->. reflexivity.
Qed.

(** With finite keys that are all different, the sorted order is strict. *)
Lemma sorted_strict {A} (key : A -> num) (l : list A) :
  Forall (fun a => is_fin (key a)) l -> NoDup (map key l) ->
  Sorted (fun a b => ngtb (key a) (key b) = false) l ->
  StronglySorted (fun a b => (val (key a) < val (key b))%R) l.
Proof.
  intros Hfin Hnd Hs. apply Sorted_StronglySorted.
  - intros a b c Hab Hbc. lra.
  - induction Hs as [|a l Hs IH Hh]; constructor.
    + inversion Hfin; subst. inversion Hnd; subst. apply IH; assumption.
    + destruct Hh as [|b l' Hab]; constructor.
      inversion Hfin as [|? ? Fa Fl]; subst. inversion Fl as [|? ? Fb _]; subst.
      inversion Hnd as [|? ? Hnot _]; subst.
      pose proof (ngtb_false_le _ _ Fa Fb Hab) as Hle.
      destruct (Req_dec_T (val (key a)) (val (key b))) as [E|E]; [|lra].
      exfalso. apply Hnot. left. symmetry. apply val_inj; assumption.
Qed.

Lemma strictly_sorted_unique {A} (rk : A -> R) (l1 : list A) :
  forall l2,
    StronglySorted (fun a b => (rk a < rk b)%R) l1 ->
    StronglySorted (fun a b => (rk a < rk b)%R) l2 ->
    Permutation l1 l2 -> l1 = l2.
Proof.
  induction l1 as [|a t1 IH]; intros l2 S1 S2 P.
  - apply Permutation_nil in P. subst. reflexivity.
  - destruct l2 as [|b t2]; [symmetry in P; apply Permutation_nil in P; discriminate|].
    inversion S1 as [|? ? S1' F1]; subst. inversion S2 as [|? ? S2' F2]; subst.
    assert (Hab : a = b).
    { assert (Ha : In a (b :: t2)) by (apply (Permutation_in _ P); left; reflexivity).
      assert (Hb : In b (a :: t1))
        by (apply (Permutation_in _ (Permutation_sym P)); left; reflexivity).
      destruct Ha as [Ha|Ha]; [symmetry; assumption|].
      destruct Hb as [Hb|Hb]; [assumption|].
      rewrite Forall_forall in F1, F2.
      pose proof (F1 b Hb). pose proof (F2 a Ha). lra. }
    subst b. f_equal. apply IH; try assumption.
    apply (Permutation_cons_inv P).
Qed.

(** The sorted list does not depend on the order of the input, when the
    keys are finite and all different. *)
Lemma sort_by_unique {A} (key : A -> num) (d : A) (l l' : list A) :
  Permutation l l' ->
  Forall (fun a => is_fin (key a)) l -> NoDup (map key l) ->
  sort_by key d l = sort_by key d l'.
Proof.
  intros P Hfin Hnd.
  assert (Hfin' : Forall (fun a => is_fin (key a)) l')
    by (apply (Permutation_Forall P); assumption).
  assert (Hnd' : NoDup (map key l'))
    by (apply (Permutation_NoDup (Permutation_map key P)); assumption).
  apply (strictly_sorted_unique (fun a => val (key a))).
  - apply sorted_strict; [| |apply sort_by_sorted].
    + apply (Permutation_Forall (Permutation_sym (sort_by_perm key d l))).
      assumption.
    + apply (Permutation_NoDup
               (Permutation_map key (Permutation_sym (sort_by_perm key d l)))).
      assumption.
  - apply sorted_strict; [| |apply sort_by_sorted].
    + apply (Permutation_Forall (Permutation_sym (sort_by_perm key d l'))).
      assumption.
    + apply (Permutation_NoDup
               (Permutation_map key (Permutation_sym (sort_by_perm key d l')))).
      assumption.
  - rewrite (sort_by_perm key d l), (sort_by_perm key d l'). assumption.
Qed.

(* ================================================================== *)
(** ** Loops over the subfolders *)

Lemma mapM_ok_inv {A B} (f : A -> result B) (l : list A) :
  forall bs, mapM f l = Ok bs -> Forall2 (fun a b => f a = Ok b) l bs.
Proof.
  induction l as [|a l IH]; intros bs H; simpl in H.
  - injection H as <-. constructor.
  - destruct (f a) as [b|] eqn:Ea; cbn [bind] in H; [|discriminate].
    destruct (mapM f l) as [bs'|]; cbn [bind] in H; [|discriminate].
    injection H as <-. constructor; [assumption|]. apply IH. reflexivity.
Qed.



Lemma Forall2_map_eq {A B C} (g : A -> C) (h : B -> C) (l : list A) (bs : list B) :
  Forall2 (fun a b => g a = h b) l bs -> map g l = map h bs.
Proof. induction 1; simpl; congruence. Qed.

Lemma Forall2_weaken {A B} (P Q : A -> B -> Prop) (l : list A) (bs : list B) :
  (forall a b, P a b -> Q a b) -> Forall2 P l bs -> Forall2 Q l bs.
Proof. intros H. induction 1; constructor; auto. Qed.

(** [_error_from_u] raises on fewer than two elements and on nothing else. *)
Lemma error_from_u_cases (u : list num) :
  (length u < 2 /\ _error_from_u u = Raise ValueError) \/
  (2 <= length u /\ exists e, _error_from_u u = Ok e).
Proof.
  destruct (Nat.ltb_spec (length u) 2) as [H|H].
  - left. split; [assumption|]. unfold _error_from_u, decay_cutoff, np.gradient.
    destruct (Nat.ltb_spec (length u) 2); [reflexivity|lia].
  - right. split; [assumption|]. eexists.
    apply (error_from_u_ok u _ (gradient_ok u H)).
Qed.

Lemma md_step_cases (r : md_run) :
  (length (potential r) < 2 /\ md_step r = Raise ValueError) \/
  (2 <= length (potential r) /\
   exists e, _error_from_u (potential r) = Ok e /\
     md_step r = Ok (np.mean (temperature r), np.mean (potential r), e)).
Proof.
  unfold md_step. cbv zeta.
  destruct (error_from_u_cases (potential r)) as [[H E]|[H [e E]]];
    rewrite E; cbn [bind].
  - left. split; [assumption|reflexivity].
  - right. split; [assumption|]. exists e. split; reflexivity.
Qed.

Lemma md_step_row (r : md_run) (row : num * num * num) :
  md_step r = Ok row ->
  fst (fst row) = np.mean (temperature r) /\
  snd (fst row) = np.mean (potential r) /\
  _error_from_u (potential r) = Ok (snd row).
Proof.
  destruct (md_step_cases r) as [[_ E]|[_ [v [Ev E]]]]; rewrite E; [discriminate|].
  intros [= <-]. simpl. auto.
Qed.

(** [ipi_md_potential] runs its loop over the runs sorted by label. *)
Lemma ipi_md_potential_sorted (runs : list md_run) (nmols : num) :
  ipi_md_potential runs nmols =
    (rows <- mapM md_step (sort_by (fun r => of_Z (label r)) no_run runs) ;;
     Ok (map (fun r => fst (fst r)) rows,
         map (fun r => of_Z (label r))
             (sort_by (fun r => of_Z (label r)) no_run runs),
         map (fun r => ndiv (snd (fst r)) nmols) rows,
         map (fun r => ndiv (snd r) nmols) rows)).
Proof.
  unfold ipi_md_potential. cbv zeta.
  rewrite (mapM_getitem_argsort runs no_run)
    by (rewrite length_map; reflexivity).
  cbn [bind]. reflexivity.
Qed.

Lemma of_Z_inj (a b : Z) : of_Z a = of_Z b -> a = b.
Proof. unfold of_Z. intros [= H]. apply eq_IZR. assumption. Qed.

Lemma label_keys (runs : list md_run) :
  NoDup (map label runs) ->
  Forall (fun r => is_fin (of_Z (label r))) runs /\
  NoDup (map (fun r => of_Z (label r)) runs).
Proof.
  intros H. split.
  - apply Forall_forall. intros r _. exact I.
  - rewrite <- (map_map label of_Z).
    induction H as [|z zs Hz _ IH]; simpl; constructor; [|assumption].
    intros Hin. apply in_map_iff in Hin. destruct Hin as [z' [Hz' Hin]].
    apply of_Z_inj in Hz'. subst z'. contradiction.
Qed.

(** X20.  When [ipi_md_potential] returns, its four arrays are aligned on
    the runs taken in ascending order of their integer label: at every
    position the mean temperature, the label, the mean potential over
    [nmols] and the error estimate over [nmols] belong to the same run. *)
Theorem ipi_md_potential_aligned (runs : list md_run) (nmols : num)
        (T Tf U err : list num) :
  ipi_md_potential runs nmols = Ok (T, Tf, U, err) ->
  exists sorted,
    Permutation sorted runs /\
    ascending Tf /\
    Tf = map (fun r => of_Z (label r)) sorted /\
    T = map (fun r => np.mean (temperature r)) sorted /\
    U = map (fun r => ndiv (np.mean (potential r)) nmols) sorted /\
    Forall2 (fun r e => exists e0, _error_from_u (potential r) = Ok e0 /\
                                   e = ndiv e0 nmols) sorted err.
Proof.
  rewrite ipi_md_potential_sorted.
  set (sorted := sort_by (fun r => of_Z (label r)) no_run runs).
  intros H. destruct (mapM md_step sorted) as [rows|] eqn:E;
    cbn [bind] in H; [|discriminate].
  injection H as <- <- <- <-.
  apply mapM_ok_inv in E.
  exists sorted. split; [apply sort_by_perm|].
  split; [apply sort_by_ascending|]. split; [reflexivity|].
  split; [|split].
  - symmetry. apply Forall2_map_eq.
    refine (Forall2_weaken _ _ _ _ _ E). intros r row Hr. cbv beta.
    destruct (md_step_row r row Hr) as [-> _]. reflexivity.
  - symmetry. apply Forall2_map_eq.
    refine (Forall2_weaken _ _ _ _ _ E). intros r row Hr. cbv beta.
    destruct (md_step_row r row Hr) as [_ [-> _]]. reflexivity.
  - clear -E. induction E as [|r row l rows Hr _ IH]; simpl; constructor.
    + exists (snd row). split; [apply (md_step_row r row Hr)|reflexivity].
    + exact IH.
Qed.


(** X22.  The result of [ipi_md_potential] does not depend on the order in
    which the directory listing gives the runs, when their integer labels
    are all different. *)
Theorem ipi_md_potential_order_independent (runs runs' : list md_run)
        (nmols : num) :
  Permutation runs runs' -> NoDup (map label runs) ->
  ipi_md_potential runs nmols = ipi_md_potential runs' nmols.
Proof.
  intros P Hnd. destruct (label_keys runs Hnd) as [Hfin Hk].
  rewrite !ipi_md_potential_sorted.
  rewrite (sort_by_unique (fun r => of_Z (label r)) no_run runs runs' P Hfin Hk).
  reflexivity.
Qed.

Lemma md_sample_sorted :
  sort_by (fun r => of_Z (label r)) no_run md_sample = rev md_sample.
Proof.
  unfold sort_by, sorted_indices, md_sample, of_Z. num_compute. reflexivity.
Qed.

Lemma md_sample_result :
  ipi_md_potential md_sample (Fin 2)
  = Ok ([Fin 100; Fin 200], [Fin 100; Fin 200], [Fin (1 / 2); Fin 1],
        [Fin 0; Fin 0]).
Proof.
  rewrite ipi_md_potential_sorted, md_sample_sorted.
  unfold md_sample. cbn [rev app mapM]. unfold md_step.
  cbn [potential temperature label].
  rewrite (error_from_u_constant 1 2 (le_n 2) : _error_from_u [Fin 1; Fin 1] = _).
  rewrite (error_from_u_constant 2 2 (le_n 2) : _error_from_u [Fin 2; Fin 2] = _).
  unfold np.mean, of_Z, len. num_compute. num_eq.
Qed.

Lemma ipi_md_potential_aligned_witness :
  ipi_md_potential md_sample (Fin 2)
  = Ok ([Fin 100; Fin 200], [Fin 100; Fin 200], [Fin (1 / 2); Fin 1],
        [Fin 0; Fin 0]) /\
  exists sorted,
    Permutation sorted md_sample /\
    ascending [Fin 100; Fin 200] /\
    [Fin 100; Fin 200] = map (fun r => of_Z (label r)) sorted /\
    [Fin 100; Fin 200] = map (fun r => np.mean (temperature r)) sorted /\
    [Fin (1 / 2); Fin 1]
    = map (fun r => ndiv (np.mean (potential r)) (Fin 2)) sorted /\
    Forall2 (fun r e => exists e0, _error_from_u (potential r) = Ok e0 /\
                                   e = ndiv e0 (Fin 2)) sorted [Fin 0; Fin 0].
Proof.
  split; [exact md_sample_result|].
  exact (ipi_md_potential_aligned _ _ _ _ _ _ md_sample_result).
Defined.


Lemma ipi_md_potential_order_independent_witness :
  Permutation md_sample (rev md_sample) /\ NoDup (map label md_sample) /\
  ipi_md_potential md_sample (Fin 2) = ipi_md_potential (rev md_sample) (Fin 2).
Proof.
  assert (P : Permutation md_sample (rev md_sample)) by apply Permutation_rev.
  assert (N : NoDup (map label md_sample)).
  { simpl. constructor; [simpl; intros [H|[]]; discriminate|].
    constructor; [simpl; tauto|constructor]. }
  split; [exact P|]. split; [exact N|].
  exact (ipi_md_potential_order_independent _ _ _ P N).
Defined.

(* ================================================================== *)
(** ** The coupling-parameter pipeline in any order *)











